(** * WeWork documentation crawler: a shallow embedding of
      [wework_doc_crawler.py] and the properties of its tree builder,
      path namer, header parser and incremental traversal.

    What the model covers: [build_category_tree] and [_add_to_tree],
    [generate_file_path], [md_to_mdx], [extract_update_time_from_mdx],
    [fetch_document_content], [save_document] and [crawl_tree], and, for the
    listing page and the whole run, [fetch_page],
    [extract_categories_from_page] and [run].  A run is a
    function on a state made of the files on disk and the trace of requests,
    writes and waits; an exception is an error result that ends the run.
    Calls of the logger leave no mark in the state.  Paths are those of a
    POSIX system, and the files are regular files. *)

From Stdlib Require Import ZArith Ascii DecimalString DecimalZ.
From stdpp Require Import gmap strings list.

(** ** Python values, dictionaries and exceptions *)

(** The JSON values the crawler reads out of its dictionaries: integers and
    text.  A character of a [string] stands for one code point below 256. *)
Inductive val :=
| VInt (z : Z)
| VStr (s : string).

#[global] Instance val_eq_dec : EqDecision val.
Proof. solve_decision. Defined.

(** A category record (and a response payload) is a Python [dict] with
    string keys. *)
Abbreviation dict := (gmap string val).

(** The exceptions that leave the crawler's functions. *)
Inductive exn :=
| KeyError (key : string)
| TypeError
| FetchError
| NoData.

Inductive result (A : Type) :=
| Ok (a : A)
| Err (e : exn).
Arguments Ok {A} a.
Arguments Err {A} e.

Definition bind {A B} (r : result A) (k : A -> result B) : result B :=
  match r with
  | Ok a => k a
  | Err e => Err e
  end.

Notation "'do' x <- r ; k" := (bind r (fun x => k))
  (at level 10, x name, r at level 100, k at level 200).

(** [d[key]] *)
Definition getitem (d : dict) (key : string) : result val :=
  match d !! key with
  | Some v => Ok v
  | None => Err (KeyError key)
  end.

(** [d.get(key, default)] *)
Definition get (d : dict) (key : string) (default : val) : val :=
  match d !! key with
  | Some v => v
  | None => default
  end.

(** ** The category tree *)

(** A tree is a Python dict from node id to node, in insertion order; a node
    is [{'category': cat, 'children': tree}]. *)
Inductive node :=
| Node (category : dict) (children : forest)
with forest :=
| FNil
| FCons (node_id : val) (n : node) (rest : forest).

Scheme node_forest_ind := Induction for node Sort Prop
with forest_node_ind := Induction for forest Sort Prop.
Combined Scheme tree_mutind from node_forest_ind, forest_node_ind.

Definition category (n : node) : dict := let 'Node c _ := n in c.
Definition children (n : node) : forest := let 'Node _ ch := n in ch.

(** [tree[key] = n]: an existing key keeps its place, a new one goes last. *)
Fixpoint setitem (tree : forest) (key : val) (n : node) : forest :=
  match tree with
  | FNil => FCons key n FNil
  | FCons k m rest =>
      if bool_decide (k = key) then FCons k n rest
      else FCons k m (setitem rest key n)
  end.

(** [_add_to_tree]: the loop stops at the first node whose id is the parent's;
    the result of a recursive call is not looked at, so the loop goes on with
    the next sibling after it. *)
Fixpoint _add_to_tree (tree : forest) (parent_id : val) (cat : dict)
  : result forest :=
  match tree with
  | FNil => Ok FNil
  | FCons node_id (Node c ch) rest =>
      if bool_decide (node_id = parent_id) then
        do cid <- getitem cat "category_id";
        Ok (FCons node_id (Node c (setitem ch cid (Node cat FNil))) rest)
      else
        do ch' <- _add_to_tree ch parent_id cat;
        do rest' <- _add_to_tree rest parent_id cat;
        Ok (FCons node_id (Node c ch') rest')
  end.

(** [cat_map = {cat['id']: cat for cat in categories}], as the list of its
    items in insertion order. *)
Fixpoint cat_map (categories : list dict) (acc : list (val * dict))
  : result (list (val * dict)) :=
  match categories with
  | [] => Ok acc
  | cat :: rest =>
      do k <- getitem cat "id";
      cat_map rest
        (if bool_decide (k ∈ acc.*1)
         then (fun kv : val * dict =>
                 if bool_decide (kv.1 = k) then (k, cat) else kv) <$> acc
         else acc ++ [(k, cat)])
  end.

(** The loop of [build_category_tree] over the records, from the tree built
    so far. *)
Fixpoint build_loop (categories : list dict) (tree : forest) : result forest :=
  match categories with
  | [] => Ok tree
  | cat :: rest =>
      let parent_id := get cat "parent_id" (VInt 0) in
      if bool_decide (parent_id = VInt 0) then
        do cid <- getitem cat "category_id";
        build_loop rest (setitem tree cid (Node cat FNil))
      else
        do tree' <- _add_to_tree tree parent_id cat;
        build_loop rest tree'
  end.

Definition build_category_tree (categories : list dict) : result forest :=
  do _ <- cat_map categories [];
  build_loop categories FNil.

(** ** Text: character classes, [re.sub], [str.strip] and decimal numerals *)

Definition nl : string := String "010" "".
Definition dquote : string := String "034" "".

(** The characters [generate_file_path] removes: the nine of its pattern,
    of which "034" is the double quote. *)
Definition special (c : ascii) : bool :=
  match c with
  | "<" | ">" | ":" | "034" | "/" | "\" | "|" | "?" | "*" => true
  | _ => false
  end%char.

(** [\s] of a [str] pattern and the characters [str.strip()] removes, among
    the code points below 256. *)
Definition is_space (c : ascii) : bool :=
  let n := N_of_ascii c in
  ((9 <=? n) && (n <=? 13) || (28 <=? n) && (n <=? 32)
   || (n =? 133) || (n =? 160))%N.

(** [\d] among the code points below 256. *)
Definition is_digit (c : ascii) : bool :=
  let n := N_of_ascii c in ((48 <=? n) && (n <=? 57))%N.

(** [.] under [re.DOTALL]. *)
Definition any_char (c : ascii) : bool := true.

(** [re.sub] of the pattern of [generate_file_path] by the empty text. *)
Fixpoint re_sub_special (s : string) : string :=
  match s with
  | "" => ""
  | String c s' =>
      if special c then re_sub_special s' else String c (re_sub_special s')
  end.

Fixpoint lstrip (s : string) : string :=
  match s with
  | "" => ""
  | String c s' => if is_space c then lstrip s' else s
  end.

Fixpoint rstrip (s : string) : string :=
  match s with
  | "" => ""
  | String c s' =>
      match rstrip s' with
      | "" => if is_space c then "" else String c ""
      | r => String c r
      end
  end.

(** [s.strip()] *)
Definition strip (s : string) : string := rstrip (lstrip s).

(** [str(v)], also what an f-string puts for [{v}]. *)
Definition py_str (v : val) : string :=
  match v with
  | VInt z => NilEmpty.string_of_int (Z.to_int z)
  | VStr s => s
  end.

(** [int(g)] for a text [g]; [None] stands for [ValueError].  The bound some
    Python versions put on the number of digits is left out. *)
Definition py_int (g : string) : option Z :=
  match g with
  | "" => None
  | _ => Z.of_uint <$> NilEmpty.uint_of_string g
  end.

(** Truth value of a Python object. *)
Definition truthy (v : val) : bool :=
  match v with
  | VInt z => negb (z =? 0)%Z
  | VStr s => negb (bool_decide (s = ""))
  end.

(** ** Regular expressions: a backtracking matcher *)

(** The pieces the crawler's pattern is made of.  Every repetition is over a
    single character class. *)
Inductive re_item :=
| Bol                               (* [^] under re.MULTILINE *)
| Lit (s : string)                  (* literal text *)
| Star (p : ascii → bool)           (* greedy [c*] *)
| LazyStar (p : ascii → bool)       (* lazy [c*?] *)
| Group1Plus (p : ascii → bool).    (* [(c+)], greedy, capture group 1 *)

Section Matcher.
Context {R : Type}.

(** A continuation takes the character before the current position (for
    [^]) and the text that is left. *)
Definition cont := option ascii → string → option R.

Fixpoint star_greedy (p : ascii → bool) (k : cont)
    (prev : option ascii) (s : string) : option R :=
  match s with
  | String c s' =>
      if p c then
        match star_greedy p k (Some c) s' with
        | Some r => Some r
        | None => k prev s
        end
      else k prev s
  | "" => k prev s
  end.

Fixpoint star_lazy (p : ascii → bool) (k : cont)
    (prev : option ascii) (s : string) : option R :=
  match k prev s with
  | Some r => Some r
  | None =>
      match s with
      | String c s' => if p c then star_lazy p k (Some c) s' else None
      | "" => None
      end
  end.

Fixpoint plus_capture (p : ascii → bool) (k : string → cont)
    (acc : string) (prev : option ascii) (s : string) : option R :=
  match s with
  | String c s' =>
      if p c then
        match plus_capture p k (acc +:+ String c "") (Some c) s' with
        | Some r => Some r
        | None => k (acc +:+ String c "") (Some c) s'
        end
      else None
  | "" => None
  end.
End Matcher.

(** [lit] read at the front of [s]: what is left of [s] and the last
    character read. *)
Fixpoint read_lit (lit : string) (prev : option ascii) (s : string)
  : option (option ascii * string) :=
  match lit with
  | "" => Some (prev, s)
  | String c lit' =>
      match s with
      | String d s' => if Ascii.eqb c d then read_lit lit' (Some d) s' else None
      | "" => None
      end
  end.

Definition at_line_start (prev : option ascii) : bool :=
  match prev with
  | None => true
  | Some c => Ascii.eqb c "010"
  end.

(** A match of the pattern [r] that starts at the current position; the
    result is group 1 of the match object. *)
Fixpoint match_here (r : list re_item) (group1 : option string)
    (prev : option ascii) (s : string) : option (option string) :=
  match r with
  | [] => Some group1
  | Bol :: r' => if at_line_start prev then match_here r' group1 prev s else None
  | Lit l :: r' =>
      match read_lit l prev s with
      | Some (prev', s') => match_here r' group1 prev' s'
      | None => None
      end
  | Star p :: r' => star_greedy p (match_here r' group1) prev s
  | LazyStar p :: r' => star_lazy p (match_here r' group1) prev s
  | Group1Plus p :: r' =>
      plus_capture p (fun g => match_here r' (Some g)) "" prev s
  end.

(** [re.search]: the first position, from the left, where the pattern
    matches. *)
Fixpoint search_from (r : list re_item) (prev : option ascii) (s : string)
  : option (option string) :=
  match match_here r None prev s with
  | Some m => Some m
  | None =>
      match s with
      | String c s' => search_from r (Some c) s'
      | "" => None
      end
  end.

Definition re_search (r : list re_item) (s : string) : option (option string) :=
  search_from r None s.

(** [r'^---\s*\n.*?update_time:\s*(\d+).*?\n---'] with [re.DOTALL] and
    [re.MULTILINE]. *)
Definition frontmatter_pattern : list re_item :=
  [Bol; Lit "---"; Star is_space; Lit nl; LazyStar any_char;
   Lit "update_time:"; Star is_space; Group1Plus is_digit;
   LazyStar any_char; Lit (nl +:+ "---")].

(** ** Artifacts *)

(** The local time, as [time.strftime] takes it from the clock. *)
Record struct_time := {
  tm_year : nat;
  tm_mon : nat;
  tm_mday : nat;
  tm_hour : nat;
  tm_min : nat;
  tm_sec : nat;
}.

Definition decimal (n : nat) : string := NilEmpty.string_of_uint (Nat.to_uint n).

(** A number on two digits, and on four. *)
Definition pad2 (n : nat) : string :=
  if n <? 10 then "0" +:+ decimal n else decimal n.

Definition pad4 (n : nat) : string :=
  if n <? 10 then "000" +:+ decimal n
  else if n <? 100 then "00" +:+ decimal n
  else if n <? 1000 then "0" +:+ decimal n
  else decimal n.

(** [time.strftime('%Y-%m-%d %H:%M:%S')] *)
Definition strftime (t : struct_time) : string :=
  pad4 (tm_year t) +:+ "-" +:+ pad2 (tm_mon t) +:+ "-" +:+ pad2 (tm_mday t)
  +:+ " " +:+ pad2 (tm_hour t) +:+ ":" +:+ pad2 (tm_min t) +:+ ":"
  +:+ pad2 (tm_sec t).

(** [md_to_mdx]; [now] is the text [strftime] gives at the time of the call. *)
Definition md_to_mdx (now : string) (markdown_content title category_id
    update_time : val) : result string :=
  if negb (truthy markdown_content) then
    Ok ("# " +:+ py_str title +:+ nl +:+ nl +:+ "*No content available*" +:+ nl)
  else
    let frontmatter :=
      "---" +:+ nl +:+
      "title: " +:+ dquote +:+ py_str title +:+ dquote +:+ nl +:+
      "generated_at: " +:+ dquote +:+ now +:+ dquote +:+ nl +:+
      "update_time: " +:+ py_str update_time +:+ nl +:+
      "source: " +:+ dquote +:+
        "https://developer.work.weixin.qq.com/document/path/" +:+
        py_str category_id +:+ dquote +:+ nl +:+
      "---" +:+ nl +:+ nl in
    match markdown_content with
    | VStr body => Ok (frontmatter +:+ body)
    | VInt _ => Err TypeError
    end.

(** The text of a header, as [extract_update_time_from_mdx] reads it out of
    the content of a file. *)
Definition parse_update_time (content : string) : option Z :=
  match re_search frontmatter_pattern content with
  | Some (Some g) => py_int g
  | _ => None
  end.

(** ** Paths *)

(** A [Path] is the list of its parts.  A cleaned component holds no
    separator, so [pathlib] reads it as one part, and leaves out an empty
    component and a single dot. *)
Definition path_parts (component : string) : list string :=
  if bool_decide (component = "" ∨ component = ".") then [] else [component].

Definition clean (component : string) : string := strip (re_sub_special component).

(** [generate_file_path]: the output directory, then the cleaned components,
    then the cleaned title with the suffix of an artifact. *)
Definition generate_file_path (output_dir : list string)
    (category_path : list string) (title : string) : list string :=
  let clean_path := clean <$> category_path in
  let clean_title := clean title in
  output_dir ++ concat (path_parts <$> clean_path) ++ [clean_title +:+ ".mdx"].

(** What the operating system makes of the parts of a relative path: a part
    [..] leaves the directory reached so far.  [seen] holds the parts kept,
    last first. *)
Fixpoint resolve_onto (seen : list string) (parts : list string) : list string :=
  match parts with
  | [] => rev seen
  | p :: ps =>
      if bool_decide (p = "..") then
        match seen with
        | d :: seen' =>
            if bool_decide (d = "..") then resolve_onto (p :: seen) ps
            else resolve_onto seen' ps
        | [] => resolve_onto [p] ps
        end
      else resolve_onto (p :: seen) ps
  end.

Definition resolve (parts : list string) : list string := resolve_onto [] parts.

(** The file a path names lies in the directory [root] or below it. *)
Definition inside (root path : list string) : Prop :=
  resolve root `prefix_of` resolve path.

#[global] Instance inside_dec root path : Decision (inside root path).
Proof. unfold inside. apply _. Defined.

(** ** Files, the remote source and the state of a run *)

(** A regular file: text, or bytes that are no UTF-8 text. *)
Inductive file :=
| Text (s : string)
| Undecodable.

(** Reading in text mode turns each [\r\n] and each lone [\r] into [\n]:
    a [\r] is read as [\n], and a [\n] right after a [\r] is left out. *)
Fixpoint translate_newlines (after_cr : bool) (s : string) : string :=
  match s with
  | "" => ""
  | String c s' =>
      if Ascii.eqb c "013" then String "010" (translate_newlines true s')
      else if Ascii.eqb c "010" && after_cr then translate_newlines false s'
      else String c (translate_newlines false s')
  end.

Definition universal_newlines (s : string) : string := translate_newlines false s.

(** [f.read()] of a file opened with [encoding='utf-8']; [None] stands for the
    error raised. *)
Definition read (f : file) : option string :=
  match f with
  | Text s => Some (universal_newlines s)
  | Undecodable => None
  end.

(** The bytes of a character in UTF-8: one below 128, two from there up to
    255. *)
Definition utf8_width (c : ascii) : nat :=
  if (N_of_ascii c <? 128)%N then 1 else 2.


(** The file that holds the first [n] bytes of the text [s]: a text, or no
    text when the bytes end within a character. *)
Fixpoint cut_text (n : nat) (s : string) : file :=
  match s with
  | "" => Text ""
  | String c s' =>
      if n =? 0 then Text ""
      else if n <? utf8_width c then Undecodable
      else
        match cut_text (n - utf8_width c) s' with
        | Text t => Text (String c t)
        | Undecodable => Undecodable
        end
  end.

Abbreviation files := (gmap (list string) file).

Definition exists_path (fs : files) (file_path : list string) : bool :=
  bool_decide (is_Some (fs !! resolve file_path)).

(** [extract_update_time_from_mdx]: every error ends in [None]. *)
Definition extract_update_time_from_mdx (fs : files) (file_path : list string)
  : option Z :=
  match fs !! resolve file_path with
  | Some f =>
      match read f with
      | Some content => parse_update_time content
      | None => None
      end
  | None => None
  end.

(** What [fetch_document_content] gets for a document id: an error (network,
    HTTP status, no JSON), or a JSON object with what it holds under ['data'],
    if anything.  The random number of the request plays no part. *)
Inductive response :=
| Raises
| Json (data : option dict).

Inductive event :=
| EvFetch (doc_id : string)
| EvWrite (file_path : list string) (content : string)
| EvWriteFailed (file_path : list string)
| EvSleep.

(** The surroundings of a run: where it writes, the remote source, the local
    time (by the number of events so far) and whether the file system takes
    a write (directories that cannot be made, rights, room).  For a write
    it does not take, [cut_short] tells how far the write got: [None] when
    it failed before the file was open (the directory could not be made,
    [open] was refused), and the number of bytes that reached the file when
    it failed after [open] had emptied it. *)
Record env := {
  output_dir : list string;
  remote : string → response;
  clock : nat → struct_time;
  can_write : files → list string → bool;
  cut_short : files → list string → option nat;
}.

Record state := {
  fs : files;
  trace : list event;
}.

Definition log (e : event) (st : state) : state :=
  {| fs := fs st; trace := trace st ++ [e] |}.

(** Code that reads and changes the state and may raise. *)
Definition M (A : Type) : Type := state → state * result A.

Definition ret {A} (a : A) : M A := fun st => (st, Ok a).
Definition raise {A} (e : exn) : M A := fun st => (st, Err e).
Definition lift {A} (r : result A) : M A := fun st => (st, r).
Definition bindM {A B} (m : M A) (k : A → M B) : M B :=
  fun st =>
    match m st with
    | (st', Ok a) => k a st'
    | (st', Err e) => (st', Err e)
    end.

Notation "'run' x <- m ; k" := (bindM m (fun x => k))
  (at level 10, x name, m at level 100, k at level 200).
Notation "'exec' m ; k" := (bindM m (fun _ => k))
  (at level 10, m at level 100, k at level 200).

(** ** The traversal *)

Definition as_str (v : val) : result string :=
  match v with
  | VStr s => Ok s
  | VInt _ => Err TypeError
  end.

Fixpoint as_strs (vs : list val) : result (list string) :=
  match vs with
  | [] => Ok []
  | v :: vs' => do s <- as_str v; do ss <- as_strs vs'; Ok (s :: ss)
  end.

(** [a > b] and [a >= b] *)
Definition py_gt (a b : val) : result bool :=
  match a, b with
  | VInt x, VInt y => Ok (y <? x)%Z
  | VStr x, VStr y => Ok (String.ltb y x)
  | _, _ => Err TypeError
  end.

Definition py_ge (a b : val) : result bool :=
  match a, b with
  | VInt x, VInt y => Ok (y <=? x)%Z
  | VStr x, VStr y => Ok (String.leb y x)
  | _, _ => Err TypeError
  end.

(** [fetch_document_content]: the request is made, an error is raised again. *)
Definition fetch_document_content (E : env) (doc_id : string) : M (option dict) :=
  fun st =>
    match remote E doc_id with
    | Raises => (log (EvFetch doc_id) st, Err FetchError)
    | Json data => (log (EvFetch doc_id) st, Ok data)
    end.

(** [save_document]: an error is logged and the run goes on.  The file is
    opened with ['w'], which empties it: a write that fails after that
    leaves the bytes that reached the file (none of them when the text
    cannot be encoded) in place of what was there. *)
Definition save_document (E : env) (file_path : list string) (content : string)
  : M unit :=
  fun st =>
    if can_write E (fs st) file_path then
      ({| fs := <[resolve file_path := Text content]> (fs st);
          trace := trace st ++ [EvWrite file_path content] |}, Ok tt)
    else
      match cut_short E (fs st) file_path with
      | None => (log (EvWriteFailed file_path) st, Ok tt)
      | Some n =>
          ({| fs := <[resolve file_path := cut_text n content]> (fs st);
              trace := trace st ++ [EvWriteFailed file_path] |}, Ok tt)
      end.

Definition sleep : M unit := fun st => (log EvSleep st, Ok tt).

(** The test of [crawl_tree] whether a leaf is fetched. *)
Definition needs_update (fs : files) (file_path : list string)
    (update_time : val) : result bool :=
  if exists_path fs file_path then
    match extract_update_time_from_mdx fs file_path with
    | Some existing_update_time =>
        do ge <- py_ge (VInt existing_update_time) update_time;
        Ok (negb ge)
    | None => Ok true
    end
  else Ok true.

(** The branch of [crawl_tree] for a response with data: the artifact is
    composed and saved, then the run waits. *)
Definition save_artifact (E : env) (category : dict) (title : val)
    (file_path : list string) (update_time : val) (data : dict) : M unit :=
  let title' := get data "title" title in
  let content_md := get data "content_md" (VStr "") in
  run category_id <- lift (getitem category "category_id");
  run mdx_content <- (fun st =>
    (st, md_to_mdx (strftime (clock E (length (trace st)))) content_md title'
           category_id update_time));
  exec save_document E file_path mdx_content;
  sleep.

(** The part of the loop body of [crawl_tree] for a node with a document. *)
Definition crawl_leaf (E : env) (path : list val) (category : dict)
    (title : val) : M unit :=
  run category_path <- lift (as_strs path);
  run own_title <- lift (as_str title);
  let file_path := generate_file_path (output_dir E) category_path own_title in
  run doc_id <- lift (getitem category "doc_id");
  let update_time := get category "time" (VInt 0) in
  run stale <- (fun st => (st, needs_update (fs st) file_path update_time));
  if stale : bool then
    run doc_data <- fetch_document_content E (py_str doc_id);
    match doc_data with
    | Some data =>
        if bool_decide (data = ∅) then raise NoData
        else save_artifact E category title file_path update_time data
    | None => raise NoData
    end
  else ret tt.

Definition is_empty (tree : forest) : bool :=
  match tree with
  | FNil => true
  | FCons _ _ _ => false
  end.

(** The loop body of [crawl_tree] up to the recursive call: it gives
    [current_path]. *)
Definition crawl_node (E : env) (path : list val) (category : dict)
  : M (list val) :=
  run title <- lift (getitem category "title");
  let current_path := path ++ [title] in
  run is_leaf <- lift (py_gt (get category "doc_id" (VInt 0)) (VInt 0));
  exec (if is_leaf : bool then crawl_leaf E path category title else ret tt);
  ret current_path.

Fixpoint crawl_tree (E : env) (tree : forest) (path : list val) : M unit :=
  match tree with
  | FNil => ret tt
  | FCons node_id (Node category children) rest =>
      run current_path <- crawl_node E path category;
      exec (if is_empty children then ret tt
            else crawl_tree E children current_path);
      crawl_tree E rest path
  end.

(** ** Notions the properties are stated with *)

Fixpoint all_chars (p : ascii → bool) (s : string) : bool :=
  match s with
  | "" => true
  | String c s' => p c && all_chars p s'
  end.

(** [lit] is the beginning of [s]. *)
Fixpoint starts_with (lit s : string) : bool :=
  match lit with
  | "" => true
  | String c lit' =>
      match s with
      | String d s' => Ascii.eqb c d && starts_with lit' s'
      | "" => false
      end
  end.

(** [lit] is found somewhere in [s]. *)
Fixpoint occurs (lit s : string) : bool :=
  starts_with lit s ||
  match s with
  | String _ s' => occurs lit s'
  | "" => false
  end.

(** The text holds a header: at the start of a line three dashes, then
    further on the field [update_time:] with a number, then further on a
    line that starts with three dashes. *)
Definition has_header (content : string) : Prop :=
  ∃ before ws1 skipped ws2 digits skipped' after,
    content = before +:+ "---" +:+ ws1 +:+ nl +:+ skipped +:+ "update_time:"
              +:+ ws2 +:+ digits +:+ skipped' +:+ nl +:+ "---" +:+ after
    ∧ (before = "" ∨ ∃ b, before = b +:+ nl)
    ∧ all_chars is_space ws1 = true ∧ all_chars is_space ws2 = true
    ∧ digits ≠ "" ∧ all_chars is_digit digits = true.

(** The artifact has a header that can be read. *)
Definition artifact_header (f : file) : Prop :=
  match read f with
  | Some content => has_header content
  | None => False
  end.

(** The documents asked of the remote source, in order. *)
Definition fetched (evs : list event) : list string :=
  omap (λ ev, match ev with EvFetch d => Some d | _ => None end) evs.

Definition is_write_failure (ev : event) : bool :=
  match ev with
  | EvWriteFailed _ => true
  | _ => false
  end.

(** The content call for a document fails, or gives no usable payload. *)
Definition fetch_fails (E : env) (doc_id : string) : bool :=
  match remote E doc_id with
  | Raises => true
  | Json None => true
  | Json (Some data) => bool_decide (data = ∅)
  end.

Definition is_fetch_failure {A} (r : result A) : bool :=
  match r with
  | Err FetchError | Err NoData => true
  | _ => false
  end.

(** What a run adds to the trace: a fetch that fails is the last event, and
    then the run ends in the error of that fetch. *)
Definition run_sound {A} (E : env) (new : list event) (r : result A) : Prop :=
  if is_fetch_failure r then
    ∃ pre d, new = pre ++ [EvFetch d] ∧ fetch_fails E d = true
             ∧ Forall (λ d', fetch_fails E d' = false) (fetched pre)
  else Forall (λ d', fetch_fails E d' = false) (fetched new).

Definition steps {A} (E : env) (m : M A) : Prop :=
  ∀ st st' r, m st = (st', r) →
    ∃ new, trace st' = trace st ++ new ∧ run_sound E new r.

(** *** Freshness of a mirror *)

Definition title_of (cat : dict) : val := get cat "title" (VStr "").

(** The artifact of a leaf is on file, with an update time no older than the
    remote one. *)
Definition leaf_fresh (E : env) (fs : files) (path : list val) (cat : dict)
  : Prop :=
  ∃ category_path own_title L R,
    as_strs path = Ok category_path
    ∧ cat !! "title" = Some (VStr own_title)
    ∧ is_Some (cat !! "doc_id")
    ∧ extract_update_time_from_mdx fs
        (generate_file_path (output_dir E) category_path own_title) = Some L
    ∧ get cat "time" (VInt 0) = VInt R ∧ (R ≤ L)%Z.

Definition node_fresh (E : env) (fs : files) (path : list val) (cat : dict)
  : Prop :=
  ∃ title is_leaf,
    cat !! "title" = Some title
    ∧ py_gt (get cat "doc_id" (VInt 0)) (VInt 0) = Ok is_leaf
    ∧ (is_leaf = true → leaf_fresh E fs path cat).

Fixpoint uptodate (E : env) (fs : files) (tree : forest) (path : list val)
  : Prop :=
  match tree with
  | FNil => True
  | FCons _ (Node cat ch) rest =>
      node_fresh E fs path cat
      ∧ uptodate E fs ch (path ++ [title_of cat])
      ∧ uptodate E fs rest path
  end.

(** No artifact of [fs] has a later update time than it has in [fs']. *)
Definition no_older (fs fs' : files) : Prop :=
  ∀ p L, extract_update_time_from_mdx fs p = Some L →
    ∃ L', extract_update_time_from_mdx fs' p = Some L' ∧ (L ≤ L')%Z.

Definition plain_title (title : val) : Prop :=
  occurs "update_time:" (py_str title) = false.

(** A payload with a body, and a title that does not hold the name of the
    field the parser looks for. *)
Definition payload_ok (data : dict) : Prop :=
  truthy (get data "content_md" (VStr "")) = true
  ∧ ∀ t, data !! "title" = Some t → plain_title t.

Definition remote_ok (E : env) : Prop :=
  ∀ d data, remote E d = Json (Some data) → data ≠ ∅ → payload_ok data.

Definition timestamp_char (c : ascii) : bool :=
  is_digit c || bool_decide (c = "-" ∨ c = ":" ∨ c = " ")%char.

(** A record with a remote update time that is a non-negative integer and a
    plain title. *)
Definition cat_ok (cat : dict) : Prop :=
  (∃ R, get cat "time" (VInt 0) = VInt R ∧ (0 ≤ R)%Z)
  ∧ plain_title (title_of cat).

Fixpoint tree_forall (P : dict → Prop) (tree : forest) : Prop :=
  match tree with
  | FNil => True
  | FCons _ (Node cat ch) rest =>
      P cat ∧ tree_forall P ch ∧ tree_forall P rest
  end.

(** *** Where a record belongs *)

Definition cid (cat : dict) : val := get cat "category_id" (VInt 0).
Definition parent (cat : dict) : val := get cat "parent_id" (VInt 0).

(** The nodes of a tree: for each, the ids on the way from a root to its
    parent, its own id and its record. *)
Fixpoint nodes_at (position : list val) (tree : forest)
  : list (list val * val * dict) :=
  match tree with
  | FNil => []
  | FCons k (Node c ch) rest =>
      (position, k, c) :: nodes_at (position ++ [k]) ch ++ nodes_at position rest
  end.

Definition nodes (tree : forest) : list (list val * val * dict) :=
  nodes_at [] tree.

(** The ids of all nodes of a tree. *)
Fixpoint keys (tree : forest) : list val :=
  match tree with
  | FNil => []
  | FCons k (Node _ ch) rest => k :: keys ch ++ keys rest
  end.

(** The place of each record by its chain of parent ids: a root is at the
    top, any other record right under the place of its parent. *)
Fixpoint place (placed : list (list val * val * dict)) (cats : list dict)
  : list (list val * val * dict) :=
  match cats with
  | [] => placed
  | c :: cs =>
      if bool_decide (parent c = VInt 0) then
        place (placed ++ [([], cid c, c)]) cs
      else
        match list_find (λ x, x.1.2 = parent c) placed with
        | Some (_, (pos, k, _)) => place (placed ++ [(pos ++ [k], cid c, c)]) cs
        | None => place placed cs
        end
  end.

Definition positions (cats : list dict) : list (list val * val * dict) :=
  place [] cats.

(** Each place follows the chain of parent ids: a root is at the top, any
    other record right under the place of the record its [parent_id] names. *)
Definition chained (placed : list (list val * val * dict)) : Prop :=
  ∀ pos k c, (pos, k, c) ∈ placed →
    k = cid c
    ∧ ((parent c = VInt 0 ∧ pos = [])
       ∨ (parent c ≠ VInt 0
          ∧ ∃ pos' c', (pos', parent c, c') ∈ placed ∧ pos = pos' ++ [parent c])).

(** Every record that is no root comes after the record it names as parent. *)
Fixpoint parents_first (seen : list val) (cats : list dict) : Prop :=
  match cats with
  | [] => True
  | c :: cs =>
      (parent c = VInt 0 ∨ parent c ∈ seen) ∧ parents_first (seen ++ [cid c]) cs
  end.

(** Records as the source lists them: each with an [id] and a
    [category_id], no two with the same [category_id], parents first. *)
Definition well_formed (cats : list dict) : Prop :=
  Forall (λ c, is_Some (c !! "id") ∧ is_Some (c !! "category_id")) cats
  ∧ NoDup (cid <$> cats)
  ∧ parents_first [] cats.


(** The writes that failed so far. *)
Definition n_failures (st : state) : nat :=
  length (filter (λ ev, is_write_failure ev = true) (trace st)).

(** *** Scanning a text *)

(** No occurrence of [lit] in the text [a +:+ b] starts within [a]. *)
Fixpoint clear_of (lit a b : string) : bool :=
  match a with
  | "" => true
  | String c a' => negb (starts_with lit (a +:+ b)) && clear_of lit a' b
  end.

(** The first character of [s], if any, is not in the class [p]. *)
Definition head_not (p : ascii → bool) (s : string) : bool :=
  match s with
  | "" => true
  | String c _ => negb (p c)
  end.

(** Whether the text read so far ends in [\r]. *)
Fixpoint cr_after (after_cr : bool) (s : string) : bool :=
  match s with
  | "" => after_cr
  | String c s' => cr_after (Ascii.eqb c "013") s'
  end.

Definition no_line_break (c : ascii) : bool :=
  negb (Ascii.eqb c "013") && negb (Ascii.eqb c "010").

(** ** A small corpus *)

Definition record (items : list (string * val)) : dict := list_to_map items.

(** The two records of the scenario, with the keys the specification lists... *)
Definition api_listed : dict :=
  record [("category_id", VInt 1); ("parent_id", VInt 0);
          ("title", VStr "API"); ("doc_id", VInt 0)].

Definition auth_listed : dict :=
  record [("category_id", VInt 2); ("parent_id", VInt 1);
          ("title", VStr "Auth"); ("doc_id", VInt 500);
          ("update_time", VInt 100)].

(** ... and with the keys the source gives them. *)
Definition api : dict :=
  record [("id", VInt 1); ("category_id", VInt 1); ("parent_id", VInt 0);
          ("title", VStr "API"); ("doc_id", VInt 0)].

Definition auth : dict :=
  record [("id", VInt 2); ("category_id", VInt 2); ("parent_id", VInt 1);
          ("title", VStr "Auth"); ("doc_id", VInt 500); ("time", VInt 100)].

(** The same leaf with an early remote update time. *)
Definition auth_early : dict :=
  record [("id", VInt 2); ("category_id", VInt 2); ("parent_id", VInt 1);
          ("title", VStr "Auth"); ("doc_id", VInt 500); ("time", VInt 3)].

Definition sample_tree : forest :=
  FCons (VInt 1) (Node api (FCons (VInt 2) (Node auth FNil) FNil)) FNil.

Definition early_tree : forest :=
  FCons (VInt 1) (Node api (FCons (VInt 2) (Node auth_early FNil) FNil)) FNil.

Definition payload (title body : string) : dict :=
  record [("title", VStr title); ("content_md", VStr body)].

(** A remote source that has document 500 only, and a file system that takes
    every write. *)
Definition sample_env (data : dict) : env :=
  {| output_dir := ["docs"];
     remote := λ d, if bool_decide (d = "500") then Json (Some data) else Raises;
     clock := λ _, {| tm_year := 2024; tm_mon := 1; tm_mday := 1;
                      tm_hour := 0; tm_min := 0; tm_sec := 0 |};
     can_write := λ _ _, true;
     cut_short := λ _ _, None |}.

Definition empty_state : state := {| fs := ∅; trace := [] |}.

Definition auth_path : list string := ["docs"; "API"; "Auth.mdx"].

(** The state after a first run over the corpus, against a remote source
    that gives the document a body. *)
Definition mirrored_state : state :=
  (crawl_tree (sample_env (payload "Auth" "body")) sample_tree [] empty_state).1.

(** A file of notes: no header at its start, and a block between dashes
    further down. *)
Definition notes_text : string :=
  "# Notes" +:+ nl +:+ nl +:+ "kept by hand" +:+ nl
  +:+ "---" +:+ nl +:+ "update_time: 5" +:+ nl +:+ "---" +:+ nl.

Definition notes_state : state :=
  {| fs := {[ auth_path := Text notes_text ]}; trace := [] |}.

(** A header whose update time is no number, and the file that has, after
    this header, a line with an update time and a line of dashes. *)
Definition malformed_header : string :=
  "---" +:+ nl +:+ "title: " +:+ dquote +:+ "Auth" +:+ dquote +:+ nl
  +:+ "update_time: abc" +:+ nl +:+ "---" +:+ nl.

Definition malformed_text : string :=
  malformed_header +:+ nl +:+ "notes" +:+ nl +:+ "update_time: 7" +:+ nl
  +:+ "---" +:+ nl.

Definition malformed_state : state :=
  {| fs := {[ auth_path := Text malformed_text ]}; trace := [] |}.

(** A title that holds a line break and a header of its own. *)
Definition header_title : string :=
  "x" +:+ nl +:+ "---" +:+ nl +:+ "update_time: 5" +:+ nl +:+ "---".

(** ** Further notions *)

(** What holds of a node of a tree under construction: its record is one of
    the list, it sits under the key of its [category_id], at the top when
    its parent id is 0 and else under a node with its parent id. *)
Definition node_of_list (cats : list dict) (x : list val * val * dict) : Prop :=
  x.2 ∈ cats ∧ x.2 !! "category_id" = Some x.1.2
  ∧ (parent x.2 = VInt 0 ∧ x.1.1 = []
     ∨ parent x.2 ≠ VInt 0 ∧ ∃ pos', x.1.1 = pos' ++ [parent x.2]).

(** A record whose parent id names no record. *)
Definition stray : dict :=
  record [("id", VInt 3); ("category_id", VInt 3); ("parent_id", VInt 7);
          ("title", VStr "Stray"); ("doc_id", VInt 0)].

(** A character that [clean] takes away when nothing else is around it. *)
Definition blank (c : ascii) : bool := special c || is_space c.

(** The character before the position reached when [a] has been read, [prev]
    being the one before [a]. *)
Fixpoint last_char (prev : option ascii) (a : string) : option ascii :=
  match a with
  | "" => prev
  | String c a' => last_char (Some c) a'
  end.

(** *** What a node adds to a run *)

(** The node is a leaf: its document has the id [n], and its artifact goes
    to [file_path]. *)
Definition leaf_of (E : env) (path : list val) (cat : dict) (n : Z)
    (title : val) (file_path : list string) : Prop :=
  cat !! "title" = Some title
  ∧ cat !! "doc_id" = Some (VInt n) ∧ (0 < n)%Z
  ∧ ∃ category_path own_title,
      as_strs path = Ok category_path ∧ title = VStr own_title
      ∧ file_path = generate_file_path (output_dir E) category_path own_title.

(** The events of a document that is fetched and saved, or fetched and not
    saved because the write fails. *)
Definition saved (doc_id : string) (file_path : list string) (content : string)
  : list event :=
  [EvFetch doc_id; EvWrite file_path content; EvSleep].

Definition not_saved (doc_id : string) (file_path : list string) : list event :=
  [EvFetch doc_id; EvWriteFailed file_path; EvSleep].

Definition err_of {A} (r : result A) : option exn :=
  match r with
  | Ok _ => None
  | Err e => Some e
  end.

(** The events are those of documents fetched one after the other, each
    with its write, done or failed, and the delay after it. *)
Fixpoint rounds (evs : list event) : bool :=
  match evs with
  | [] => true
  | EvFetch _ :: EvWrite _ _ :: EvSleep :: rest => rounds rest
  | EvFetch _ :: EvWriteFailed _ :: EvSleep :: rest => rounds rest
  | _ => false
  end.

(** The document id of a record that is a leaf, as the text asked of the
    remote source. *)
Definition leaf_id (cat : dict) : list string :=
  match get cat "doc_id" (VInt 0) with
  | VInt n => if (0 <? n)%Z then [py_str (VInt n)] else []
  | VStr _ => []
  end.

(** The path of the artifact of a record that is a leaf, below the nodes
    with the titles [path]. *)
Definition leaf_path (E : env) (path : list val) (cat : dict)
  : list (list string) :=
  match leaf_id cat, as_strs path, cat !! "title" with
  | _ :: _, Ok category_path, Some (VStr own_title) =>
      [generate_file_path (output_dir E) category_path own_title]
  | _, _, _ => []
  end.

(** What [g] gives for the nodes of a tree, in the order of the traversal:
    a node, then what is below it, then the nodes after it; [path] holds
    the titles on the way to the node. *)
Fixpoint leaves {A} (g : list val → dict → list A) (tree : forest)
    (path : list val) : list A :=
  match tree with
  | FNil => []
  | FCons _ (Node cat ch) rest =>
      g path cat ++ leaves g ch (path ++ [title_of cat]) ++ leaves g rest path
  end.

(** The paths of the writes of a run, done or failed, in order. *)
Definition written (evs : list event) : list (list string) :=
  omap (λ ev, match ev with
              | EvWrite p _ | EvWriteFailed p => Some p
              | _ => None
              end) evs.

(** A record with the values the traversal can work with: a text as title,
    integers as document id and update time where it has them, and the key
    [category_id]; and, when the record is a leaf, a remote source that
    answers the request for its document with a payload whose body, when it
    has one, is a text. *)
Definition served (E : env) (cat : dict) : Prop :=
  (∃ s, cat !! "title" = Some (VStr s))
  ∧ (∃ n, get cat "doc_id" (VInt 0) = VInt n)
  ∧ (∃ t, get cat "time" (VInt 0) = VInt t)
  ∧ is_Some (cat !! "category_id")
  ∧ ∀ n, cat !! "doc_id" = Some (VInt n) → (0 < n)%Z →
      ∃ data, remote E (py_str (VInt n)) = Json (Some data) ∧ data ≠ ∅
              ∧ ∃ body, get data "content_md" (VStr "") = VStr body.

(** ** The listing page *)

(** A JSON value as [json.loads] gives it.  Of a number that is no integer
    and of [true], [false] and [null] the crawler looks at the truth value
    only. *)
#[warnings="-register-all"] Inductive json :=
| JObject (items : gmap string json)
| JArray (items : list json)
| JInt (z : Z)
| JStr (s : string)
| JOther (truth : bool).

(** The errors of [extract_categories_from_page] that it does not catch: of
    [str.index] and of [.get] on a value that is no object. *)
Inductive page_exn :=
| ValueError
| AttributeError.

Inductive outcome :=
| Returned (categories : option json)
| Raised (e : page_exn).

(** [fetch_page]: the text of the page, and [None] after any error;
    [web] is what a request for the address gives. *)
Definition fetch_page (web : string → option string) (url : string)
  : option string :=
  web url.

Section Capture.
Context {R : Type}.

(** Lazy [(c*?)], the text read so far in [acc]. *)
Fixpoint lazy_capture (p : ascii → bool) (k : string → @cont R)
    (acc : string) (prev : option ascii) (s : string) : option R :=
  match k acc prev s with
  | Some r => Some r
  | None =>
      match s with
      | String c s' =>
          if p c then lazy_capture p k (acc +:+ String c "") (Some c) s'
          else None
      | "" => None
      end
  end.

(** The first position, from the left, where [here] matches. *)
Fixpoint search_with (here : @cont R) (prev : option ascii) (s : string)
  : option R :=
  match here prev s with
  | Some r => Some r
  | None =>
      match s with
      | String c s' => search_with here (Some c) s'
      | "" => None
      end
  end.
End Capture.

(** A match of [r'window\.settings\s*=\s*({.*?});'] with [re.DOTALL] that
    starts at the current position; the result is group 1. *)
Definition settings_here : @cont string :=
  λ prev s,
    match read_lit "window.settings" prev s with
    | Some (prev, s) =>
        star_greedy is_space (λ prev s,
          match read_lit "=" prev s with
          | Some (prev, s) =>
              star_greedy is_space (λ prev s,
                match read_lit "{" prev s with
                | Some (prev, s) =>
                    lazy_capture any_char (λ g prev s,
                      match read_lit "};" prev s with
                      | Some _ => Some ("{" +:+ g +:+ "}")
                      | None => None
                      end) "" prev s
                | None => None
                end) prev s
          | None => None
          end) prev s
    | None => None
    end.

(** [s[0:s.index(sub)]]; [None] stands for the [ValueError] of [index]. *)
Fixpoint before_first (sub s : string) : option string :=
  if starts_with sub s then Some ""
  else
    match s with
    | String c s' => String c <$> before_first sub s'
    | "" => None
    end.

(** [extract_categories_from_page]; [loads] is [json.loads], with [None]
    for [json.JSONDecodeError]. *)
Definition extract_categories_from_page (web : string → option string)
    (loads : string → option json) (url : string) : outcome :=
  match fetch_page web url with
  | None => Returned None
  | Some content =>
      if bool_decide (content = "") then Returned None
      else
        match search_with settings_here None content with
        | None => Returned None
        | Some settings_str =>
            match before_first "</script>" settings_str with
            | None => Raised ValueError
            | Some settings_str =>
                match loads settings_str with
                | None => Returned None
                | Some (JObject settings) =>
                    Returned (Some (default (JArray []) (settings !! "categories")))
                | Some _ => Raised AttributeError
                end
            end
        end
  end.

(** The text holds what the pattern of the settings describes: the name,
    the equals sign and a brace, with whitespace between them, and further
    on a closing brace with a semicolon. *)
Definition has_settings (content : string) : Prop :=
  ∃ before ws1 ws2 inner after,
    content = before +:+ "window.settings" +:+ ws1 +:+ "=" +:+ ws2 +:+ "{"
              +:+ inner +:+ "};" +:+ after
    ∧ all_chars is_space ws1 = true ∧ all_chars is_space ws2 = true.

(** ** The whole run *)

(** Truth value of a decoded JSON value. *)
Definition json_truthy (j : json) : bool :=
  match j with
  | JObject items => negb (bool_decide (map_to_list items = []))
  | JArray items => negb (bool_decide (length items = 0))
  | JInt z => negb (z =? 0)%Z
  | JStr s => negb (bool_decide (s = ""))
  | JOther truth => truth
  end.

(** The records this development follows hold integers and texts. *)
Definition as_val (j : json) : option val :=
  match j with
  | JInt z => Some (VInt z)
  | JStr s => Some (VStr s)
  | _ => None
  end.

Definition as_record (j : json) : option dict :=
  match j with
  | JObject items =>
      if bool_decide (map_Forall (λ _ v, is_Some (as_val v)) items)
      then Some (omap as_val items) else None
  | _ => None
  end.

(** What [run] raises: the error of [mkdir], an error of the page, an error
    of the builder or of the traversal. *)
Inductive run_exn :=
| OSError
| PageError (e : page_exn)
| CrawlerError (e : exn).

(** How [run] ends.  A listing that is a list, but not one of records of
    integers and texts, is beyond what is followed here. *)
Inductive run_end :=
| Done
| Failed (e : run_exn)
| Beyond.

(** [run]; [mkdir] tells whether the output directory is there or can be
    made. *)
Definition run_crawler (E : env) (base_url : string)
    (web : string → option string) (loads : string → option json)
    (mkdir : bool) (st : state) : state * run_end :=
  if negb mkdir then (st, Failed OSError)
  else
    let main_url := base_url +:+ "/document/path/90195" in
    match extract_categories_from_page web loads main_url with
    | Raised e => (st, Failed (PageError e))
    | Returned None => (st, Done)
    | Returned (Some categories) =>
        if negb (json_truthy categories) then (st, Done)
        else
          match categories with
          | JArray items =>
              match mapM as_record items with
              | Some cats =>
                  match build_category_tree cats with
                  | Ok tree =>
                      match crawl_tree E tree [] st with
                      | (st', Ok _) => (st', Done)
                      | (st', Err e) => (st', Failed (CrawlerError e))
                      end
                  | Err e => (st, Failed (CrawlerError e))
                  end
              | None => (st, Beyond)
              end
          | _ => (st, Failed (CrawlerError TypeError))
          end
    end.

(** A page with settings, and the object a decoder makes of them: the
    listing of the two records of the corpus. *)
Definition sample_page : string :=
  "<script>window.settings = {}</script><script>a={};</script>".

Definition sample_listing : list json :=
  [JObject (list_to_map
     [("id", JInt 1); ("category_id", JInt 1); ("parent_id", JInt 0);
      ("title", JStr "API"); ("doc_id", JInt 0)]);
   JObject (list_to_map
     [("id", JInt 2); ("category_id", JInt 2); ("parent_id", JInt 1);
      ("title", JStr "Auth"); ("doc_id", JInt 500); ("time", JInt 100)])].

Definition sample_settings : json :=
  JObject {[ "categories" := JArray sample_listing ]}.

(** The leaf of the corpus with its update time as a text. *)
Definition auth_text_time : dict :=
  record [("id", VInt 2); ("category_id", VInt 2); ("parent_id", VInt 1);
          ("title", VStr "Auth"); ("doc_id", VInt 500); ("time", VStr "100")].



(** The same remote source, and a file system that takes no write. *)
Definition read_only_env (data : dict) : env :=
  {| output_dir := ["docs"];
     remote := remote (sample_env data);
     clock := clock (sample_env data);
     can_write := λ _ _, false;
     cut_short := λ _ _, None |}.

(** * Properties *)

(** ** The tree builder and the key [id] *)

Lemma cat_map_missing_id categories acc :
  (∃ cat, cat ∈ categories ∧ cat !! "id" = None) →
  cat_map categories acc = Err (KeyError "id").
Proof.
  revert acc. induction categories as [|c cs IH]; intros acc [cat [Hin Hid]].
  - by apply elem_of_nil in Hin.
  - simpl. unfold getitem. destruct (c !! "id") as [k|] eqn:Hk; [|done].
    simpl. apply IH. apply elem_of_cons in Hin as [->|Hin]; [congruence|eauto].
Qed.

Lemma cat_map_all_ids categories acc :
  (∀ cat, cat ∈ categories → is_Some (cat !! "id")) →
  ∃ m, cat_map categories acc = Ok m.
Proof.
  revert acc. induction categories as [|c cs IH]; intros acc Hall; simpl; [eauto|].
  destruct (Hall c) as [k Hk]; [left|].
  unfold getitem. rewrite Hk. simpl. apply IH. intros cat Hin. apply Hall. by right.
Qed.

(** ** The trace of a run *)

Lemma fetched_app evs evs' : fetched (evs ++ evs') = fetched evs ++ fetched evs'.
Proof. unfold fetched. apply omap_app. Qed.

Lemma steps_ret {A} E (a : A) : steps E (ret a).
Proof.
  intros st st' r [= <- <-]. exists []. split; [by rewrite app_nil_r|].
  unfold run_sound. simpl. constructor.
Qed.

Lemma steps_lift {A} E (r : result A) :
  is_fetch_failure r = false → steps E (lift r).
Proof.
  intros Hr st st' r' [= <- <-]. exists []. split; [by rewrite app_nil_r|].
  unfold run_sound. rewrite Hr. constructor.
Qed.

Lemma steps_bind {A B} E (m : M A) (k : A → M B) :
  steps E m → (∀ a, steps E (k a)) → steps E (bindM m k).
Proof.
  intros Hm Hk st st' r. unfold bindM.
  destruct (m st) as [st1 [a|e]] eqn:Em; intros Hrun.
  - destruct (Hm _ _ _ Em) as (new1 & Ht1 & Hs1).
    destruct (Hk a _ _ _ Hrun) as (new2 & Ht2 & Hs2).
    exists (new1 ++ new2). split; [by rewrite Ht2, Ht1, app_assoc|].
    unfold run_sound in *. simpl in Hs1.
    destruct (is_fetch_failure r).
    + destruct Hs2 as (pre & d & -> & Hd & Hpre).
      exists (new1 ++ pre), d. split; [by rewrite app_assoc|]. split; [done|].
      rewrite fetched_app. by apply Forall_app.
    + rewrite fetched_app. by apply Forall_app.
  - injection Hrun as <- <-.
    destruct (Hm _ _ _ Em) as (new1 & Ht1 & Hs1). eauto.
Qed.

Lemma getitem_no_fetch_failure d key : is_fetch_failure (getitem d key) = false.
Proof. unfold getitem. by destruct (d !! key). Qed.

Lemma as_str_no_fetch_failure v : is_fetch_failure (as_str v) = false.
Proof. by destruct v. Qed.

Lemma as_strs_no_fetch_failure vs : is_fetch_failure (as_strs vs) = false.
Proof.
  induction vs as [|v vs IH]; [done|]. simpl.
  destruct v; [done|]. simpl. by destruct (as_strs vs).
Qed.

Lemma py_gt_no_fetch_failure a b : is_fetch_failure (py_gt a b) = false.
Proof. by destruct a, b. Qed.

Lemma py_ge_no_fetch_failure a b : is_fetch_failure (py_ge a b) = false.
Proof. by destruct a, b. Qed.

Lemma needs_update_no_fetch_failure fs p t :
  is_fetch_failure (needs_update fs p t) = false.
Proof.
  unfold needs_update. destruct (exists_path fs p); [|done].
  destruct (extract_update_time_from_mdx fs p); [|done].
  by destruct t.
Qed.

Lemma md_to_mdx_no_fetch_failure now c t i u :
  is_fetch_failure (md_to_mdx now c t i u) = false.
Proof. unfold md_to_mdx. destruct (negb (truthy c)); [done|]. by destruct c. Qed.

Lemma steps_read {A} E (f : state → result A) :
  (∀ st, is_fetch_failure (f st) = false) → steps E (λ st, (st, f st)).
Proof.
  intros Hf st st' r [= <- <-]. exists []. split; [by rewrite app_nil_r|].
  unfold run_sound. rewrite Hf. constructor.
Qed.

Lemma steps_save_document E p content : steps E (save_document E p content).
Proof.
  intros st st' r. unfold save_document.
  destruct (can_write E (fs st) p); [|destruct (cut_short E (fs st) p)];
    intros [= <- <-].
  - exists [EvWrite p content]. split; [done|]. unfold run_sound. simpl. constructor.
  - exists [EvWriteFailed p]. split; [done|]. unfold run_sound. simpl. constructor.
  - exists [EvWriteFailed p]. split; [done|]. unfold run_sound. simpl. constructor.
Qed.

Lemma steps_sleep E : steps E sleep.
Proof.
  intros st st' r [= <- <-]. exists [EvSleep]. split; [done|].
  unfold run_sound. simpl. constructor.
Qed.

Lemma steps_fetch (E : env) d (k : option dict → M unit) :
  (∀ data, remote E d = Json data → fetch_fails E d = false → steps E (k data)) →
  (∀ data, remote E d = Json data → fetch_fails E d = true → k data = raise NoData) →
  steps E (bindM (fetch_document_content E d) k).
Proof.
  intros Hok Hbad st st' r. unfold bindM, fetch_document_content.
  destruct (remote E d) as [|data] eqn:Hd.
  - intros [= <- <-]. exists [EvFetch d]. split; [done|].
    unfold run_sound. simpl. exists [], d. unfold fetch_fails. rewrite Hd.
    repeat split. constructor.
  - destruct (fetch_fails E d) eqn:Hf.
    + rewrite (Hbad data eq_refl eq_refl). intros [= <- <-].
      exists [EvFetch d]. split; [done|].
      unfold run_sound. simpl. exists [], d. repeat split; [done|constructor].
    + intros Hrun. destruct (Hok data eq_refl eq_refl _ _ _ Hrun) as (new & Ht & Hs).
      exists (EvFetch d :: new). split; [by rewrite Ht; simpl; rewrite <- app_assoc|].
      unfold run_sound in *. destruct (is_fetch_failure r).
      * destruct Hs as (pre & d' & -> & Hd' & Hpre).
        exists (EvFetch d :: pre), d'. repeat split; [done|].
        simpl. by constructor.
      * simpl. by constructor.
Qed.

Lemma steps_save_artifact E cat title p t data :
  steps E (save_artifact E cat title p t data).
Proof.
  unfold save_artifact.
  apply steps_bind; [apply steps_lift, getitem_no_fetch_failure|intros category_id].
  apply steps_bind;
    [apply steps_read; intros; apply md_to_mdx_no_fetch_failure|intros mdx].
  apply steps_bind; [apply steps_save_document|intros _; apply steps_sleep].
Qed.

Lemma steps_crawl_leaf E path cat title : steps E (crawl_leaf E path cat title).
Proof.
  unfold crawl_leaf.
  apply steps_bind; [apply steps_lift, as_strs_no_fetch_failure|intros cp].
  apply steps_bind; [apply steps_lift, as_str_no_fetch_failure|intros own].
  apply steps_bind; [apply steps_lift, getitem_no_fetch_failure|intros doc_id].
  apply steps_bind;
    [apply steps_read; intros; apply needs_update_no_fetch_failure|intros stale].
  destruct stale; [|apply steps_ret].
  apply steps_fetch.
  - intros data Hd Hf. unfold fetch_fails in Hf. rewrite Hd in Hf.
    destruct data as [data|]; [|done].
    rewrite Hf. apply steps_save_artifact.
  - intros data Hd Hf. unfold fetch_fails in Hf. rewrite Hd in Hf.
    destruct data as [data|]; [|done]. by rewrite Hf.
Qed.

Lemma steps_crawl_node E path cat : steps E (crawl_node E path cat).
Proof.
  unfold crawl_node.
  apply steps_bind; [apply steps_lift, getitem_no_fetch_failure|intros title].
  apply steps_bind; [apply steps_lift, py_gt_no_fetch_failure|intros is_leaf].
  apply steps_bind; [|intros _; apply steps_ret].
  destruct is_leaf; [apply steps_crawl_leaf|apply steps_ret].
Qed.

Lemma steps_crawl_tree E tree : ∀ path, steps E (crawl_tree E tree path).
Proof.
  induction tree as [cat ch IHch| |k n IHn rest IHrest]
    using forest_node_ind
    with (P := λ n, ∀ path, steps E (crawl_tree E (children n) path)).
  - done.
  - intros path. apply steps_ret.
  - intros path. destruct n as [cat ch]. simpl.
    apply steps_bind; [apply steps_crawl_node|intros cp].
    apply steps_bind; [|intros _; apply IHrest].
    destruct (is_empty ch); [apply steps_ret|apply IHn].
Qed.

Lemma crawl_leaf_fetches E path cat title cp own doc_id st :
  as_strs path = Ok cp → as_str title = Ok own →
  cat !! "doc_id" = Some doc_id →
  needs_update (fs st) (generate_file_path (output_dir E) cp own)
    (get cat "time" (VInt 0)) = Ok true →
  ∃ st' r rest, crawl_leaf E path cat title st = (st', r)
    ∧ trace st' = trace st ++ EvFetch (py_str doc_id) :: rest.
Proof.
  intros Hp Ht Hd Hn.
  unfold crawl_leaf. unfold bindM at 1, lift at 1. rewrite Hp.
  unfold bindM at 1, lift at 1. rewrite Ht.
  unfold bindM at 1, lift at 1, getitem at 1. rewrite Hd.
  unfold bindM at 1. rewrite Hn.
  unfold bindM at 1, fetch_document_content.
  destruct (remote E (py_str doc_id)) as [|[data|]]; [by eexists _, _, []| |by eexists _, _, []].
  destruct (bool_decide (data = ∅)); [by eexists _, _, []|].
  destruct (save_artifact E cat title _ _ data (log (EvFetch (py_str doc_id)) st))
    as [st' r] eqn:Hs.
  destruct (steps_save_artifact _ _ _ _ _ _ _ _ _ Hs) as (new & Hnew & _).
  exists st', r, new. split; [done|]. rewrite Hnew. simpl. by rewrite <- app_assoc.
Qed.

Lemma crawl_leaf_skips E path cat title cp own doc_id st :
  as_strs path = Ok cp → as_str title = Ok own →
  cat !! "doc_id" = Some doc_id →
  needs_update (fs st) (generate_file_path (output_dir E) cp own)
    (get cat "time" (VInt 0)) = Ok false →
  crawl_leaf E path cat title st = (st, Ok tt).
Proof.
  intros Hp Ht Hd Hn.
  unfold crawl_leaf. unfold bindM at 1, lift at 1. rewrite Hp.
  unfold bindM at 1, lift at 1. rewrite Ht.
  unfold bindM at 1, lift at 1, getitem at 1. rewrite Hd.
  unfold bindM at 1. by rewrite Hn.
Qed.

Lemma crawl_node_leaf E path cat own d st :
  cat !! "title" = Some (VStr own) →
  cat !! "doc_id" = Some (VInt d) → (0 < d)%Z →
  crawl_node E path cat st =
    match crawl_leaf E path cat (VStr own) st with
    | (st', Ok _) => (st', Ok (path ++ [VStr own]))
    | (st', Err e) => (st', Err e)
    end.
Proof.
  intros Ht Hd Hpos. unfold crawl_node.
  unfold bindM at 1, lift at 1, getitem at 1. rewrite Ht.
  unfold bindM at 1, lift at 1, get at 1. rewrite Hd. simpl.
  destruct (Z.ltb_spec 0 d) as [_|?]; [|lia].
  unfold bindM. by destruct (crawl_leaf E path cat (VStr own) st) as [st' [[]|e]].
Qed.

Lemma extract_exists fs p L :
  extract_update_time_from_mdx fs p = Some L → exists_path fs p = true.
Proof.
  unfold exists_path, extract_update_time_from_mdx.
  destruct (fs !! resolve p); [by intros; apply bool_decide_eq_true|done].
Qed.

(** ** Text *)

#[local] Arguments String.append : simpl nomatch.

Lemma sapp_nil_r (s : string) : s +:+ "" = s.
Proof. induction s as [|c s IH]; simpl; congruence. Qed.

Lemma sapp_assoc (a b c : string) : (a +:+ b) +:+ c = a +:+ b +:+ c.
Proof. induction a as [|x a IH]; simpl; congruence. Qed.

Lemma all_chars_app p a b :
  all_chars p (a +:+ b) = all_chars p a && all_chars p b.
Proof.
  induction a as [|x a IH]; simpl; [done|]. rewrite IH. by destruct (p x).
Qed.

Lemma all_chars_impl (p q : ascii → bool) s :
  (∀ c, p c = true → q c = true) → all_chars p s = true → all_chars q s = true.
Proof.
  intros Hpq. induction s as [|c s IH]; simpl; [done|].
  intros [Hc Hs]%andb_true_iff. rewrite (Hpq c Hc). simpl. auto.
Qed.

Lemma starts_with_refl l s : starts_with l (l +:+ s) = true.
Proof.
  induction l as [|c l IH]; simpl; [done|]. by rewrite Ascii.eqb_refl.
Qed.

Lemma starts_with_split l s : starts_with l s = true → ∃ s', s = l +:+ s'.
Proof.
  revert s. induction l as [|c l IH]; intros s; simpl; [by exists s|].
  destruct s as [|d s]; [done|].
  intros [Hc Hl]%andb_true_iff. apply Ascii.eqb_eq in Hc as ->.
  destruct (IH s Hl) as [s' ->]. by exists s'.
Qed.

Lemma occurs_here l s : occurs l (l +:+ s) = true.
Proof. destruct (l +:+ s) eqn:E; simpl; rewrite <- E, starts_with_refl; done. Qed.

Lemma occurs_app_r l a b : occurs l b = true → occurs l (a +:+ b) = true.
Proof.
  intros Hb. induction a as [|c a IH]; simpl; [done|].
  rewrite IH. apply orb_true_r.
Qed.

(** ** The matcher finds only what the pattern describes *)

Lemma read_lit_split l prev s prev' s' :
  read_lit l prev s = Some (prev', s') → s = l +:+ s'.
Proof.
  revert prev s. induction l as [|c l IH]; intros prev s; simpl.
  - by intros [= _ ->].
  - destruct s as [|d s]; [done|].
    destruct (Ascii.eqb_spec c d) as [->|]; [|done].
    intros H. by rewrite (IH _ _ H).
Qed.

Lemma read_lit_starts l prev s :
  starts_with l s = false → read_lit l prev s = None.
Proof.
  revert prev s. induction l as [|c l IH]; intros prev s; simpl; [done|].
  destruct s as [|d s]; [done|].
  destruct (Ascii.eqb c d); simpl; [apply IH|done].
Qed.

Lemma read_lit_refl l prev s : ∃ prev', read_lit l prev (l +:+ s) = Some (prev', s).
Proof.
  revert prev. induction l as [|c l IH]; intros prev; simpl; [eauto|].
  rewrite Ascii.eqb_refl. apply IH.
Qed.

Section Decompose.
Context {R : Type}.
Implicit Types (k : @cont R) (p : ascii → bool).

Lemma star_greedy_split p k prev s r :
  star_greedy p k prev s = Some r →
  ∃ a b prev', s = a +:+ b ∧ all_chars p a = true ∧ k prev' b = Some r.
Proof.
  revert prev. induction s as [|c s IH]; intros prev; simpl.
  - intros H. by exists "", "", prev.
  - destruct (p c) eqn:Hc.
    + destruct (star_greedy p k (Some c) s) as [r'|] eqn:Hrec.
      * intros [= ->]. destruct (IH _ Hrec) as (a & b & prev' & -> & Ha & Hk).
        exists (String c a), b, prev'. simpl. by rewrite Hc, Ha.
      * intros H. by exists "", (String c s), prev.
    + intros H. by exists "", (String c s), prev.
Qed.

Lemma star_lazy_split p k prev s r :
  star_lazy p k prev s = Some r →
  ∃ a b prev', s = a +:+ b ∧ all_chars p a = true ∧ k prev' b = Some r.
Proof.
  revert prev. induction s as [|c s IH]; intros prev; simpl.
  - destruct (k prev "") eqn:Hk; [|done]. intros [= ->]. by exists "", "", prev.
  - destruct (k prev (String c s)) eqn:Hk.
    + intros [= ->]. by exists "", (String c s), prev.
    + destruct (p c) eqn:Hc; [|done]. intros Hrec.
      destruct (IH _ Hrec) as (a & b & prev' & -> & Ha & Hk').
      exists (String c a), b, prev'. simpl. by rewrite Hc, Ha.
Qed.

Lemma plus_capture_split p (k : string → @cont R) acc prev s r :
  plus_capture p k acc prev s = Some r →
  ∃ a b prev', s = a +:+ b ∧ a ≠ "" ∧ all_chars p a = true
               ∧ k (acc +:+ a) prev' b = Some r.
Proof.
  revert acc prev. induction s as [|c s IH]; intros acc prev; simpl; [done|].
  destruct (p c) eqn:Hc; [|done].
  destruct (plus_capture p k (acc +:+ String c "") (Some c) s) as [r'|] eqn:Hrec.
  - intros [= ->]. destruct (IH _ _ Hrec) as (a & b & prev' & -> & _ & Ha & Hk).
    exists (String c a), b, prev'. simpl. rewrite Hc, Ha.
    rewrite sapp_assoc in Hk. done.
  - intros Hk. exists (String c ""), s, (Some c). simpl. by rewrite Hc.
Qed.
End Decompose.

Lemma search_from_split r prev s m :
  search_from r prev s = Some m →
  ∃ before after prev',
    s = before +:+ after ∧ match_here r None prev' after = Some m
    ∧ (before = "" ∧ prev' = prev ∨ ∃ b c, before = b +:+ String c "" ∧ prev' = Some c).
Proof.
  revert prev. induction s as [|c s IH]; intros prev; simpl.
  - destruct (match_here r None prev "") eqn:Hm; [|done].
    intros [= ->]. exists "", "", prev. auto.
  - destruct (match_here r None prev (String c s)) eqn:Hm.
    + intros [= ->]. exists "", (String c s), prev. auto.
    + intros Hrec. destruct (IH _ Hrec) as (before & after & prev' & -> & Hm' & Hb).
      exists (String c before), after, prev'. repeat split; [done|]. right.
      destruct Hb as [[-> ->]|(b & d & -> & ->)].
      * by exists "", c.
      * by exists (String c b), d.
Qed.



(** ** Skipping text in which the pattern cannot match *)

Lemma clear_of_app l a1 a2 b :
  clear_of l (a1 +:+ a2) b = clear_of l a1 (a2 +:+ b) && clear_of l a2 b.
Proof.
  induction a1 as [|c a1 IH]; simpl; [done|].
  rewrite IH, sapp_assoc. by rewrite andb_assoc.
Qed.


Lemma clear_of_first u l a b :
  all_chars (λ x, negb (Ascii.eqb u x)) a = true →
  clear_of (String u l) a b = true.
Proof.
  induction a as [|c a IH]; simpl; [done|].
  intros [Hc Ha]%andb_true_iff. apply negb_true_iff in Hc. rewrite Hc. simpl. auto.
Qed.

Lemma starts_with_app_inv l a c b :
  starts_with l (a +:+ String c b) = true →
  starts_with l a = true ∨ all_chars (λ x, negb (Ascii.eqb x c)) l = false.
Proof.
  revert a. induction l as [|x l IH]; intros a; simpl; [by left|].
  destruct a as [|d a]; simpl.
  - intros [Hx _]%andb_true_iff. right. by rewrite Hx.
  - intros [Hx Hl]%andb_true_iff. rewrite Hx. simpl.
    destruct (IH _ Hl) as [?|Hr]; [by left|right].
    rewrite Hr. apply andb_false_r.
Qed.

Lemma clear_of_not_occurs l a c b :
  occurs l a = false →
  all_chars (λ x, negb (Ascii.eqb x c)) l = true →
  clear_of l a (String c b) = true.
Proof.
  intros Ho Hl. induction a as [|d a IH]; [done|].
  simpl in Ho. apply orb_false_iff in Ho as [Hs Ho].
  cbn [clear_of]. rewrite (IH Ho), andb_true_r. apply negb_true_iff.
  destruct (starts_with l (String d a +:+ String c b)) eqn:E; [|done].
  apply starts_with_app_inv in E as [E|E]; congruence.
Qed.

Lemma read_lit_Some l prev s :
  starts_with l s = true → ∃ prev' s', read_lit l prev s = Some (prev', s').
Proof.
  intros [s' ->]%starts_with_split.
  destruct (read_lit_refl l prev s') as [prev' ->]. eauto.
Qed.

Section Steps.
Context {R : Type}.
Implicit Types (k : @cont R) (p : ascii → bool).

Lemma star_lazy_now p k prev s r :
  k prev s = Some r → star_lazy p k prev s = Some r.
Proof. intros H. destruct s; simpl; by rewrite H. Qed.

Lemma star_greedy_take p k prev a b r :
  all_chars p a = true → head_not p b = true →
  (∀ q, k q b = Some r) →
  star_greedy p k prev (a +:+ b) = Some r.
Proof.
  intros Ha Hb Hk. revert prev. induction a as [|c a IH]; intros prev; simpl.
  - destruct b as [|c b]; simpl; [done|].
    simpl in Hb. apply negb_true_iff in Hb. by rewrite Hb.
  - simpl in Ha. apply andb_true_iff in Ha as [Hc Ha]. by rewrite Hc, (IH Ha).
Qed.

Lemma plus_capture_take p (k : string → @cont R) acc prev a b r :
  a ≠ "" → all_chars p a = true → head_not p b = true →
  (∀ q, k (acc +:+ a) q b = Some r) →
  plus_capture p k acc prev (a +:+ b) = Some r.
Proof.
  revert acc prev. induction a as [|c a IH]; intros acc prev Hne Ha Hb Hk; [done|].
  simpl in Ha. apply andb_true_iff in Ha as [Hc Ha]. simpl. rewrite Hc.
  destruct a as [|d a].
  - simpl. destruct b as [|e b]; simpl; [done|].
    simpl in Hb. apply negb_true_iff in Hb. by rewrite Hb.
  - rewrite (IH (acc +:+ String c "") (Some c)); try done.
    intros q. rewrite sapp_assoc. apply Hk.
Qed.
End Steps.

Lemma lit_fails l r g prev s :
  starts_with l s = false → match_here (Lit l :: r) g prev s = None.
Proof. intros H. cbn [match_here]. by rewrite read_lit_starts. Qed.

Lemma star_lazy_clear l r g a b prev :
  clear_of l a b = true →
  ∃ prev', star_lazy any_char (match_here (Lit l :: r) g) prev (a +:+ b)
           = star_lazy any_char (match_here (Lit l :: r) g) prev' b.
Proof.
  revert prev. induction a as [|c a IH]; intros prev; [by exists prev|].
  intros [Hc Ha]%andb_true_iff. apply negb_true_iff in Hc.
  change (String c a +:+ b) with (String c (a +:+ b)) in *.
  cbn [star_lazy]. rewrite (lit_fails _ _ _ _ _ Hc). simpl. by apply IH.
Qed.

Lemma star_lazy_occurs l g prev s :
  occurs l s = true →
  star_lazy any_char (match_here [Lit l] g) prev s = Some g.
Proof.
  revert prev. induction s as [|c s IH]; intros prev Ho.
  - simpl in Ho. rewrite orb_false_r in Ho.
    apply star_lazy_now. cbn [match_here].
    by destruct (read_lit_Some l prev "" Ho) as (q & s' & ->).
  - destruct (starts_with l (String c s)) eqn:Hs.
    + apply star_lazy_now. cbn [match_here].
      by destruct (read_lit_Some l prev _ Hs) as (q & s' & ->).
    + cbn [star_lazy]. rewrite (lit_fails _ _ _ _ _ Hs). simpl.
      apply IH. simpl in Ho. rewrite Hs in Ho. done.
Qed.

(** ** Newlines *)

Lemma translate_newlines_plain f s :
  all_chars no_line_break s = true → translate_newlines f s = s.
Proof.
  revert f. induction s as [|c s IH]; intros f; simpl; [done|].
  unfold no_line_break at 1.
  intros [[Hr Hn]%andb_true_iff Hs]%andb_true_iff.
  apply negb_true_iff in Hr, Hn. rewrite Hr, Hn. simpl. by rewrite IH.
Qed.

Lemma translate_newlines_app f a b :
  translate_newlines f (a +:+ b) =
  translate_newlines f a +:+ translate_newlines (cr_after f a) b.
Proof.
  revert f. induction a as [|c a IH]; intros f; simpl; [done|].
  destruct (Ascii.eqb c "013") eqn:Hr; simpl; [by rewrite IH|].
  destruct (Ascii.eqb c "010" && f); simpl; by rewrite IH.
Qed.

Lemma starts_with_translated l s :
  all_chars no_line_break l = true →
  starts_with l (translate_newlines false s) = true → starts_with l s = true.
Proof.
  revert s. induction l as [|x l IH]; intros s; simpl; [done|].
  unfold no_line_break at 1.
  intros [[Hr Hn]%andb_true_iff Hl]%andb_true_iff.
  apply negb_true_iff in Hr, Hn.
  destruct s as [|c s]; simpl; [done|].
  destruct (Ascii.eqb_spec c "013") as [->|Hc]; simpl.
  { rewrite Hn. done. }
  rewrite andb_false_r.
  intros [Hx Hs]%andb_true_iff. rewrite Hx. simpl. by apply IH.
Qed.

Lemma starts_with_occurs l s : starts_with l s = true → occurs l s = true.
Proof. intros H. destruct s; simpl; by rewrite H. Qed.

Lemma occurs_tail l c s : occurs l s = true → occurs l (String c s) = true.
Proof. intros H. simpl. rewrite H. apply orb_true_r. Qed.

Lemma occurs_translated l f s :
  all_chars no_line_break l = true → l ≠ "" →
  occurs l (translate_newlines f s) = true → occurs l s = true.
Proof.
  intros Hl Hne. revert f. induction s as [|c s IH]; intros f.
  - simpl. destruct l; done.
  - assert (Hhead : ∀ t, starts_with l (String "010" t) = false).
    { intros t. destruct l as [|x l]; [done|]. simpl.
      simpl in Hl. apply andb_true_iff in Hl as [Hx _]. unfold no_line_break in Hx.
      apply andb_true_iff in Hx as [_ Hx]. apply negb_true_iff in Hx. by rewrite Hx. }
    intros H. cbn [translate_newlines] in H.
    destruct (Ascii.eqb_spec c "013") as [->|Hc].
    { cbn [occurs] in H. rewrite Hhead in H. apply occurs_tail. by eapply IH. }
    destruct (Ascii.eqb c "010" && f) eqn:Hskip.
    { apply occurs_tail. by eapply IH. }
    cbn [occurs] in H. apply orb_true_iff in H as [H|H].
    + apply starts_with_occurs. apply starts_with_translated; [done|].
      simpl. destruct (Ascii.eqb_spec c "013"); [done|]. by rewrite andb_false_r.
    + apply occurs_tail. by eapply IH.
Qed.

(** ** Numerals *)

Lemma string_of_uint_digits u : all_chars is_digit (NilEmpty.string_of_uint u) = true.
Proof. induction u; simpl; done. Qed.

Lemma string_of_uint_nonempty u : u ≠ Decimal.Nil → NilEmpty.string_of_uint u ≠ "".
Proof. by destruct u. Qed.

Lemma py_str_nonneg T :
  (0 ≤ T)%Z →
  ∃ u, py_str (VInt T) = NilEmpty.string_of_uint u ∧ u ≠ Decimal.Nil ∧ Z.of_uint u = T.
Proof.
  intros HT. pose proof (DecimalZ.of_to T) as Hof.
  destruct T as [|p|p]; [| |lia]; simpl in *.
  - by exists Decimal.zero.
  - exists (Pos.to_uint p). split; [done|]. split; [|done].
    apply DecimalPos.Unsigned.to_uint_nonnil.
Qed.

Lemma py_int_digits u :
  u ≠ Decimal.Nil → py_int (NilEmpty.string_of_uint u) = Some (Z.of_uint u).
Proof.
  intros Hu. unfold py_int.
  destruct (NilEmpty.string_of_uint u) eqn:E.
  - by apply string_of_uint_nonempty in E.
  - by rewrite <- E, NilEmpty.usu.
Qed.

Lemma digit_no_space c : is_digit c = true → is_space c = false.
Proof.
  unfold is_digit, is_space. intros [H1 H2]%andb_true_iff.
  apply N.leb_le in H1, H2.
  repeat (apply orb_false_iff; split); try apply andb_false_iff;
    try apply N.eqb_neq; try lia.
  - right. apply N.leb_gt. lia.
  - right. apply N.leb_gt. lia.
Qed.

Lemma digit_no_line_break c : is_digit c = true → no_line_break c = true.
Proof.
  unfold is_digit, no_line_break. intros [H1 H2]%andb_true_iff.
  apply N.leb_le in H1, H2.
  apply andb_true_iff; split; apply negb_true_iff, Ascii.eqb_neq; intros ->;
    simpl in *; lia.
Qed.

(** ** The header of an artifact is read back *)

Lemma match_here_lit l r g prev s :
  ∃ prev', match_here (Lit l :: r) g prev (l +:+ s) = match_here r g prev' s.
Proof.
  cbn [match_here]. destruct (read_lit_refl l prev s) as [prev' ->]. by exists prev'.
Qed.

Lemma search_from_now r prev s m :
  match_here r None prev s = Some m → search_from r prev s = Some m.
Proof. intros H. destruct s; simpl; by rewrite H. Qed.

Lemma parse_header_shape a d b :
  clear_of "update_time:" a ("update_time: " +:+ d +:+ nl +:+ b) = true →
  d ≠ "" → all_chars is_digit d = true →
  occurs (nl +:+ "---") (nl +:+ b) = true →
  parse_update_time
    ("---" +:+ nl +:+ "title: " +:+ a +:+ "update_time: " +:+ d +:+ nl +:+ b)
  = py_int d.
Proof.
  intros Ha Hne Hd Hb.
  set (r4 := [LazyStar any_char; Lit (nl +:+ "---")]).
  set (r3 := Group1Plus is_digit :: r4).
  set (r2 := Star is_space :: r3).
  set (r1 := Lit "update_time:" :: r2).
  set (r0 := LazyStar any_char :: r1).
  assert (E4 : ∀ q, match_here r4 (Some d) q (nl +:+ b) = Some (Some d)).
  { intros q. apply (star_lazy_occurs _ (Some d)), Hb. }
  assert (E3 : ∀ q, match_here r3 None q (d +:+ nl +:+ b) = Some (Some d)).
  { intros q. subst r3. cbn [match_here]. by apply plus_capture_take. }
  assert (E2 : ∀ q, match_here r2 None q (" " +:+ d +:+ nl +:+ b) = Some (Some d)).
  { intros q. subst r2. cbn [match_here].
    apply (star_greedy_take _ _ _ " "); [done| |done].
    destruct d as [|c d]; [done|]. simpl in *.
    apply andb_true_iff in Hd as [Hc _]. by rewrite (digit_no_space _ Hc). }
  assert (E1 : ∀ q, match_here r1 None q ("update_time: " +:+ d +:+ nl +:+ b)
                    = Some (Some d)).
  { intros q. subst r1.
    destruct (match_here_lit "update_time:" r2 None q (" " +:+ d +:+ nl +:+ b))
      as [q' Hq]. etransitivity; [exact Hq|apply E2]. }
  assert (E0 : ∀ q, match_here r0 None q
                      ("title: " +:+ a +:+ "update_time: " +:+ d +:+ nl +:+ b)
                    = Some (Some d)).
  { intros q.
    change (star_lazy any_char (match_here (Lit "update_time:" :: r2) None) q
              (("title: " +:+ a) +:+ "update_time: " +:+ d +:+ nl +:+ b)
            = Some (Some d)).
    destruct (star_lazy_clear "update_time:" r2 None ("title: " +:+ a)
                ("update_time: " +:+ d +:+ nl +:+ b) q) as [q' ->].
    - rewrite clear_of_app, Ha. reflexivity.
    - apply star_lazy_now, E1. }
  unfold parse_update_time, re_search.
  assert (Hm : match_here frontmatter_pattern None None
            ("---" +:+ nl +:+ "title: " +:+ a +:+ "update_time: " +:+ d +:+ nl +:+ b)
          = Some (Some d)).
  { change frontmatter_pattern
      with (Bol :: Lit "---" :: Star is_space :: Lit nl :: r0).
    cbn [match_here at_line_start].
    destruct (read_lit_refl "---" None
      (nl +:+ "title: " +:+ a +:+ "update_time: " +:+ d +:+ nl +:+ b)) as [q1 ->].
    set (rest := "itle: " +:+ a +:+ "update_time: " +:+ d +:+ nl +:+ b).
    change (nl +:+ "title: " +:+ a +:+ "update_time: " +:+ d +:+ nl +:+ b)
      with (String "010" (String "t" rest)).
    set (k := λ prev s, match read_lit nl prev s with
                        | Some (prev', s') => match_here r0 None prev' s'
                        | None => None
                        end).
    change (star_greedy is_space k q1 (String "010" (String "t" rest)) = Some (Some d)).
    change (star_greedy is_space k q1 (String "010" (String "t" rest)))
      with (match k (Some "010"%char) (String "t" rest) with
            | Some r => Some r
            | None => k q1 (String "010" (String "t" rest))
            end).
    change (k (Some "010"%char) (String "t" rest)) with (@None (option string)).
    change (k q1 (String "010" (String "t" rest)))
      with (match_here r0 None (Some "010"%char) (String "t" rest)).
    apply E0. }
  by rewrite (search_from_now _ _ _ _ Hm).
Qed.

Lemma translate_newlines_quote f s :
  translate_newlines f (dquote +:+ s) = dquote +:+ translate_newlines false s.
Proof. by destruct f. Qed.

Lemma timestamp_no_line_break c : timestamp_char c = true → no_line_break c = true.
Proof.
  unfold timestamp_char. intros [H|H]%orb_true_iff.
  - by apply digit_no_line_break.
  - apply bool_decide_eq_true in H. by destruct H as [->|[->| ->]].
Qed.

Lemma timestamp_no_u c : timestamp_char c = true → negb (Ascii.eqb "u" c) = true.
Proof.
  unfold timestamp_char. intros [H|H]%orb_true_iff.
  - apply negb_true_iff, Ascii.eqb_neq. intros <-. done.
  - apply bool_decide_eq_true in H. by destruct H as [->|[->| ->]].
Qed.

Lemma cr_after_plain s : all_chars no_line_break s = true → cr_after false s = false.
Proof.
  assert (∀ f, all_chars no_line_break s = true → cr_after f s = if s is "" then f else false) as H.
  { induction s as [|c s IH]; intros f; simpl; [done|].
    intros [Hc Hs]%andb_true_iff. rewrite (IH _ Hs).
    destruct s; [|done]. unfold no_line_break in Hc.
    apply andb_true_iff in Hc as [Hc _]. by apply negb_true_iff in Hc. }
  intros Hs. rewrite (H _ Hs). by destruct s.
Qed.

Lemma decimal_timestamp n : all_chars timestamp_char (decimal n) = true.
Proof.
  unfold decimal. eapply all_chars_impl; [|apply string_of_uint_digits].
  intros c Hc. unfold timestamp_char. by rewrite Hc.
Qed.

Lemma pad2_timestamp n : all_chars timestamp_char (pad2 n) = true.
Proof.
  unfold pad2. destruct (n <? 10); rewrite ?all_chars_app, decimal_timestamp; done.
Qed.

Lemma pad4_timestamp n : all_chars timestamp_char (pad4 n) = true.
Proof.
  unfold pad4.
  destruct (n <? 10); [|destruct (n <? 100); [|destruct (n <? 1000)]];
    rewrite ?all_chars_app, decimal_timestamp; done.
Qed.

Lemma strftime_timestamp t : all_chars timestamp_char (strftime t) = true.
Proof.
  unfold strftime.
  rewrite !all_chars_app, pad4_timestamp, !pad2_timestamp. reflexivity.
Qed.

Lemma header_round_trip now body title cid T :
  (0 ≤ T)%Z → body ≠ "" → plain_title title →
  all_chars timestamp_char now = true →
  ∃ text, md_to_mdx now (VStr body) title cid (VInt T) = Ok text
          ∧ parse_update_time (universal_newlines text) = Some T.
Proof.
  intros HT Hbody Htitle Hnow.
  destruct (py_str_nonneg T HT) as (u & Hu & Hnil & HZ).
  unfold md_to_mdx. cbn [truthy]. rewrite bool_decide_eq_false_2 by done. cbn [negb].
  eexists. split; [reflexivity|].
  rewrite Hu. set (d := NilEmpty.string_of_uint u).
  set (t := py_str title). set (c := py_str cid).
  unfold universal_newlines. rewrite !sapp_assoc.
  set (t' := translate_newlines false t).
  set (b := "source: " +:+ dquote
            +:+ "https://developer.work.weixin.qq.com/document/path/"
            +:+ translate_newlines false c +:+ dquote +:+ nl +:+ "---"
            +:+ translate_newlines false (nl +:+ nl +:+ body)).
  set (a := dquote +:+ t' +:+ (dquote +:+ nl +:+ "generated_at: " +:+ dquote)
            +:+ now +:+ dquote +:+ nl).
  assert (Hnow' : all_chars no_line_break now = true).
  { eapply all_chars_impl; [apply timestamp_no_line_break|done]. }
  assert (Hd : all_chars is_digit d = true) by apply string_of_uint_digits.
  assert (Hd' : all_chars no_line_break d = true).
  { eapply all_chars_impl; [apply digit_no_line_break|done]. }
  match goal with |- parse_update_time ?x = _ =>
    replace x with ("---" +:+ nl +:+ "title: " +:+ a +:+ "update_time: "
                    +:+ d +:+ nl +:+ b) end.
  2:{ subst a b t'. rewrite !sapp_assoc.
      change (translate_newlines false ("---" +:+ nl +:+ "title: " +:+ dquote +:+ ?x))
        with ("---" +:+ nl +:+ "title: " +:+ dquote +:+ translate_newlines false x).
      rewrite (translate_newlines_app _ t).
      rewrite translate_newlines_quote.
      change (translate_newlines false (nl +:+ "generated_at: " +:+ dquote +:+ ?x))
        with (nl +:+ "generated_at: " +:+ dquote +:+ translate_newlines false x).
      rewrite (translate_newlines_app _ now), (translate_newlines_plain _ now Hnow').
      rewrite translate_newlines_quote.
      change (translate_newlines false (nl +:+ "update_time: " +:+ ?x))
        with (nl +:+ "update_time: " +:+ translate_newlines false x).
      rewrite (translate_newlines_app _ d), (translate_newlines_plain _ d Hd').
      rewrite (cr_after_plain d Hd').
      change (translate_newlines false (nl +:+ "source: " +:+ dquote +:+
                "https://developer.work.weixin.qq.com/document/path/" +:+ ?x))
        with (nl +:+ "source: " +:+ dquote +:+
                "https://developer.work.weixin.qq.com/document/path/" +:+
                translate_newlines false x).
      rewrite (translate_newlines_app _ c).
      rewrite translate_newlines_quote.
      change (translate_newlines false (nl +:+ "---" +:+ ?x))
        with (nl +:+ "---" +:+ translate_newlines false x).
      reflexivity. }
  rewrite parse_header_shape.
  - subst d. rewrite py_int_digits by done. by rewrite HZ.
  - subst a. rewrite !clear_of_app.
    repeat (apply andb_true_iff; split); try reflexivity.
    + eapply (clear_of_not_occurs "update_time:" t' "034"); [|reflexivity].
      subst t'. destruct (occurs "update_time:" (translate_newlines false t)) eqn:E;
        [|done].
      apply occurs_translated in E; [|done|done]. unfold plain_title in Htitle.
      subst t. congruence.
    + apply clear_of_first. eapply all_chars_impl; [apply timestamp_no_u|done].
  - subst d. by apply string_of_uint_nonempty.
  - done.
  - subst b.
    set (w := translate_newlines false (nl +:+ nl +:+ body)).
    replace (nl +:+ "source: " +:+ dquote
             +:+ "https://developer.work.weixin.qq.com/document/path/"
             +:+ translate_newlines false c +:+ dquote +:+ nl +:+ "---" +:+ w)
      with ((nl +:+ "source: " +:+ dquote
             +:+ "https://developer.work.weixin.qq.com/document/path/"
             +:+ translate_newlines false c +:+ dquote) +:+ (nl +:+ "---") +:+ w)
      by (by rewrite !sapp_assoc).
    apply occurs_app_r, occurs_here.
Qed.

(** ** A second run finds the mirror fresh *)

Lemma bindM_Ok {A B} (m : M A) (k : A → M B) st st' b :
  bindM m k st = (st', Ok b) →
  ∃ st1 a, m st = (st1, Ok a) ∧ k a st1 = (st', Ok b).
Proof.
  unfold bindM. destruct (m st) as [st1 [a|e]]; [eauto|done].
Qed.

Lemma n_failures_app st st' new :
  trace st' = trace st ++ new →
  n_failures st' = n_failures st + length (filter (λ ev, is_write_failure ev = true) new).
Proof. intros H. unfold n_failures. by rewrite H, filter_app, length_app. Qed.

Lemma steps_n_failures {A} E (m : M A) st st' r :
  steps E m → m st = (st', r) → n_failures st ≤ n_failures st'.
Proof.
  intros Hm Hrun. destruct (Hm _ _ _ Hrun) as (new & Hnew & _).
  rewrite (n_failures_app _ _ _ Hnew). lia.
Qed.

Lemma extract_insert_same fs p q text :
  resolve p = resolve q →
  extract_update_time_from_mdx (<[resolve q := Text text]> fs) p
  = parse_update_time (universal_newlines text).
Proof.
  intros Hpq. unfold extract_update_time_from_mdx. by rewrite Hpq, lookup_insert_eq.
Qed.

Lemma extract_insert_other fs p q f :
  resolve p ≠ resolve q →
  extract_update_time_from_mdx (<[resolve q := f]> fs) p
  = extract_update_time_from_mdx fs p.
Proof.
  intros Hne. unfold extract_update_time_from_mdx. by rewrite lookup_insert_ne.
Qed.

Lemma extract_same_file fs p q :
  resolve p = resolve q →
  extract_update_time_from_mdx fs p = extract_update_time_from_mdx fs q.
Proof. intros Hpq. unfold extract_update_time_from_mdx. by rewrite Hpq. Qed.

Lemma no_older_refl fs : no_older fs fs.
Proof. intros p L H. exists L. split; [done|lia]. Qed.

Lemma no_older_trans fs1 fs2 fs3 :
  no_older fs1 fs2 → no_older fs2 fs3 → no_older fs1 fs3.
Proof.
  intros H12 H23 p L H. destruct (H12 _ _ H) as (L' & H' & ?).
  destruct (H23 _ _ H') as (L'' & H'' & ?). exists L''. split; [done|lia].
Qed.

Lemma save_artifact_written E cat title p R data st st' :
  payload_ok data → plain_title title → (0 ≤ R)%Z →
  save_artifact E cat title p (VInt R) data st = (st', Ok tt) →
  n_failures st' = n_failures st →
  extract_update_time_from_mdx (fs st') p = Some R
  ∧ ∀ q, resolve q ≠ resolve p →
      extract_update_time_from_mdx (fs st') q = extract_update_time_from_mdx (fs st) q.
Proof.
  intros [Hbody Htitle] Hplain HR Hrun Hfail.
  unfold save_artifact in Hrun.
  apply bindM_Ok in Hrun as (st1 & category_id & H1 & Hrun).
  unfold lift in H1. injection H1 as <- Hcid.
  apply bindM_Ok in Hrun as (st2 & mdx & H2 & Hrun).
  injection H2 as <- Hmdx.
  apply bindM_Ok in Hrun as (st3 & [] & H3 & Hrun).
  unfold sleep in Hrun. injection Hrun as <-.
  unfold save_document in H3.
  destruct (can_write E (fs st) p).
  2:{ destruct (cut_short E (fs st) p); injection H3 as <-;
        unfold n_failures in Hfail; simpl in Hfail;
        rewrite !filter_app, !length_app in Hfail; simpl in Hfail; lia. }
  injection H3 as <-. simpl.
  destruct (get data "content_md" (VStr "")) as [z|body] eqn:Hc.
  { unfold md_to_mdx in Hmdx. by rewrite Hbody in Hmdx. }
  assert (Hne : body ≠ "").
  { simpl in Hbody. apply negb_true_iff, bool_decide_eq_false in Hbody. done. }
  assert (Ht : plain_title (get data "title" title)).
  { unfold get. destruct (data !! "title") eqn:Edt; [by apply Htitle|done]. }
  destruct (header_round_trip (strftime (clock E (length (trace st)))) body
              (get data "title" title) category_id R HR Hne Ht
              (strftime_timestamp _))
    as (text & Htext & Hparse).
  rewrite Htext in Hmdx. injection Hmdx as <-.
  split.
  - by rewrite extract_insert_same.
  - intros q Hq. by rewrite extract_insert_other.
Qed.

Lemma needs_update_false fs p R :
  needs_update fs p (VInt R) = Ok false →
  ∃ L, extract_update_time_from_mdx fs p = Some L ∧ (R ≤ L)%Z.
Proof.
  unfold needs_update. destruct (exists_path fs p); [|done].
  destruct (extract_update_time_from_mdx fs p) as [L|]; [|done]. simpl.
  intros [= H]. exists L. split; [done|].
  apply negb_false_iff in H. by apply Z.leb_le.
Qed.

Lemma needs_update_true fs p R L :
  needs_update fs p (VInt R) = Ok true →
  extract_update_time_from_mdx fs p = Some L → (L < R)%Z.
Proof.
  intros Hn Hx. unfold needs_update in Hn.
  rewrite (extract_exists _ _ _ Hx), Hx in Hn. simpl in Hn.
  injection Hn as Hn. apply negb_true_iff in Hn. by apply Z.leb_gt.
Qed.

Lemma crawl_leaf_fresh E path cat title st st' :
  remote_ok E → cat_ok cat → cat !! "title" = Some title →
  crawl_leaf E path cat title st = (st', Ok tt) →
  n_failures st' = n_failures st →
  no_older (fs st) (fs st') ∧ leaf_fresh E (fs st') path cat.
Proof.
  intros Hremote [(R & HR & HR0) Hplain] Htitle Hrun Hfail.
  assert (Htof : title_of cat = title) by (unfold title_of, get; by rewrite Htitle).
  rewrite Htof in Hplain.
  unfold crawl_leaf in Hrun.
  apply bindM_Ok in Hrun as (? & cp & [= <- Hcp] & Hrun).
  apply bindM_Ok in Hrun as (? & own & [= <- Hown] & Hrun).
  apply bindM_Ok in Hrun as (? & doc_id & [= <- Hdoc] & Hrun).
  apply bindM_Ok in Hrun as (? & stale & [= <- Hstale] & Hrun).
  destruct title as [|own']; [done|]. injection Hown as ->.
  rewrite HR in Hstale, Hrun.
  set (fp := generate_file_path (output_dir E) cp own) in *.
  assert (Hd : is_Some (cat !! "doc_id")).
  { unfold getitem in Hdoc. destruct (cat !! "doc_id"); [eauto|done]. }
  destruct stale.
  - apply bindM_Ok in Hrun as (st1 & doc_data & Hfetch & Hrun).
    unfold fetch_document_content in Hfetch.
    destruct (remote E (py_str doc_id)) as [|data0] eqn:Hrem; [done|].
    injection Hfetch as <- <-.
    destruct data0 as [data|]; [|done].
    destruct (bool_decide (data = ∅)) eqn:Hemp; [done|].
    apply bool_decide_eq_false in Hemp.
    destruct (save_artifact_written E cat (VStr own) fp R data _ _
                (Hremote _ _ Hrem Hemp) Hplain HR0 Hrun) as [Hnew Hold].
    { rewrite Hfail. unfold n_failures, log. simpl.
      rewrite filter_app, length_app. simpl. lia. }
    simpl in Hold. split.
    + intros p L Hp. destruct (decide (resolve p = resolve fp)) as [Heq|Hne].
      * exists R. rewrite (extract_same_file _ _ _ Heq). split; [done|].
        rewrite (extract_same_file _ _ _ Heq) in Hp.
        pose proof (needs_update_true _ _ _ _ Hstale Hp). lia.
      * exists L. rewrite (Hold _ Hne). split; [done|lia].
    + exists cp, own, R, R. repeat split; try done; lia.
  - injection Hrun as <-. split; [apply no_older_refl|].
    destruct (needs_update_false _ _ _ Hstale) as (L & HL & HRL).
    by exists cp, own, L, R.
Qed.

Lemma crawl_node_fresh E path cat st st' cp :
  remote_ok E → cat_ok cat →
  crawl_node E path cat st = (st', Ok cp) →
  n_failures st' = n_failures st →
  cp = path ++ [title_of cat]
  ∧ no_older (fs st) (fs st') ∧ node_fresh E (fs st') path cat.
Proof.
  intros Hremote Hcat Hrun Hfail. unfold crawl_node in Hrun.
  apply bindM_Ok in Hrun as (? & title & [= <- Htitle] & Hrun).
  apply bindM_Ok in Hrun as (? & is_leaf & [= <- Hleaf] & Hrun).
  apply bindM_Ok in Hrun as (st1 & [] & Hbody & [= <- <-]).
  unfold getitem in Htitle.
  destruct (cat !! "title") as [title'|] eqn:Ht; [|done]. injection Htitle as ->.
  split; [unfold title_of, get; by rewrite Ht|].
  destruct is_leaf.
  - destruct (crawl_leaf_fresh _ _ _ _ _ _ Hremote Hcat Ht Hbody Hfail)
      as [Hold Hfresh].
    split; [done|]. by exists title, true.
  - injection Hbody as <-. split; [apply no_older_refl|].
    exists title, false. by repeat split.
Qed.

Lemma leaf_fresh_mono E fs fs' path cat :
  no_older fs fs' → leaf_fresh E fs path cat → leaf_fresh E fs' path cat.
Proof.
  intros Hold (cp & own & L & R & Hcp & Ht & Hd & Hx & HR & HRL).
  destruct (Hold _ _ Hx) as (L' & Hx' & HL).
  exists cp, own, L', R. repeat split; try done; lia.
Qed.

Lemma node_fresh_mono E fs fs' path cat :
  no_older fs fs' → node_fresh E fs path cat → node_fresh E fs' path cat.
Proof.
  intros Hold (title & is_leaf & Ht & Hl & Hf).
  exists title, is_leaf. repeat split; try done.
  intros H. eapply leaf_fresh_mono; eauto.
Qed.

Lemma uptodate_mono E fs fs' tree :
  no_older fs fs' → ∀ path, uptodate E fs tree path → uptodate E fs' tree path.
Proof.
  intros Hold.
  induction tree as [cat ch IHch| |k n IHn rest IHrest]
    using forest_node_ind
    with (P := λ n, ∀ path, uptodate E fs (children n) path →
                            uptodate E fs' (children n) path).
  - done.
  - done.
  - intros path. destruct n as [cat ch]. simpl.
    intros (Hn & Hch & Hrest). repeat split.
    + by eapply node_fresh_mono.
    + by apply IHn.
    + by apply IHrest.
Qed.

Lemma crawl_tree_fresh E tree :
  remote_ok E →
  ∀ path st st', tree_forall cat_ok tree →
    crawl_tree E tree path st = (st', Ok tt) →
    n_failures st' = n_failures st →
    no_older (fs st) (fs st') ∧ uptodate E (fs st') tree path.
Proof.
  intros Hremote.
  induction tree as [cat ch IHch| |k n IHn rest IHrest]
    using forest_node_ind
    with (P := λ n, ∀ path st st', tree_forall cat_ok (children n) →
            crawl_tree E (children n) path st = (st', Ok tt) →
            n_failures st' = n_failures st →
            no_older (fs st) (fs st') ∧ uptodate E (fs st') (children n) path).
  - done.
  - intros path st st' _ [= <-] _. split; [apply no_older_refl|done].
  - intros path st st' Hok Hrun Hfail. destruct n as [cat ch].
    simpl in Hok. destruct Hok as (Hcat & Hch & Hrest).
    cbn [crawl_tree] in Hrun.
    apply bindM_Ok in Hrun as (st1 & cp & Hnode & Hrun).
    apply bindM_Ok in Hrun as (st2 & [] & Hchildren & Hrun).
    assert (H01 : n_failures st ≤ n_failures st1)
      by (eapply steps_n_failures; [apply steps_crawl_node|done]).
    assert (H12 : n_failures st1 ≤ n_failures st2).
    { destruct (is_empty ch).
      - injection Hchildren as <-. lia.
      - eapply steps_n_failures; [apply steps_crawl_tree|done]. }
    assert (H23 : n_failures st2 ≤ n_failures st')
      by (eapply steps_n_failures; [apply steps_crawl_tree|done]).
    destruct (crawl_node_fresh _ _ _ _ _ _ Hremote Hcat Hnode)
      as (-> & Hold1 & Hfresh1); [lia|].
    assert (no_older (fs st1) (fs st2)
            ∧ uptodate E (fs st2) ch (path ++ [title_of cat])) as [Hold2 Hup2].
    { destruct ch as [|k' n' ch'].
      - injection Hchildren as <-. split; [apply no_older_refl|done].
      - apply (IHn _ _ _ Hch Hchildren). lia. }
    destruct (IHrest _ _ _ Hrest Hrun) as [Hold3 Hup3]; [lia|].
    split; [eauto using no_older_trans|].
    simpl. repeat split.
    + eapply node_fresh_mono; [|done]. eauto using no_older_trans.
    + by eapply uptodate_mono.
    + done.
Qed.

Lemma node_fresh_noop E fs path cat tr :
  node_fresh E fs path cat →
  crawl_node E path cat {| fs := fs; trace := tr |}
  = ({| fs := fs; trace := tr |}, Ok (path ++ [title_of cat])).
Proof.
  intros (title & is_leaf & Ht & Hl & Hfresh).
  unfold crawl_node. unfold bindM at 1, lift at 1, getitem at 1. rewrite Ht.
  unfold bindM at 1, lift at 1. rewrite Hl.
  assert (title_of cat = title) as -> by (unfold title_of, get; by rewrite Ht).
  destruct is_leaf; [|done].
  destruct (Hfresh eq_refl) as (cp & own & L & R & Hcp & Ht' & [d Hd] & Hx & HR & HRL).
  assert (title = VStr own) as -> by congruence.
  unfold bindM.
  rewrite (crawl_leaf_skips E path cat (VStr own) cp own d); try done.
  simpl. unfold needs_update. rewrite (extract_exists _ _ _ Hx), Hx, HR. simpl.
  destruct (Z.leb_spec R L); [done|lia].
Qed.

Lemma uptodate_noop E fs tr tree :
  ∀ path, uptodate E fs tree path →
    crawl_tree E tree path {| fs := fs; trace := tr |}
    = ({| fs := fs; trace := tr |}, Ok tt).
Proof.
  induction tree as [cat ch IHch| |k n IHn rest IHrest]
    using forest_node_ind
    with (P := λ n, ∀ path, uptodate E fs (children n) path →
            crawl_tree E (children n) path {| fs := fs; trace := tr |}
            = ({| fs := fs; trace := tr |}, Ok tt)).
  - done.
  - done.
  - intros path. destruct n as [cat ch]. simpl.
    intros (Hn & Hch & Hrest).
    unfold bindM at 1. rewrite (node_fresh_noop _ _ _ _ _ Hn).
    unfold bindM. destruct (is_empty ch) eqn:Hemp.
    + unfold ret. by apply IHrest.
    + simpl in IHn. rewrite (IHn _ Hch). by apply IHrest.
Qed.

(** ** Clean path components *)

Lemma all_chars_re_sub_special s :
  all_chars (λ c, negb (special c)) (re_sub_special s) = true.
Proof.
  induction s as [|c s IH]; simpl; [done|].
  destruct (special c) eqn:Hc; simpl; [done|]. by rewrite Hc.
Qed.

Lemma all_chars_lstrip p s : all_chars p s = true → all_chars p (lstrip s) = true.
Proof.
  induction s as [|c s IH]; simpl; [done|].
  intros [Hc Hs]%andb_true_iff. destruct (is_space c); [auto|].
  simpl. by rewrite Hc, Hs.
Qed.

Lemma all_chars_rstrip p s : all_chars p s = true → all_chars p (rstrip s) = true.
Proof.
  induction s as [|c s IH]; simpl; [done|].
  intros [Hc Hs]%andb_true_iff. specialize (IH Hs).
  destruct (rstrip s) as [|d r].
  - destruct (is_space c); simpl; [done|]. by rewrite Hc.
  - simpl in *. by rewrite Hc, IH.
Qed.

Lemma clean_no_special s : all_chars (λ c, negb (special c)) (clean s) = true.
Proof.
  unfold clean, strip. apply all_chars_rstrip, all_chars_lstrip,
    all_chars_re_sub_special.
Qed.

Lemma resolve_onto_plain seen parts :
  ".." ∉ parts → resolve_onto seen parts = rev seen ++ parts.
Proof.
  revert seen. induction parts as [|p ps IH]; intros seen Hno; simpl.
  - by rewrite app_nil_r.
  - apply not_elem_of_cons in Hno as [Hp Hps].
    rewrite bool_decide_eq_false_2 by done.
    rewrite IH by done. simpl. by rewrite <- app_assoc.
Qed.

Lemma resolve_onto_app seen p q :
  resolve_onto seen (p ++ q) = resolve_onto (rev (resolve_onto seen p)) q.
Proof.
  revert seen. induction p as [|x p IH]; intros seen; simpl.
  - by rewrite rev_involutive.
  - destruct (bool_decide (x = "..")); [|apply IH].
    destruct seen as [|d seen]; [apply IH|].
    destruct (bool_decide (d = "..")); apply IH.
Qed.

Lemma resolve_app_plain p q : ".." ∉ q → resolve (p ++ q) = resolve p ++ q.
Proof.
  intros Hq. unfold resolve.
  by rewrite resolve_onto_app, resolve_onto_plain, rev_involutive.
Qed.

Lemma mdx_name_not_dotdot s : s +:+ ".mdx" ≠ "..".
Proof. destruct s as [|a [|b [|c s]]]; done. Qed.

Lemma path_parts_elem x component :
  x ∈ path_parts component → x = component.
Proof.
  unfold path_parts. case_bool_decide; [by intros ?%elem_of_nil|].
  by intros ->%list_elem_of_singleton.
Qed.





(** ** A header starts a line *)






(** ** Placing a record in the tree *)

Lemma keys_nodes_at position tree : (nodes_at position tree).*1.*2 = keys tree.
Proof.
  revert position.
  induction tree as [cat ch IHch| |k n IHn rest IHrest]
    using forest_node_ind
    with (P := λ n, ∀ position,
            (nodes_at position (children n)).*1.*2 = keys (children n)).
  - done.
  - done.
  - intros position. destruct n as [c ch]. simpl in *.
    by rewrite !fmap_app, IHn, IHrest.
Qed.

Lemma nodes_at_key position tree pos k c :
  (pos, k, c) ∈ nodes_at position tree → k ∈ keys tree.
Proof.
  intros Hin. rewrite <- (keys_nodes_at position).
  apply list_elem_of_fmap. exists (pos, k). split; [done|].
  apply list_elem_of_fmap. by exists (pos, k, c).
Qed.

Lemma setitem_fresh position tree k c :
  k ∉ keys tree →
  nodes_at position (setitem tree k (Node c FNil))
  = nodes_at position tree ++ [(position, k, c)].
Proof.
  induction tree as [|k' [c' ch] rest IH] using forest_ind; [done|].
  - simpl. intros Hk. apply not_elem_of_cons in Hk as [Hne Hk].
    apply not_elem_of_app in Hk as [_ Hk].
    rewrite bool_decide_eq_false_2 by done. simpl.
    rewrite IH by done. by rewrite <- !app_assoc.
Qed.

Lemma keys_setitem_fresh tree k c :
  k ∉ keys tree → keys (setitem tree k (Node c FNil)) = keys tree ++ [k].
Proof.
  intros Hk. rewrite <- !(keys_nodes_at []). rewrite setitem_fresh by done.
  by rewrite !fmap_app.
Qed.

Lemma add_to_tree_spec p c k_new tree :
  c !! "category_id" = Some k_new →
  ∀ position, NoDup (keys tree) → k_new ∉ keys tree →
    (p ∉ keys tree → _add_to_tree tree p c = Ok tree)
    ∧ (∀ pos c', (pos, p, c') ∈ nodes_at position tree →
         ∃ tree', _add_to_tree tree p c = Ok tree'
           ∧ nodes_at position tree'
             ≡ₚ nodes_at position tree ++ [(pos ++ [p], k_new, c)]).
Proof.
  intros Hc.
  induction tree as [cat ch IHch| |k n IHn rest IHrest]
    using forest_node_ind
    with (P := λ n, ∀ position,
            NoDup (keys (children n)) → k_new ∉ keys (children n) →
            (p ∉ keys (children n) →
             _add_to_tree (children n) p c = Ok (children n))
            ∧ (∀ pos c', (pos, p, c') ∈ nodes_at position (children n) →
                 ∃ tree', _add_to_tree (children n) p c = Ok tree'
                   ∧ nodes_at position tree'
                     ≡ₚ nodes_at position (children n)
                        ++ [(pos ++ [p], k_new, c)])).
  - done.
  - intros position _ _. split; [done|]. intros pos c' Hin.
    by apply elem_of_nil in Hin.
  - intros position Hnd Hnew. destruct n as [c0 ch]. simpl in IHn.
    simpl in Hnd, Hnew.
    apply NoDup_cons in Hnd as [Hk Hnd].
    apply NoDup_app in Hnd as (Hndch & Hdisj & Hndrest).
    apply not_elem_of_cons in Hnew as [Hnewk Hnew].
    apply not_elem_of_app in Hnew as [Hnewch Hnewrest].
    apply not_elem_of_app in Hk as [Hkch Hkrest].
    destruct (IHn (position ++ [k]) Hndch Hnewch) as [IHn1 IHn2].
    destruct (IHrest position Hndrest Hnewrest) as [IHr1 IHr2].
    simpl. split.
    + intros Hp. apply not_elem_of_cons in Hp as [Hpk Hp].
      apply not_elem_of_app in Hp as [Hpch Hprest].
      rewrite bool_decide_eq_false_2 by done.
      by rewrite IHn1, IHr1.
    + intros pos c' Hin. case_bool_decide as Hkp.
      * subst k. unfold getitem. rewrite Hc. simpl.
        eexists. split; [done|].
        apply elem_of_cons in Hin as [Hin|Hin].
        -- injection Hin as -> ->. simpl. rewrite setitem_fresh by done.
           rewrite <- !app_assoc. apply Permutation_skip.
           apply Permutation_app_head. apply Permutation_app_comm.
        -- exfalso. apply elem_of_app in Hin as [Hin|Hin];
             apply nodes_at_key in Hin; done.
      * apply elem_of_cons in Hin as [Hin|Hin]; [congruence|].
        apply elem_of_app in Hin as [Hin|Hin].
        -- destruct (IHn2 _ _ Hin) as (ch' & -> & Hperm). simpl.
           rewrite IHr1.
           2:{ intros Hp. apply (Hdisj p); [|done]. by eapply nodes_at_key. }
           simpl. eexists. split; [done|]. simpl.
           rewrite Hperm. rewrite <- !app_assoc. apply Permutation_skip.
           apply Permutation_app_head. apply Permutation_app_comm.
        -- rewrite IHn1.
           2:{ intros Hp. apply (Hdisj p); [done|]. by eapply nodes_at_key. }
           simpl. destruct (IHr2 _ _ Hin) as (rest' & -> & Hperm). simpl.
           eexists. split; [done|]. simpl.
           rewrite Hperm. by rewrite <- !app_assoc.
Qed.

Lemma cid_lookup c k : c !! "category_id" = Some k → cid c = k.
Proof. intros H. unfold cid, get. by rewrite H. Qed.

Lemma list_find_key (placed : list (list val * val * dict)) p :
  p ∈ placed.*1.*2 →
  ∃ i pos c', list_find (λ x, x.1.2 = p) placed = Some (i, (pos, p, c'))
              ∧ (pos, p, c') ∈ placed.
Proof.
  intros Hin. apply list_elem_of_fmap in Hin as ([pos k] & Hp & Hin).
  apply list_elem_of_fmap in Hin as ([[pos' k'] c'] & Heq & Hin).
  simpl in Hp, Heq. injection Heq as <- <-. subst p.
  destruct (list_find_elem_of (λ x, x.1.2 = k) placed _ Hin eq_refl)
    as [[i [[pos'' k''] c'']] Hfind].
  pose proof Hfind as Hfind'.
  apply list_find_Some in Hfind' as (Hlook & Hk & _). simpl in Hk. subst k''.
  exists i, pos'', c''. split; [done|]. by eapply list_elem_of_lookup_2.
Qed.

Lemma build_loop_spec cats :
  ∀ tree placed,
    nodes tree ≡ₚ placed →
    Forall (λ c, is_Some (c !! "category_id")) cats →
    NoDup (placed.*1.*2 ++ (cid <$> cats)) →
    parents_first (placed.*1.*2) cats →
    ∃ tree', build_loop cats tree = Ok tree' ∧ nodes tree' ≡ₚ place placed cats.
Proof.
  induction cats as [|c cs IH]; intros tree placed Hperm Hcid Hnd Hpf.
  - by exists tree.
  - apply Forall_cons in Hcid as [[k Hk] Hcid].
    pose proof (cid_lookup _ _ Hk) as Hck.
    destruct Hpf as [Hp Hpf]. simpl in Hnd. rewrite Hck in Hnd, Hpf.
    assert (Hkeys : keys tree ≡ₚ placed.*1.*2).
    { rewrite <- (keys_nodes_at []). fold (nodes tree). by rewrite Hperm. }
    assert (Hndt : NoDup (keys tree)).
    { rewrite Hkeys. by apply NoDup_app in Hnd as [? _]. }
    assert (Hknew : k ∉ keys tree).
    { rewrite Hkeys. apply NoDup_app in Hnd as (_ & Hd & _).
      intros Hin. apply (Hd _ Hin). left. }
    assert (Hnd' : NoDup ((placed.*1.*2 ++ [k]) ++ (cid <$> cs))).
    { by rewrite <- app_assoc. }
    cbn [build_loop place]. fold (parent c). unfold getitem. rewrite Hk, Hck.
    case_bool_decide as Hroot.
    + simpl. apply IH; try done.
      * unfold nodes. rewrite setitem_fresh by done. fold (nodes tree).
        by rewrite Hperm.
      * by rewrite !fmap_app.
      * by rewrite !fmap_app.
    + destruct Hp as [Hp|Hp]; [done|].
      destruct (list_find_key _ _ Hp) as (i & pos & c' & -> & Hin).
      assert (Hint : (pos, parent c, c') ∈ nodes_at [] tree).
      { fold (nodes tree). by rewrite Hperm. }
      destruct (add_to_tree_spec (parent c) c k tree Hk [] Hndt Hknew)
        as [_ Hadd].
      destruct (Hadd _ _ Hint) as (tree' & -> & Hperm').
      simpl. apply IH; try done.
      * unfold nodes. rewrite Hperm'. fold (nodes tree). by rewrite Hperm.
      * by rewrite !fmap_app.
      * by rewrite !fmap_app.
Qed.

Lemma place_records cats :
  ∀ placed, parents_first (placed.*1.*2) cats →
    (place placed cats).*2 = placed.*2 ++ cats.
Proof.
  induction cats as [|c cs IH]; intros placed Hpf; simpl.
  - by rewrite app_nil_r.
  - destruct Hpf as [Hp Hpf]. case_bool_decide as Hroot.
    + rewrite IH by (by rewrite !fmap_app). rewrite fmap_app. simpl.
      by rewrite <- app_assoc.
    + destruct Hp as [Hp|Hp]; [done|].
      destruct (list_find_key _ _ Hp) as (i & pos & c' & -> & Hin).
      rewrite IH by (by rewrite !fmap_app). rewrite fmap_app. simpl.
      by rewrite <- app_assoc.
Qed.

Lemma chained_snoc placed pos c :
  chained placed →
  (parent c = VInt 0 ∧ pos = [])
  ∨ (parent c ≠ VInt 0
     ∧ ∃ pos' c', (pos', parent c, c') ∈ placed ∧ pos = pos' ++ [parent c]) →
  chained (placed ++ [(pos, cid c, c)]).
Proof.
  intros Hch Hnew pos0 k0 c0 [Hin|Hin]%elem_of_app.
  - destruct (Hch _ _ _ Hin) as [Hk [Hr|(Hn & pos' & c' & Hin' & Hpos)]].
    + split; [done|by left].
    + split; [done|right]. split; [done|]. exists pos', c'.
      split; [|done]. apply elem_of_app. by left.
  - apply list_elem_of_singleton in Hin. injection Hin as -> -> ->.
    split; [done|]. destruct Hnew as [?|(Hn & pos' & c' & Hin' & Hpos)]; [by left|].
    right. split; [done|]. exists pos', c'. split; [|done].
    apply elem_of_app. by left.
Qed.

Lemma place_chained cats : ∀ placed, chained placed → chained (place placed cats).
Proof.
  induction cats as [|c cs IH]; intros placed Hch; simpl; [done|].
  case_bool_decide as Hroot.
  - apply IH, chained_snoc; auto.
  - destruct (list_find _ placed) as [[i [[pos k] c']]|] eqn:Hfind; [|by apply IH].
    apply IH, chained_snoc; [done|]. right. split; [done|].
    apply list_find_Some in Hfind as (Hlook & Hk & _). simpl in Hk. subst k.
    exists pos, c'. split; [|done]. by eapply list_elem_of_lookup_2.
Qed.
Lemma chained_perm placed placed' :
  placed ≡ₚ placed' → chained placed → chained placed'.
Proof.
  intros Hperm Hch pos k c Hin. rewrite <- Hperm in Hin.
  destruct (Hch _ _ _ Hin) as [Hk [Hr|(Hn & pos' & c' & Hin' & Hpos)]].
  - split; [done|by left].
  - split; [done|right]. split; [done|]. exists pos', c'.
    split; [|done]. by rewrite <- Hperm.
Qed.

(** ** The small corpus *)

Lemma sample_env_remote_ok title body :
  body ≠ "" → occurs "update_time:" title = false →
  remote_ok (sample_env (payload title body)).
Proof.
  intros Hb Ht d data. simpl. case_bool_decide; [|done].
  intros [= <-] _. split.
  - simpl. apply negb_true_iff, bool_decide_eq_false. done.
  - intros t [= <-]. exact Ht.
Qed.

Lemma sample_tree_ok : tree_forall cat_ok sample_tree.
Proof.
  simpl. repeat split; try done.
  - exists 0%Z. split; [reflexivity|lia].
  - exists 100%Z. split; [reflexivity|lia].
Qed.

(** * The claims *)

(** C1: a leaf whose artifact on file has the update time [L], with the
    remote update time [R] on its record, is fetched if and only if [R > L]:
    when [R <= L] the node leaves the state as it is (no request, no write),
    and when [L < R] the next event is the request for its document. *)
Theorem crawl_node_freshness E path cat own d cp L R st :
  cat !! "title" = Some (VStr own) →
  cat !! "doc_id" = Some (VInt d) → (0 < d)%Z →
  as_strs path = Ok cp →
  extract_update_time_from_mdx (fs st)
    (generate_file_path (output_dir E) cp own) = Some L →
  get cat "time" (VInt 0) = VInt R →
  ((R ≤ L)%Z → crawl_node E path cat st = (st, Ok (path ++ [VStr own]))) ∧
  ((L < R)%Z → ∃ st' r rest, crawl_node E path cat st = (st', r) ∧
      trace st' = trace st ++ EvFetch (py_str (VInt d)) :: rest).
Proof.
  intros Ht Hd Hpos Hp Hx Hr.
  rewrite (crawl_node_leaf _ _ _ _ _ _ Ht Hd Hpos).
  assert (Hn : needs_update (fs st) (generate_file_path (output_dir E) cp own)
                 (get cat "time" (VInt 0)) = Ok (negb (R <=? L)%Z)).
  { unfold needs_update. by rewrite (extract_exists _ _ _ Hx), Hx, Hr. }
  split; intros Hcmp.
  - destruct (Z.leb_spec R L) as [_|?]; [|lia].
    by rewrite (crawl_leaf_skips _ _ _ _ cp own (VInt d) st).
  - destruct (Z.leb_spec R L) as [?|_]; [lia|].
    destruct (crawl_leaf_fetches E path cat (VStr own) cp own (VInt d) st)
      as (st' & r & rest & Hrun & Htr); try done.
    rewrite Hrun. destruct r as [[]|e]; eauto.
Qed.

(** On the mirrored corpus, where local and remote update time are both
    100, the leaf is left alone. *)
Lemma crawl_node_freshness_witness :
  crawl_node (sample_env (payload "Auth" "body")) [VStr "API"] auth mirrored_state
  = (mirrored_state, Ok [VStr "API"; VStr "Auth"]).
Proof.
  apply (proj1 (crawl_node_freshness (sample_env (payload "Auth" "body"))
                  [VStr "API"] auth "Auth" 500 ["API"] 100 100 mirrored_state
                  eq_refl eq_refl eq_refl eq_refl eq_refl eq_refl)).
  lia.
Defined.

(** C2 (amended): when every payload of the remote source has a body and no
    title, of a record or of a payload, holds the text [update_time:], the
    remote update times are non-negative integers, and a first run ends
    without an error and without a failed write, then every leaf is fresh
    after it and a second run asks for no document and writes nothing: it
    leaves the state as it is. *)
Theorem crawl_tree_idempotent E tree path st st1 :
  remote_ok E → tree_forall cat_ok tree →
  crawl_tree E tree path st = (st1, Ok tt) →
  n_failures st1 = n_failures st →
  uptodate E (fs st1) tree path
  ∧ crawl_tree E tree path st1 = (st1, Ok tt).
Proof.
  intros Hremote Htree Hrun Hfail.
  destruct (crawl_tree_fresh E tree Hremote path st st1 Htree Hrun Hfail)
    as [_ Hup].
  split; [done|]. destruct st1 as [fs1 tr1]. by apply uptodate_noop.
Qed.

(** The corpus with a body for its document: after the first run the second
    changes nothing. *)
Lemma crawl_tree_idempotent_witness :
  uptodate (sample_env (payload "Auth" "body")) (fs mirrored_state) sample_tree []
  ∧ crawl_tree (sample_env (payload "Auth" "body")) sample_tree [] mirrored_state
    = (mirrored_state, Ok tt).
Proof.
  apply (crawl_tree_idempotent (sample_env (payload "Auth" "body")) sample_tree []
           empty_state mirrored_state).
  - by apply sample_env_remote_ok.
  - apply sample_tree_ok.
  - vm_compute. reflexivity.
  - vm_compute. reflexivity.
Defined.

(** C2, as stated, fails: a document with an empty body is asked for again
    by the second run, though the first run and its write succeeded. *)
Lemma empty_body_fetched_twice :
  let E := sample_env (payload "Auth" "") in
  let run1 := crawl_tree E sample_tree [] empty_state in
  let run2 := crawl_tree E sample_tree [] run1.1 in
  run1.2 = Ok tt ∧ n_failures run1.1 = 0
  ∧ fetched (trace run1.1) = ["500"]
  ∧ run2.2 = Ok tt ∧ fetched (trace run2.1) = ["500"; "500"].
Proof. vm_compute. repeat split. Qed.

(** C3 (amended): for the two records of the scenario with the keys the
    source gives them (each with an [id], the update time under [time]), no
    artifact at the target path, a response for document 500 with a body that
    is not empty and a write that succeeds, the run asks for document 500
    once and writes, at the output directory, [API/Auth.mdx] with a header
    whose [update_time] is 100. *)
Theorem scenario_first_sync E data body st :
  remote E "500" = Json (Some data) →
  get data "content_md" (VStr "") = VStr body → body ≠ "" →
  fs st !! resolve (output_dir E ++ ["API"; "Auth.mdx"]) = None →
  can_write E (fs st) (output_dir E ++ ["API"; "Auth.mdx"]) = true →
  ∃ tree text,
    build_category_tree [api; auth] = Ok tree
    ∧ text = "---" +:+ nl
             +:+ "title: " +:+ dquote +:+ py_str (get data "title" (VStr "Auth"))
             +:+ dquote +:+ nl
             +:+ "generated_at: " +:+ dquote
             +:+ strftime (clock E (length (trace st ++ [EvFetch "500"])))
             +:+ dquote +:+ nl
             +:+ "update_time: 100" +:+ nl
             +:+ "source: " +:+ dquote
             +:+ "https://developer.work.weixin.qq.com/document/path/2"
             +:+ dquote +:+ nl
             +:+ "---" +:+ nl +:+ nl +:+ body
    ∧ crawl_tree E tree [] st
      = ({| fs := <[resolve (output_dir E ++ ["API"; "Auth.mdx"]) := Text text]>
                    (fs st);
            trace := trace st
                     ++ [EvFetch "500";
                         EvWrite (output_dir E ++ ["API"; "Auth.mdx"]) text;
                         EvSleep] |},
         Ok tt).
Proof.
  intros Hrem Hbody Hne Hnone Hw.
  assert (Hdata : data ≠ ∅).
  { intros ->. unfold get in Hbody. rewrite lookup_empty in Hbody. congruence. }
  exists sample_tree. eexists. split; [by vm_compute|]. split; [reflexivity|].
  assert (Hapi : crawl_node E [] api st = (st, Ok [VStr "API"])) by reflexivity.
  assert (Hfp : generate_file_path (output_dir E) ["API"] "Auth"
                = output_dir E ++ ["API"; "Auth.mdx"]) by reflexivity.
  cbn [crawl_tree sample_tree is_empty]. unfold bindM at 1. rewrite Hapi.
  unfold bindM at 1 2.
  rewrite (crawl_node_leaf E [VStr "API"] auth "Auth" 500 st eq_refl eq_refl eq_refl).
  unfold crawl_leaf, save_artifact, bindM, lift, fetch_document_content,
    save_document, sleep, md_to_mdx, raise, ret.
  change (as_strs [VStr "API"]) with (Ok ["API"]).
  change (as_str (VStr "Auth")) with (Ok "Auth").
  change (getitem auth "doc_id") with (Ok (VInt 500)).
  change (getitem auth "category_id") with (Ok (VInt 2)).
  change (get auth "time" (VInt 0)) with (VInt 100).
  cbv iota beta. rewrite Hfp.
  unfold needs_update, exists_path. rewrite Hnone.
  rewrite bool_decide_eq_false_2 by (by intros [? ?]).
  change (py_str (VInt 500)) with "500". rewrite Hrem.
  rewrite (bool_decide_eq_false_2 _ Hdata), Hbody.
  cbn [truthy negb]. rewrite (bool_decide_eq_false_2 _ Hne). cbn [negb].
  unfold log. cbn [fs trace]. rewrite Hw. cbn [fs trace].
  rewrite <- !app_assoc. rewrite !sapp_assoc. reflexivity.
Qed.

(** The scenario against a remote source that gives the body [body]. *)
Lemma scenario_first_sync_witness :
  ∃ tree text,
    build_category_tree [api; auth] = Ok tree
    ∧ text = "---" +:+ nl
             +:+ "title: " +:+ dquote +:+ "Auth" +:+ dquote +:+ nl
             +:+ "generated_at: " +:+ dquote +:+ "2024-01-01 00:00:00"
             +:+ dquote +:+ nl
             +:+ "update_time: 100" +:+ nl
             +:+ "source: " +:+ dquote
             +:+ "https://developer.work.weixin.qq.com/document/path/2"
             +:+ dquote +:+ nl
             +:+ "---" +:+ nl +:+ nl +:+ "body"
    ∧ crawl_tree (sample_env (payload "Auth" "body")) tree [] empty_state
      = ({| fs := <[resolve auth_path := Text text]> ∅;
            trace := [EvFetch "500"; EvWrite auth_path text; EvSleep] |},
         Ok tt).
Proof.
  apply (scenario_first_sync (sample_env (payload "Auth" "body"))
           (payload "Auth" "body") "body" empty_state eq_refl eq_refl).
  - discriminate.
  - reflexivity.
  - reflexivity.
Defined.

(** C3, as stated, fails: on the list of the scenario as the specification
    writes it, where no record has the key [id] and the update time is under
    [update_time], the tree builder raises [KeyError] and nothing is fetched
    or written.  With the keys of the source the outcome still hangs on the
    response: for an empty body the file written has no header at all. *)
Lemma scenario_as_listed_raises :
  build_category_tree [api_listed; auth_listed] = Err (KeyError "id")
  ∧ get auth_listed "time" (VInt 0) = VInt 0
  ∧ build_category_tree [api; auth] = Ok sample_tree
  ∧ (let first := crawl_tree (sample_env (payload "Auth" "")) sample_tree []
                    empty_state in
     fs first.1 !! auth_path
     = Some (Text ("# Auth" +:+ nl +:+ nl +:+ "*No content available*" +:+ nl))
     ∧ extract_update_time_from_mdx (fs first.1) auth_path = None).
Proof. vm_compute. repeat split. Qed.

(** C4 (amended): for every list of records in which each record has the
    keys [id] and [category_id], no two records have the same
    [category_id], and every record with a [parent_id] other than 0 comes
    after the record with that [category_id], the builder gives a forest
    whose nodes are, up to their order, the records of the list, each once
    and each at the place its chain of parent ids leads to from a root
    (which is the place [positions] computes for it). *)
Theorem build_category_tree_positions cats :
  well_formed cats →
  ∃ tree,
    build_category_tree cats = Ok tree
    ∧ (nodes tree).*2 ≡ₚ cats
    ∧ chained (nodes tree)
    ∧ nodes tree ≡ₚ positions cats.
Proof.
  intros (Hkeys & Hnd & Hpf).
  destruct (build_loop_spec cats FNil []) as (tree & Hbuild & Hperm); try done.
  { eapply Forall_impl; [exact Hkeys|]. by intros c [_ ?]. }
  exists tree. split; [|split; [|split]].
  - unfold build_category_tree.
    destruct (cat_map_all_ids cats []) as [m ->]; [|done].
    intros c Hc. rewrite Forall_forall in Hkeys. by apply Hkeys.
  - rewrite Hperm. fold (positions cats). unfold positions.
    by rewrite place_records.
  - eapply chained_perm; [symmetry; exact Hperm|].
    apply place_chained. intros pos k c Hin. by apply elem_of_nil in Hin.
  - done.
Qed.

(** The two records of the scenario, with the keys of the source. *)
Lemma build_category_tree_positions_witness :
  ∃ tree,
    build_category_tree [api; auth] = Ok tree
    ∧ (nodes tree).*2 ≡ₚ [api; auth]
    ∧ chained (nodes tree)
    ∧ nodes tree ≡ₚ positions [api; auth].
Proof.
  apply build_category_tree_positions. split; [|split].
  - repeat constructor; by eexists.
  - change (NoDup [VInt 1; VInt 2]).
    apply NoDup_cons_2; [by intros ?%list_elem_of_singleton|].
    apply NoDup_singleton.
  - split; [by left|]. split; [|done]. right.
    change (VInt 1 ∈ [VInt 1]). left.
Defined.

(** C4, as stated, fails: records with the fields the specification lists
    (no key [id]), parent first and with distinct ids, make the builder
    raise [KeyError]; no forest is produced. *)
Lemma build_category_tree_listed_raises :
  build_category_tree [api_listed; auth_listed] = Err (KeyError "id")
  ∧ parent api_listed = VInt 0
  ∧ parent auth_listed = cid api_listed
  ∧ bool_decide (cid api_listed = cid auth_listed) = false.
Proof. vm_compute. repeat split. Qed.

(** C5: the round trip of the header fails for a title that holds the name
    of the field: written with the update time 100 under the title
    [update_time: 5], the artifact is read back with the update time 5. *)
Theorem title_shadows_update_time :
  (do text <- md_to_mdx "2024-01-01 00:00:00" (VStr "body")
                (VStr "update_time: 5") (VInt 2) (VInt 100);
   Ok (parse_update_time (universal_newlines text)))
  = Ok (Some 5%Z).
Proof. vm_compute. reflexivity. Qed.

(** C6 (amended): every component of the generated path below the output
    directory is free of the nine characters the pattern removes (the
    predicate [special]), and the path lies inside the output directory when
    no cleaned ancestor title is the parent directory [..]. *)
Theorem generate_file_path_sanitized output_dir category_path title :
  ∃ parts,
    generate_file_path output_dir category_path title = output_dir ++ parts
    ∧ Forall (λ part, all_chars (λ c, negb (special c)) part = true) parts
    ∧ (Forall (λ t, clean t ≠ "..") category_path →
       inside output_dir (output_dir ++ parts)).
Proof.
  unfold generate_file_path.
  exists (concat (path_parts <$> (clean <$> category_path)) ++ [clean title +:+ ".mdx"]).
  split; [done|]. split.
  - apply Forall_app. split.
    + apply Forall_forall. intros x Hx.
      apply list_elem_of_In, in_concat in Hx as (l & Hl & Hx).
      apply list_elem_of_In, list_elem_of_fmap in Hl as (c & -> & Hc).
      apply list_elem_of_In, path_parts_elem in Hx as ->.
      apply list_elem_of_fmap in Hc as (t & -> & _). apply clean_no_special.
    + apply Forall_singleton. rewrite all_chars_app, clean_no_special. done.
  - intros Hno. unfold inside. rewrite resolve_app_plain; [by eexists|].
    intros [Hin|Hin]%elem_of_app.
    + apply list_elem_of_In, in_concat in Hin as (l & Hl & Hx).
      apply list_elem_of_In, list_elem_of_fmap in Hl as (c & -> & Hc).
      apply list_elem_of_In, path_parts_elem in Hx as <-.
      apply list_elem_of_fmap in Hc as (t & Hc & Ht).
      rewrite Forall_forall in Hno. by apply (Hno t Ht).
    + apply list_elem_of_singleton in Hin. symmetry in Hin.
      by apply mdx_name_not_dotdot in Hin.
Qed.

(** The path of the scenario lies inside [docs]. *)
Lemma generate_file_path_sanitized_witness :
  inside ["docs"] (generate_file_path ["docs"] ["API"] "Auth").
Proof.
  destruct (generate_file_path_sanitized ["docs"] ["API"] "Auth")
    as (parts & -> & _ & Hin).
  apply Hin. repeat constructor. vm_compute. discriminate.
Defined.

(** C6, as stated, fails: an ancestor title [..] gives a path that leaves
    the output directory. *)
Lemma generate_file_path_escapes :
  resolve (generate_file_path ["docs"] [".."] "x") = ["x.mdx"]
  ∧ bool_decide (inside ["docs"] (generate_file_path ["docs"] [".."] "x")) = false.
Proof. split; vm_compute; reflexivity. Qed.

(** C7: in a run of the traversal a content call that fails, or that gives
    no usable payload, is the last event of the run, and the run ends in the
    error of that call. *)
Theorem crawl_tree_aborts_on_fetch_failure E tree path st st' r pre d post :
  crawl_tree E tree path st = (st', r) →
  trace st' = trace st ++ pre ++ EvFetch d :: post →
  fetch_fails E d = true →
  post = [] ∧ (r = Err FetchError ∨ r = Err NoData).
Proof.
  intros Hrun Htr Hd.
  destruct (steps_crawl_tree E tree path _ _ _ Hrun) as (new & Hnew & Hs).
  rewrite Hnew in Htr. apply app_inv_head in Htr. subst new.
  unfold run_sound in Hs. destruct (is_fetch_failure r) eqn:Hr.
  - destruct Hs as (pre' & d' & Heq & Hd' & Hpre).
    assert (post = []) as ->.
    { destruct post as [|ev post _] using rev_ind; [done|]. exfalso.
      change (EvFetch d :: post ++ [ev]) with ((EvFetch d :: post) ++ [ev]) in Heq.
      rewrite app_assoc in Heq. apply app_inj_tail in Heq as [<- _].
      rewrite fetched_app in Hpre. apply Forall_app in Hpre as [_ Hpre].
      simpl in Hpre. apply Forall_cons in Hpre as [Hpre _]. congruence. }
    split; [done|]. destruct r as [|[]]; try done; auto.
  - exfalso. rewrite fetched_app in Hs. apply Forall_app in Hs as [_ Hs].
    simpl in Hs. apply Forall_cons in Hs as [Hs _]. congruence.
Qed.

(** A response with an empty payload: the request is the only event and the
    run ends in an error. *)
Lemma crawl_tree_aborts_on_fetch_failure_witness :
  @nil event = []
  ∧ ((crawl_tree (sample_env ∅) sample_tree [] empty_state).2 = Err FetchError
     ∨ (crawl_tree (sample_env ∅) sample_tree [] empty_state).2 = Err NoData).
Proof.
  apply (crawl_tree_aborts_on_fetch_failure (sample_env ∅) sample_tree []
           empty_state (crawl_tree (sample_env ∅) sample_tree [] empty_state).1
           _ [] "500" []).
  - apply surjective_pairing.
  - vm_compute. reflexivity.
  - vm_compute. reflexivity.
Defined.

(** C8: the lookup of the local update time takes for a header what is
    none.  A file of notes that does not start with the dashes of a header,
    but holds a block between dashes further down, is read with the update
    time 5.  A file whose header has no number as update time (nothing is
    read from the header alone), followed by a line with an update time and
    a line of dashes, is read with the update time 7.  In both cases the
    lookup does not give [None], and the leaf, whose remote update time is
    3, is left alone: its document is not asked for. *)
Theorem block_read_as_header :
  let E := sample_env (payload "Auth" "body") in
  (starts_with "---" notes_text = false
   ∧ extract_update_time_from_mdx (fs notes_state) auth_path = Some 5%Z
   ∧ crawl_node E [VStr "API"] auth_early notes_state
     = (notes_state, Ok [VStr "API"; VStr "Auth"]))
  ∧ (parse_update_time malformed_header = None
     ∧ extract_update_time_from_mdx (fs malformed_state) auth_path = Some 7%Z
     ∧ crawl_node E [VStr "API"] auth_early malformed_state
       = (malformed_state, Ok [VStr "API"; VStr "Auth"])).
Proof. vm_compute. repeat split. Qed.

(** C9: the artifact composed for an empty body is not always read as one
    without a header.  With an empty body and a title that holds a line
    break and a block between dashes of its own, the artifact written is the
    heading and the placeholder line, with no header before them, and yet
    it is read back with the update time 5; the second run, with the remote
    update time 3, does not ask for the document again. *)
Theorem heading_read_as_header :
  let E := sample_env (payload header_title "") in
  let run1 := crawl_tree E early_tree [] empty_state in
  let run2 := crawl_tree E early_tree [] run1.1 in
  run1.2 = Ok tt ∧ fetched (trace run1.1) = ["500"]
  ∧ fs run1.1 !! auth_path
    = Some (Text ("# " +:+ header_title +:+ nl +:+ nl
                  +:+ "*No content available*" +:+ nl))
  ∧ extract_update_time_from_mdx (fs run1.1) auth_path = Some 5%Z
  ∧ run2.2 = Ok tt ∧ fetched (trace run2.1) = ["500"].
Proof. vm_compute. repeat split. Qed.

(** C10: when a record of the list has no key [id], [build_category_tree]
    raises [KeyError] for that key, whatever else the records hold; and when
    every record has the key, the result is that of the loop over the
    records, which does not take the mapping built from the key. *)
Theorem build_category_tree_missing_id (categories : list dict) :
  ((∃ cat, cat ∈ categories ∧ cat !! "id" = None) →
   build_category_tree categories = Err (KeyError "id")) ∧
  ((∀ cat, cat ∈ categories → is_Some (cat !! "id")) →
   build_category_tree categories = build_loop categories FNil).
Proof.
  unfold build_category_tree. split; intros H.
  - by rewrite cat_map_missing_id.
  - by destruct (cat_map_all_ids categories [] H) as [m ->].
Qed.

(** One record of the list without the key is enough. *)
Lemma build_category_tree_missing_id_witness :
  build_category_tree [api; auth_listed] = Err (KeyError "id").
Proof.
  apply (proj1 (build_category_tree_missing_id [api; auth_listed])).
  exists auth_listed. split; [right; left|reflexivity].
Defined.

(** * Further properties of the code *)

(** ** The tree builder on lists of any shape *)

Lemma add_to_tree_absent p c tree :
  p ∉ keys tree → _add_to_tree tree p c = Ok tree.
Proof.
  induction tree as [cat ch IHch| |k n IHn rest IHrest]
    using forest_node_ind
    with (P := λ n, p ∉ keys (children n) →
                    _add_to_tree (children n) p c = Ok (children n)).
  - done.
  - done.
  - destruct n as [c0 ch]. simpl in *. intros Hp.
    apply not_elem_of_cons in Hp as [Hpk Hp].
    apply not_elem_of_app in Hp as [Hpch Hprest].
    rewrite bool_decide_eq_false_2 by done.
    by rewrite IHn, IHrest.
Qed.

Lemma add_to_tree_present_no_id p c tree :
  c !! "category_id" = None → p ∈ keys tree →
  _add_to_tree tree p c = Err (KeyError "category_id").
Proof.
  intros Hc.
  induction tree as [cat ch IHch| |k n IHn rest IHrest]
    using forest_node_ind
    with (P := λ n, p ∈ keys (children n) →
                    _add_to_tree (children n) p c = Err (KeyError "category_id")).
  - done.
  - by intros ?%elem_of_nil.
  - destruct n as [c0 ch]. simpl in *. intros Hp.
    case_bool_decide as Hk; [unfold getitem; by rewrite Hc|].
    apply elem_of_cons in Hp as [Hp|Hp]; [congruence|].
    destruct (decide (p ∈ keys ch)) as [Hch|Hch].
    + by rewrite IHn.
    + rewrite (add_to_tree_absent _ _ _ Hch). simpl.
      apply elem_of_app in Hp as [Hp|Hp]; [done|]. by rewrite IHrest.
Qed.

Lemma add_to_tree_error p c tree e :
  _add_to_tree tree p c = Err e →
  e = KeyError "category_id" ∧ c !! "category_id" = None ∧ p ∈ keys tree.
Proof.
  revert e.
  induction tree as [cat ch IHch| |k n IHn rest IHrest]
    using forest_node_ind
    with (P := λ n, ∀ e, _add_to_tree (children n) p c = Err e →
            e = KeyError "category_id" ∧ c !! "category_id" = None
            ∧ p ∈ keys (children n)).
  - done.
  - done.
  - intros e. destruct n as [c0 ch]. simpl in *.
    case_bool_decide as Hk.
    + unfold getitem. destruct (c !! "category_id") eqn:Hc; [done|].
      intros [= <-]. subst k. repeat split. left.
    + destruct (_add_to_tree ch p c) as [ch'|e1] eqn:E1; simpl.
      * destruct (_add_to_tree rest p c) as [rest'|e2] eqn:E2; simpl; [done|].
        intros [= <-]. destruct (IHrest _ eq_refl) as (-> & ? & ?).
        repeat split; [done|]. right. apply elem_of_app. by right.
      * intros [= <-]. destruct (IHn _ eq_refl) as (-> & ? & ?).
        repeat split; [done|]. right. apply elem_of_app. by left.
Qed.

Lemma build_loop_app pre post tree :
  build_loop (pre ++ post) tree
  = do tree' <- build_loop pre tree; build_loop post tree'.
Proof.
  revert tree. induction pre as [|c cs IH]; intros tree; [done|].
  cbn [app build_loop]. case_bool_decide.
  - destruct (getitem c "category_id"); simpl; [apply IH|done].
  - destruct (_add_to_tree tree _ c); simpl; [apply IH|done].
Qed.

Lemma cat_map_result categories acc :
  (do _ <- cat_map categories acc; Ok tt)
  = if bool_decide (Forall (λ c, is_Some (c !! "id")) categories)
    then Ok tt else Err (KeyError "id").
Proof.
  case_bool_decide as Hall.
  - destruct (cat_map_all_ids categories acc) as [m ->]; [|done].
    intros cat Hin. by apply (proj1 (Forall_forall _ _) Hall).
  - rewrite cat_map_missing_id; [done|].
    apply not_Forall_Exists in Hall; [|apply _].
    apply Exists_exists in Hall as (c & Hin & Hc). exists c. split; [done|].
    by apply eq_None_not_Some.
Qed.

Lemma build_category_tree_unfold categories :
  build_category_tree categories
  = if bool_decide (Forall (λ c, is_Some (c !! "id")) categories)
    then build_loop categories FNil else Err (KeyError "id").
Proof.
  unfold build_category_tree.
  pose proof (cat_map_result categories []) as H.
  destruct (cat_map categories []); simpl in *; case_bool_decide; congruence.
Qed.

(** ** Where the nodes of a built tree sit *)

Lemma setitem_nodes position tree k n x :
  x ∈ nodes_at position (setitem tree k n) →
  x ∈ nodes_at position tree
  ∨ x ∈ nodes_at position (FCons k n FNil).
Proof.
  induction tree as [|k' [c' ch] rest IH] using forest_ind.
  - simpl. auto.
  - cbn [setitem]. case_bool_decide as Hk.
    + subst k'. destruct n as [c ch']. cbn [nodes_at].
      rewrite app_nil_r, !elem_of_cons, !elem_of_app. intros [->|[H|H]]; auto.
    + cbn [nodes_at]. rewrite !elem_of_cons, !elem_of_app.
      intros [->|[H|H]]; auto. destruct (IH H); auto.
Qed.

Lemma add_to_tree_nodes p c tree :
  ∀ position tree' x,
    _add_to_tree tree p c = Ok tree' →
    x ∈ nodes_at position tree' →
    x ∈ nodes_at position tree
    ∨ ∃ pos' k, x = (pos' ++ [p], k, c) ∧ c !! "category_id" = Some k.
Proof.
  induction tree as [cat ch IHch| |k n IHn rest IHrest]
    using forest_node_ind
    with (P := λ n, ∀ position tree' x,
            _add_to_tree (children n) p c = Ok tree' →
            x ∈ nodes_at position tree' →
            x ∈ nodes_at position (children n)
            ∨ ∃ pos' k, x = (pos' ++ [p], k, c) ∧ c !! "category_id" = Some k).
  - done.
  - intros position tree' x [= <-]. auto.
  - intros position tree' x. destruct n as [c0 ch]. simpl in IHn.
    cbn [_add_to_tree]. case_bool_decide as Hk.
    + unfold getitem. destruct (c !! "category_id") as [k_new|] eqn:Hc; [|done].
      simpl. intros [= <-]. cbn [nodes_at]. subst k.
      rewrite !elem_of_cons, !elem_of_app.
      intros [->|[H|H]]; auto.
      apply setitem_nodes in H as [H|H]; auto.
      simpl in H. apply list_elem_of_singleton in H as ->. right. eauto.
    + destruct (_add_to_tree ch p c) as [ch'|] eqn:E1; [|done].
      destruct (_add_to_tree rest p c) as [rest'|] eqn:E2; [|done].
      simpl. intros [= <-]. cbn [nodes_at].
      rewrite !elem_of_cons, !elem_of_app.
      intros [->|[H|H]]; auto.
      * destruct (IHn _ _ _ eq_refl H); auto.
      * destruct (IHrest _ _ _ eq_refl H); auto.
Qed.

Lemma nodes_at_parent tree :
  ∀ position pos k c,
    (pos, k, c) ∈ nodes_at position tree →
    pos = position
    ∨ ∃ pos' p c', pos = pos' ++ [p] ∧ (pos', p, c') ∈ nodes_at position tree.
Proof.
  induction tree as [cat ch IHch| |k0 n IHn rest IHrest]
    using forest_node_ind
    with (P := λ n, ∀ position pos k c,
            (pos, k, c) ∈ nodes_at position (children n) →
            pos = position
            ∨ ∃ pos' p c', pos = pos' ++ [p]
                ∧ (pos', p, c') ∈ nodes_at position (children n)).
  - done.
  - intros ???? H. by apply elem_of_nil in H.
  - intros position pos k c. destruct n as [c0 ch]. simpl in IHn.
    cbn [nodes_at]. rewrite elem_of_cons, elem_of_app.
    intros [[= -> -> ->]|[H|H]]; [by left| |].
    + right. destruct (IHn _ _ _ _ H) as [->|(pos' & p & c' & -> & Hin)].
      * exists position, k0, c0. split; [done|]. left.
      * exists pos', p, c'. split; [done|]. right. apply elem_of_app. by left.
    + destruct (IHrest _ _ _ _ H) as [->|(pos' & p & c' & -> & Hin)]; [by left|].
      right. exists pos', p, c'. split; [done|]. right. apply elem_of_app. by right.
Qed.

Lemma build_loop_nodes all cats :
  ∀ tree tree',
    cats ⊆ all →
    Forall (node_of_list all) (nodes tree) →
    build_loop cats tree = Ok tree' →
    Forall (node_of_list all) (nodes tree').
Proof.
  induction cats as [|c cs IH]; intros tree tree' Hsub Hinv.
  - by intros [= <-].
  - assert (Hc : c ∈ all) by (apply Hsub; left).
    assert (Hcs : cs ⊆ all) by (intros x Hx; apply Hsub; by right).
    cbn [build_loop]. fold (parent c). case_bool_decide as Hroot.
    + unfold getitem. destruct (c !! "category_id") as [k|] eqn:Hk; [|done].
      simpl. apply IH; [done|]. apply Forall_forall. intros x Hx.
      apply setitem_nodes in Hx as [Hx|Hx].
      * by apply (proj1 (Forall_forall _ _) Hinv).
      * simpl in Hx. apply list_elem_of_singleton in Hx as ->.
        repeat split; auto.
    + destruct (_add_to_tree tree (parent c) c) as [t1|] eqn:Hadd; [|done].
      simpl. apply IH; [done|]. apply Forall_forall. intros x Hx.
      destruct (add_to_tree_nodes _ _ _ _ _ _ Hadd Hx)
        as [Hold|(pos' & k & -> & Hk)].
      * by apply (proj1 (Forall_forall _ _) Hinv).
      * repeat split; eauto.
Qed.

Lemma build_loop_error cats :
  ∀ tree e, build_loop cats tree = Err e →
    e = KeyError "category_id" ∧ ∃ c, c ∈ cats ∧ c !! "category_id" = None.
Proof.
  induction cats as [|c cs IH]; intros tree e; [done|].
  cbn [build_loop]. case_bool_decide as Hroot.
  - unfold getitem. destruct (c !! "category_id") as [k|] eqn:Hk; simpl.
    + intros H. destruct (IH _ _ H) as (-> & c' & Hin & Hc').
      split; [done|]. exists c'. split; [by right|done].
    + intros [= <-]. split; [done|]. exists c. split; [left|done].
  - destruct (_add_to_tree tree _ c) as [t1|e1] eqn:Hadd; simpl.
    + intros H. destruct (IH _ _ H) as (-> & c' & Hin & Hc').
      split; [done|]. exists c'. split; [by right|done].
    + intros [= <-]. destruct (add_to_tree_error _ _ _ _ Hadd) as (-> & Hc & _).
      split; [done|]. exists c. split; [left|done].
Qed.

(** X1: a record with a parent id other than 0 that no node carries in the
    tree of the records before it is left out without an error: the builder
    gives for the list what it gives for the list without that record,
    whatever follows it, its parent included. *)
Theorem orphan_record_is_dropped pre c post tree :
  build_category_tree pre = Ok tree →
  is_Some (c !! "id") → parent c ≠ VInt 0 → parent c ∉ keys tree →
  build_category_tree (pre ++ c :: post) = build_category_tree (pre ++ post).
Proof.
  intros Hpre Hid Hp Hkeys. rewrite build_category_tree_unfold in Hpre.
  destruct (bool_decide _) in Hpre; [|done]. rewrite !build_category_tree_unfold.
  rewrite !build_loop_app, Hpre. cbn [bind build_loop]. fold (parent c).
  rewrite (bool_decide_eq_false_2 (parent c = VInt 0)) by done.
  rewrite add_to_tree_absent by done. cbn [bind].
  apply (f_equal (λ b : bool, if b then build_loop post tree else Err (KeyError "id"))).
  apply bool_decide_ext. rewrite !Forall_app, Forall_cons. tauto.
Qed.

(** The stray record between the two records of the corpus changes nothing. *)
Lemma orphan_record_is_dropped_witness :
  build_category_tree ([api] ++ stray :: [auth]) = build_category_tree ([api] ++ [auth]).
Proof.
  apply (orphan_record_is_dropped [api] stray [auth]
           (FCons (VInt 1) (Node api FNil) FNil)).
  - reflexivity.
  - by exists (VInt 3).
  - vm_compute. discriminate.
  - vm_compute. by intros ?%list_elem_of_singleton.
Defined.

(** X2: whatever the list (any order, repeated ids, parents that are
    missing), every node of a tree the builder returns holds a record of the
    list under the key of that record's [category_id], at the top when the
    record's parent id is 0 and else right under a node whose key is that
    parent id. *)
Theorem build_category_tree_nodes cats tree :
  build_category_tree cats = Ok tree →
  chained (nodes tree)
  ∧ ∀ pos k c, (pos, k, c) ∈ nodes tree → c ∈ cats ∧ c !! "category_id" = Some k.
Proof.
  rewrite build_category_tree_unfold. case_bool_decide; [|done]. intros Hloop.
  assert (Hinv : Forall (node_of_list cats) (nodes tree)).
  { by apply (build_loop_nodes cats cats FNil tree). }
  rewrite Forall_forall in Hinv. split.
  - intros pos k c Hin. destruct (Hinv _ Hin) as (_ & Hk & Hpos). simpl in *.
    split; [symmetry; by apply cid_lookup|].
    destruct Hpos as [[? ?]|[Hp [pos1 ->]]]; [by left|right]. split; [done|].
    destruct (nodes_at_parent _ _ _ _ _ Hin) as [Hnil|(pos' & p & c' & Heq & Hin')].
    + by destruct pos1.
    + apply app_inj_tail in Heq as [-> <-]. eauto.
  - intros pos k c Hin. by destruct (Hinv _ Hin) as (? & ? & _).
Qed.

(** The tree of the corpus. *)
Lemma build_category_tree_nodes_witness : chained (nodes sample_tree).
Proof.
  apply (proj1 (build_category_tree_nodes [api; auth] sample_tree eq_refl)).
Defined.

(** X3: the builder raises nothing but [KeyError], for the key [id] or the
    key [category_id], and only when a record of the list lacks that key. *)
Theorem build_category_tree_errors cats e :
  build_category_tree cats = Err e →
  e = KeyError "id" ∧ (∃ c, c ∈ cats ∧ c !! "id" = None)
  ∨ e = KeyError "category_id" ∧ (∃ c, c ∈ cats ∧ c !! "category_id" = None).
Proof.
  rewrite build_category_tree_unfold. case_bool_decide as Hall.
  - intros H. right. by apply build_loop_error in H.
  - intros [= <-]. left. split; [done|].
    apply not_Forall_Exists in Hall; [|apply _].
    apply Exists_exists in Hall as (c & Hin & Hc). exists c. split; [done|].
    by apply eq_None_not_Some.
Qed.

(** The records of the scenario as the specification lists them: the error
    is that of the key [id], which one of them lacks. *)
Lemma build_category_tree_errors_witness :
  ∃ c, c ∈ [api_listed; auth_listed] ∧ c !! "id" = None.
Proof.
  destruct (build_category_tree_errors [api_listed; auth_listed] (KeyError "id")
              eq_refl) as [[_ H]|[H _]]; [exact H|discriminate H].
Defined.

(** X4: when every record of the list has the keys [id] and [category_id],
    the builder returns a tree, whatever the order of the records, their
    parent ids and the ids that come twice. *)
Theorem build_category_tree_total cats :
  Forall (λ c, is_Some (c !! "id") ∧ is_Some (c !! "category_id")) cats →
  ∃ tree, build_category_tree cats = Ok tree.
Proof.
  intros Hall. rewrite build_category_tree_unfold.
  rewrite bool_decide_eq_true_2
    by (eapply Forall_impl; [exact Hall|]; by intros c [? _]).
  destruct (build_loop cats FNil) as [tree|e] eqn:Hloop; [by exists tree|].
  apply build_loop_error in Hloop as (_ & c & Hin & Hc).
  rewrite Forall_forall in Hall. destruct (Hall c Hin) as [_ [k Hk]]. congruence.
Qed.

(** A child listed before its parent, and then the stray record. *)
Lemma build_category_tree_total_witness :
  ∃ tree, build_category_tree [auth; api; stray] = Ok tree.
Proof.
  apply (build_category_tree_total [auth; api; stray]).
  repeat constructor; by eexists.
Defined.

(** ** Cleaning a path component *)

Lemma re_sub_special_plain s :
  all_chars (λ c, negb (special c)) s = true → re_sub_special s = s.
Proof.
  induction s as [|c s IH]; simpl; [done|].
  intros [Hc Hs]%andb_true_iff. apply negb_true_iff in Hc. rewrite Hc.
  by rewrite IH.
Qed.

Lemma rstrip_rstrip s : rstrip (rstrip s) = rstrip s.
Proof.
  induction s as [|c s IH]; simpl; [done|].
  destruct (rstrip s) as [|d r] eqn:Hr.
  - destruct (is_space c) eqn:Hc; simpl; [done|]. by rewrite Hc.
  - change (rstrip (String c (String d r))
            = String c (String d r)).
    cbn [rstrip] in IH |- *. by rewrite IH.
Qed.

Lemma lstrip_head s : head_not is_space (lstrip s) = true.
Proof.
  induction s as [|c s IH]; simpl; [done|].
  destruct (is_space c) eqn:Hc; [done|]. simpl. by rewrite Hc.
Qed.

Lemma rstrip_head s :
  head_not is_space s = true → head_not is_space (rstrip s) = true.
Proof.
  destruct s as [|c s]; simpl; [done|]. intros Hc.
  destruct (rstrip s); [|done]. apply negb_true_iff in Hc. rewrite Hc. simpl.
  by rewrite Hc.
Qed.

Lemma lstrip_plain s : head_not is_space s = true → lstrip s = s.
Proof.
  destruct s as [|c s]; simpl; [done|]. by intros ->%negb_true_iff.
Qed.

Lemma strip_strip s : strip (strip s) = strip s.
Proof.
  unfold strip.
  rewrite (lstrip_plain (rstrip (lstrip s))) by apply rstrip_head, lstrip_head.
  apply rstrip_rstrip.
Qed.

Lemma lstrip_spaces s : all_chars is_space s = true → lstrip s = "".
Proof.
  induction s as [|c s IH]; simpl; [done|].
  intros [Hc Hs]%andb_true_iff. rewrite Hc. auto.
Qed.

Lemma re_sub_special_blank s :
  all_chars blank s = true → all_chars is_space (re_sub_special s) = true.
Proof.
  induction s as [|c s IH]; simpl; [done|].
  intros [Hc Hs]%andb_true_iff. unfold blank in Hc.
  destruct (special c); simpl in *; [auto|]. by rewrite Hc, IH.
Qed.

Lemma clean_blank s : all_chars blank s = true → clean s = "".
Proof.
  intros H. unfold clean, strip.
  by rewrite lstrip_spaces by by apply re_sub_special_blank.
Qed.

(** X5: cleaning a path component as [generate_file_path] does, a second
    time, changes nothing. *)
Theorem clean_idempotent s : clean (clean s) = clean s.
Proof.
  unfold clean at 1. rewrite re_sub_special_plain by apply clean_no_special.
  unfold clean. apply strip_strip.
Qed.

(** X6: an ancestor title made only of the nine characters and of
    whitespace adds no directory: the path is the one for the ancestors
    without it, so the documents below it land in the directory of its
    parent. *)
Theorem blank_ancestor_adds_no_directory output_dir before t after title :
  all_chars blank t = true →
  generate_file_path output_dir (before ++ t :: after) title
  = generate_file_path output_dir (before ++ after) title.
Proof.
  intros Ht. unfold generate_file_path.
  rewrite !fmap_app, !fmap_cons, !concat_app, concat_cons.
  by rewrite (clean_blank t Ht).
Qed.

(** An ancestor titled with question marks. *)
Lemma blank_ancestor_adds_no_directory_witness :
  generate_file_path ["docs"] (["API"] ++ "?? ?" :: ["v2"]) "Auth"
  = generate_file_path ["docs"] (["API"] ++ ["v2"]) "Auth".
Proof.
  apply (blank_ancestor_adds_no_directory ["docs"] ["API"] "?? ?" ["v2"] "Auth").
  reflexivity.
Defined.

(** ** The matcher finds whatever the pattern describes *)

Lemma last_char_snoc prev b c : last_char prev (b +:+ String c "") = Some c.
Proof. revert prev. induction b as [|d b IH]; intros prev; simpl; [done|apply IH]. Qed.

Lemma read_lit_last l prev s : read_lit l prev (l +:+ s) = Some (last_char prev l, s).
Proof.
  revert prev. induction l as [|c l IH]; intros prev; simpl; [done|].
  rewrite Ascii.eqb_refl. apply IH.
Qed.

Section Complete.
Context {R : Type}.
Implicit Types (k : @cont R) (p : ascii → bool).

Lemma star_greedy_complete p k prev a b :
  all_chars p a = true → is_Some (k (last_char prev a) b) →
  is_Some (star_greedy p k prev (a +:+ b)).
Proof.
  revert prev. induction a as [|c a IH]; intros prev Ha Hk.
  - simpl in *. destruct b as [|c b]; simpl; [done|].
    destruct (p c); [|done]. by destruct (star_greedy p k (Some c) b).
  - simpl in Ha. apply andb_true_iff in Ha as [Hc Ha].
    change (String c a +:+ b) with (String c (a +:+ b)). cbn [star_greedy].
    rewrite Hc. destruct (IH (Some c) Ha Hk) as [r ->]. by eexists.
Qed.

Lemma star_lazy_complete p k prev a b :
  all_chars p a = true → is_Some (k (last_char prev a) b) →
  is_Some (star_lazy p k prev (a +:+ b)).
Proof.
  revert prev. induction a as [|c a IH]; intros prev Ha Hk.
  - simpl in *. destruct Hk as [r Hk]. exists r. by apply star_lazy_now.
  - simpl in Ha. apply andb_true_iff in Ha as [Hc Ha].
    change (String c a +:+ b) with (String c (a +:+ b)). cbn [star_lazy].
    destruct (k prev (String c (a +:+ b))); [by eexists|].
    rewrite Hc. by apply IH.
Qed.

Lemma plus_capture_complete p (k : string → @cont R) acc prev a b :
  a ≠ "" → all_chars p a = true →
  is_Some (k (acc +:+ a) (last_char prev a) b) →
  is_Some (plus_capture p k acc prev (a +:+ b)).
Proof.
  revert acc prev. induction a as [|c a IH]; intros acc prev Hne Ha Hk; [done|].
  simpl in Ha. apply andb_true_iff in Ha as [Hc Ha].
  change (String c a +:+ b) with (String c (a +:+ b)). cbn [plus_capture].
  rewrite Hc. destruct a as [|d a].
  - simpl in *. by destruct (plus_capture p k (acc +:+ String c "") (Some c) b).
  - destruct (IH (acc +:+ String c "") (Some c)) as [r ->]; try done.
    by rewrite sapp_assoc.
Qed.
End Complete.

Lemma search_from_complete r prev before after :
  is_Some (match_here r None (last_char prev before) after) →
  is_Some (search_from r prev (before +:+ after)).
Proof.
  revert prev. induction before as [|c before IH]; intros prev Hm.
  - simpl in *. destruct Hm as [m Hm]. exists m. by apply search_from_now.
  - change (String c before +:+ after) with (String c (before +:+ after)).
    cbn [search_from].
    destruct (match_here r None prev (String c (before +:+ after))); [by eexists|].
    by apply IH.
Qed.

(** What a match of the pattern of the header captures. *)
Lemma frontmatter_group content m :
  re_search frontmatter_pattern content = Some m →
  has_header content ∧ ∃ g, m = Some g ∧ g ≠ "" ∧ all_chars is_digit g = true.
Proof.
  unfold re_search. intros Hs.
  apply search_from_split in Hs as (before & s0 & prev' & -> & Hm & Hb).
  unfold frontmatter_pattern in Hm. cbn [match_here] in Hm.
  destruct (at_line_start prev') eqn:Hbol; [|done].
  destruct (read_lit "---" prev' s0) as [[q1 s1]|] eqn:H1; [|done].
  apply read_lit_split in H1 as ->.
  apply star_greedy_split in Hm as (ws1 & s2 & q2 & -> & Hws1 & Hm).
  destruct (read_lit nl q2 s2) as [[q3 s3]|] eqn:H3; [|done].
  apply read_lit_split in H3 as ->.
  apply star_lazy_split in Hm as (skipped & s4 & q4 & -> & _ & Hm).
  destruct (read_lit "update_time:" q4 s4) as [[q5 s5]|] eqn:H5; [|done].
  apply read_lit_split in H5 as ->.
  apply star_greedy_split in Hm as (ws2 & s6 & q6 & -> & Hws2 & Hm).
  apply plus_capture_split in Hm as (digits & s7 & q7 & -> & Hne & Hdig & Hm).
  apply star_lazy_split in Hm as (skipped' & s8 & q8 & -> & _ & Hm).
  destruct (read_lit (nl +:+ "---") q8 s8) as [[q9 s9]|] eqn:H9; [|done].
  apply read_lit_split in H9 as ->. injection Hm as <-.
  split.
  - exists before, ws1, skipped, ws2, digits, skipped', s9.
    repeat split; try done.
    destruct Hb as [[-> _]|(b & c & -> & ->)]; [by left|right].
    simpl in Hbol. apply Ascii.eqb_eq in Hbol as ->. by exists b.
  - by exists digits.
Qed.

Lemma all_chars_any s : all_chars any_char s = true.
Proof. by induction s. Qed.

Lemma has_header_found content :
  has_header content → is_Some (re_search frontmatter_pattern content).
Proof.
  intros (before & ws1 & skipped & ws2 & digits & skipped' & after
          & -> & Hb & Hws1 & Hws2 & Hne & Hdig).
  unfold re_search. apply search_from_complete.
  unfold frontmatter_pattern. cbn [match_here].
  assert (at_line_start (last_char None before) = true) as ->.
  { destruct Hb as [->|[b ->]]; [done|]. unfold nl. by rewrite last_char_snoc. }
  rewrite read_lit_last. apply star_greedy_complete; [done|].
  rewrite read_lit_last. apply star_lazy_complete; [apply all_chars_any|].
  rewrite read_lit_last. apply star_greedy_complete; [done|].
  apply plus_capture_complete; [done..|].
  apply star_lazy_complete; [apply all_chars_any|].
  rewrite <- (sapp_assoc nl "---" after), read_lit_last. by eexists.
Qed.

(** X7: the pattern of [extract_update_time_from_mdx] is found in a text
    exactly when the text holds a header (three dashes at the start of a
    line, further on the field [update_time:] with a number, further on a
    line that starts with three dashes); what it captures is then a
    non-empty run of digits, and the update time read is the number they
    spell. *)
Theorem frontmatter_pattern_finds_headers content :
  has_header content
  ↔ ∃ g, re_search frontmatter_pattern content = Some (Some g)
         ∧ g ≠ "" ∧ all_chars is_digit g = true
         ∧ parse_update_time content = py_int g.
Proof.
  split.
  - intros [m Hm]%has_header_found.
    destruct (frontmatter_group _ _ Hm) as (_ & g & -> & ? & ?).
    exists g. unfold parse_update_time. by rewrite Hm.
  - intros (g & Hm & _). by destruct (frontmatter_group _ _ Hm).
Qed.

(** ** What a node adds to a run *)

Lemma py_gt_zero v : py_gt v (VInt 0) = Ok true → ∃ n, v = VInt n ∧ (0 < n)%Z.
Proof.
  destruct v as [n|s]; simpl; [|done]. intros [= H]. exists n. split; [done|lia].
Qed.

Lemma py_gt_zero_error v e : py_gt v (VInt 0) = Err e → e = TypeError.
Proof. destruct v; simpl; congruence. Qed.

Lemma as_str_error v e : as_str v = Err e → e = TypeError.
Proof. destruct v; simpl; congruence. Qed.

Lemma as_str_Ok v s : as_str v = Ok s → v = VStr s.
Proof. destruct v; simpl; congruence. Qed.

Lemma as_strs_error vs e : as_strs vs = Err e → e = TypeError.
Proof.
  induction vs as [|v vs IH]; simpl; [done|].
  destruct (as_str v) eqn:Hv; simpl; [|intros [= <-]; by eapply as_str_error].
  destruct (as_strs vs); simpl; [done|]. intros [= <-]. by apply IH.
Qed.

Lemma needs_update_error fs p t e : needs_update fs p t = Err e → e = TypeError.
Proof.
  unfold needs_update. destruct (exists_path fs p); [|done].
  destruct (extract_update_time_from_mdx fs p); [|done].
  destruct t; simpl; congruence.
Qed.

Lemma md_to_mdx_error now c t i u e : md_to_mdx now c t i u = Err e → e = TypeError.
Proof.
  unfold md_to_mdx. destruct (negb (truthy c)); [done|]. destruct c; congruence.
Qed.

(** The four ways a node goes: nothing happens (no leaf, a leaf that is up
    to date, or an error before the request); the request is made and the
    node raises; the document is fetched and saved; the document is fetched
    and the write fails, before the file is open or after. *)
Lemma crawl_node_cases E path cat st st' r :
  crawl_node E path cat st = (st', r) →
  (st' = st
   ∧ (r = Err (KeyError "title") ∨ r = Err TypeError
      ∨ ∃ title, cat !! "title" = Some title ∧ r = Ok (path ++ [title])))
  ∨ ∃ n title p, leaf_of E path cat n title p ∧
      needs_update (fs st) p (get cat "time" (VInt 0)) = Ok true ∧
      ((st' = log (EvFetch (py_str (VInt n))) st
        ∧ (r = Err FetchError ∨ r = Err NoData ∨ r = Err TypeError
           ∨ r = Err (KeyError "category_id") ∧ cat !! "category_id" = None))
       ∨ (∃ text, can_write E (fs st) p = true
            ∧ st' = {| fs := <[resolve p := Text text]> (fs st);
                       trace := trace st ++ saved (py_str (VInt n)) p text |}
            ∧ r = Ok (path ++ [title]))
       ∨ (∃ text, can_write E (fs st) p = false
            ∧ st' = {| fs := match cut_short E (fs st) p with
                             | None => fs st
                             | Some bytes =>
                                 <[resolve p := cut_text bytes text]> (fs st)
                             end;
                       trace := trace st ++ not_saved (py_str (VInt n)) p |}
            ∧ r = Ok (path ++ [title]))).
Proof.
  unfold crawl_node, crawl_leaf, save_artifact, save_document, sleep,
    fetch_document_content, bindM, lift, ret, raise, getitem.
  destruct (cat !! "title") as [title|] eqn:Ht;
    [|intros [= <- <-]; left; auto].
  destruct (py_gt (get cat "doc_id" (VInt 0)) (VInt 0)) as [[|]|e] eqn:Hleaf.
  2:{ intros [= <- <-]. left. eauto 6. }
  2:{ intros [= <- <-]. apply py_gt_zero_error in Hleaf as ->. left. auto. }
  destruct (as_strs path) as [cp|e] eqn:Hcp.
  2:{ intros [= <- <-]. apply as_strs_error in Hcp as ->. left. auto. }
  destruct (as_str title) as [own|e] eqn:Hown.
  2:{ intros [= <- <-]. apply as_str_error in Hown as ->. left. auto. }
  apply as_str_Ok in Hown as ->.
  apply py_gt_zero in Hleaf as (n & Hn & Hpos).
  unfold get in Hn. destruct (cat !! "doc_id") as [doc_id|] eqn:Hdoc; [|by simplify_eq].
  subst doc_id.
  destruct (needs_update _ _ _) as [[|]|e] eqn:Hstale.
  2:{ intros [= <- <-]. left. eauto 6. }
  2:{ intros [= <- <-]. apply needs_update_error in Hstale as ->. left. auto. }
  set (p := generate_file_path (output_dir E) cp own).
  assert (Hl : leaf_of E path cat n (VStr own) p).
  { repeat split; try done. by exists cp, own. }
  intros Hrun. right. exists n, (VStr own), p. split; [done|]. split; [done|].
  destruct (remote E (py_str (VInt n))) as [|[data|]] eqn:Hrem.
  { injection Hrun as <- <-. left. auto. }
  2:{ injection Hrun as <- <-. left. auto. }
  destruct (bool_decide (data = ∅)) eqn:Hemp.
  { injection Hrun as <- <-. left. auto. }
  destruct (cat !! "category_id") as [k|] eqn:Hk.
  2:{ injection Hrun as <- <-. left. auto 6. }
  destruct (md_to_mdx _ _ _ _ _) as [text|e] eqn:Hmdx.
  2:{ injection Hrun as <- <-. apply md_to_mdx_error in Hmdx as ->. left. auto 6. }
  change (fs (log (EvFetch (py_str (VInt n))) st)) with (fs st) in Hrun.
  destruct (can_write E (fs st) p) eqn:Hw.
  - injection Hrun as <- <-. right. left. exists text. split; [done|].
    split; [|done]. unfold log, saved. simpl. by rewrite <- !app_assoc.
  - right. right. exists text. split; [done|].
    destruct (cut_short E (fs st) p); injection Hrun as <- <-; (split; [|done]);
      unfold log, not_saved; simpl; by rewrite <- !app_assoc.
Qed.

(** ** What holds of every run of the traversal *)

Lemma crawl_tree_inv E (P : dict → Prop) (Q : list val → Prop)
    (I : state → state → option exn → Prop) :
  (∀ st, I st st None) →
  (∀ a b c e, I a b None → I b c e → I a c e) →
  (∀ path cat st st' r, Q path → P cat →
     crawl_node E path cat st = (st', r) →
     I st st' (err_of r) ∧ ∀ cp, r = Ok cp → Q cp) →
  ∀ tree, tree_forall P tree →
    ∀ path st st' r, Q path →
      crawl_tree E tree path st = (st', r) → I st st' (err_of r).
Proof.
  intros Hrefl Htrans Hnode.
  induction tree as [cat ch IHch| |k n IHn rest IHrest]
    using forest_node_ind
    with (P := λ n, tree_forall P (children n) →
            ∀ path st st' r, Q path →
              crawl_tree E (children n) path st = (st', r) → I st st' (err_of r)).
  - done.
  - intros _ path st st' r _ [= <- <-]. apply Hrefl.
  - destruct n as [cat ch]. simpl in IHn.
    intros (Hcat & Hch & Hrest) path st st' r Hpath.
    cbn [crawl_tree]. unfold bindM at 1.
    destruct (crawl_node E path cat st) as [st1 [cp|e]] eqn:Hn.
    2:{ intros [= <- <-]. by destruct (Hnode _ _ _ _ _ Hpath Hcat Hn). }
    destruct (Hnode _ _ _ _ _ Hpath Hcat Hn) as [H1 Hcp].
    specialize (Hcp cp eq_refl). simpl in H1.
    unfold bindM at 1.
    destruct (is_empty ch).
    + unfold ret at 1. intros Hrun. eapply Htrans; [exact H1|].
      exact (IHrest Hrest _ _ _ _ Hpath Hrun).
    + destruct (crawl_tree E ch cp st1) as [st2 [[]|e]] eqn:Hc.
      * intros Hrun. eapply Htrans; [exact H1|]. eapply Htrans.
        -- exact (IHn Hch _ _ _ _ Hcp Hc).
        -- exact (IHrest Hrest _ _ _ _ Hpath Hrun).
      * intros [= <- <-]. eapply Htrans; [exact H1|].
        exact (IHn Hch _ _ _ _ Hcp Hc).
Qed.

Lemma tree_forall_True tree : tree_forall (λ _, True) tree.
Proof.
  induction tree as [cat ch IHch| |k n IHn rest IHrest]
    using forest_node_ind
    with (P := λ n, tree_forall (λ _, True) (children n)); try done.
  by destruct n.
Qed.

(** The invariant of a run that does not look at the records. *)
Lemma crawl_tree_inv_any E (I : state → state → option exn → Prop) :
  (∀ st, I st st None) →
  (∀ a b c e, I a b None → I b c e → I a c e) →
  (∀ path cat st st' r, crawl_node E path cat st = (st', r) → I st st' (err_of r)) →
  ∀ tree path st, I st (crawl_tree E tree path st).1 (err_of (crawl_tree E tree path st).2).
Proof.
  intros Hrefl Htrans Hnode tree path st.
  apply (crawl_tree_inv E (λ _, True) (λ _, True) I Hrefl Htrans) with tree path;
    [|apply tree_forall_True|done|by destruct (crawl_tree E tree path st)].
  intros ??????? Hrun. split; [by eapply Hnode|done].
Qed.

Lemma rounds_app a b : rounds a = true → rounds (a ++ b) = rounds b.
Proof.
  assert (H : ∀ n a, length a ≤ n → rounds a = true → rounds (a ++ b) = rounds b).
  { induction n as [|n IH]; intros a' Hlen Ha.
    - by destruct a'; [|simpl in Hlen; lia].
    - destruct a' as [|[d|p0 c0|p0|] [|[d'|p c|p|] [|[d''|p' c'|p'|] rest]]];
        simpl in Ha; try done; simpl; apply IH; simpl in Hlen; try done; lia. }
  by apply (H (length a)).
Qed.

(** X8: what a run of the traversal adds to the trace is a sequence of
    rounds, each a request followed by one write, done or failed, and one
    delay; when the run raises, the sequence may end with the request the
    error came after.  So the delay follows a failed write as well, and no
    delay is made for a leaf that is skipped. *)
Theorem crawl_tree_rounds E tree path st :
  ∃ new,
    trace (crawl_tree E tree path st).1 = trace st ++ new
    ∧ match (crawl_tree E tree path st).2 with
      | Ok _ => rounds new = true
      | Err _ => rounds new = true
                 ∨ ∃ pre d, new = pre ++ [EvFetch d] ∧ rounds pre = true
      end.
Proof.
  set (I := λ (a b : state) (e : option exn),
         ∃ new, trace b = trace a ++ new
           ∧ match e with
             | None => rounds new = true
             | Some _ => rounds new = true
                         ∨ ∃ pre d, new = pre ++ [EvFetch d] ∧ rounds pre = true
             end).
  assert (H : I st (crawl_tree E tree path st).1
                (err_of (crawl_tree E tree path st).2)).
  { apply crawl_tree_inv_any.
    - intros a. exists []. by rewrite app_nil_r.
    - intros a b c e (n1 & H1 & R1) (n2 & H2 & R2). exists (n1 ++ n2).
      split; [by rewrite H2, H1, app_assoc|].
      destruct e; rewrite ?rounds_app by done; [|done].
      destruct R2 as [R2|(pre & d & -> & R2)]; [by left|right].
      exists (n1 ++ pre), d. by rewrite app_assoc, rounds_app.
    - intros p cat a b r Hn.
      destruct (crawl_node_cases _ _ _ _ _ _ Hn)
        as [[-> Hr]|(n & title & fp & _ & _
                     & [[-> Hr]|[(text & _ & -> & ->)|(text & _ & -> & ->)]])].
      + exists []. rewrite app_nil_r. split; [done|]. by destruct r; [|left].
      + exists [EvFetch (py_str (VInt n))]. split; [done|].
        destruct Hr as [->|[->|[->|[-> _]]]]; right; by exists [], (py_str (VInt n)).
      + by eexists.
      + by eexists. }
  destruct H as (new & Hnew & Hr). exists new. split; [done|].
  by destruct (crawl_tree E tree path st).2.
Qed.

(** X9: a run of the traversal leaves every file as it was, except at
    paths that [generate_file_path] gave for the output directory: there a
    file ends up with the whole text of a write, or, after a write that
    failed once the file was open, with the first bytes of the text that
    was to be written.  No file is removed. *)
Theorem crawl_tree_changes_artifacts_only E tree path st k :
  fs (crawl_tree E tree path st).1 !! k = fs st !! k
  ∨ ∃ category_path title text,
      k = resolve (generate_file_path (output_dir E) category_path title)
      ∧ (fs (crawl_tree E tree path st).1 !! k = Some (Text text)
         ∨ ∃ bytes, fs (crawl_tree E tree path st).1 !! k
                    = Some (cut_text bytes text)).
Proof.
  set (I := λ (a b : state) (_ : option exn),
         ∀ k, fs b !! k = fs a !! k
           ∨ ∃ category_path title text,
               k = resolve (generate_file_path (output_dir E) category_path title)
               ∧ (fs b !! k = Some (Text text)
                  ∨ ∃ bytes, fs b !! k = Some (cut_text bytes text))).
  assert (H : I st (crawl_tree E tree path st).1
                (err_of (crawl_tree E tree path st).2)); [|apply H].
  apply crawl_tree_inv_any.
  - intros a k'. by left.
  - intros a b c e H1 H2 k'. destruct (H2 k') as [Heq|Hw]; [|by right].
    rewrite Heq. apply H1.
  - intros p cat a b r Hn k'.
    destruct (crawl_node_cases _ _ _ _ _ _ Hn)
      as [[-> _]|(n & title & fp & Hl & _
                  & [[-> _]|[(text & Hw & -> & _)|(text & Hw & -> & _)]])];
      try by left.
    + destruct Hl as (_ & _ & _ & cp & own & _ & _ & ->). simpl.
      destruct (decide (resolve (generate_file_path (output_dir E) cp own) = k'))
        as [<-|Hne].
      * right. exists cp, own, text. split; [done|]. left.
        by rewrite lookup_insert_eq.
      * left. by rewrite lookup_insert_ne.
    + destruct Hl as (_ & _ & _ & cp & own & _ & _ & ->). simpl.
      destruct (cut_short E (fs a) _) as [bytes|]; [|by left].
      destruct (decide (resolve (generate_file_path (output_dir E) cp own) = k'))
        as [<-|Hne].
      * right. exists cp, own, text. split; [done|]. right. exists bytes.
        by rewrite lookup_insert_eq.
      * left. by rewrite lookup_insert_ne.
Qed.

Lemma leaf_id_leaf (cat : dict) n :
  cat !! "doc_id" = Some (VInt n) → (0 < n)%Z → leaf_id cat = [py_str (VInt n)].
Proof.
  intros Hd Hn. unfold leaf_id, get. rewrite Hd.
  by destruct (Z.ltb_spec 0 n) as [_|?]; [|lia].
Qed.

Lemma leaf_path_leaf E path cat n title p :
  leaf_of E path cat n title p → leaf_path E path cat = [p].
Proof.
  intros (Ht & Hd & Hn & cp & own & Hcp & -> & ->).
  unfold leaf_path. by rewrite (leaf_id_leaf _ _ Hd Hn), Hcp, Ht.
Qed.

Lemma written_app evs evs' : written (evs ++ evs') = written evs ++ written evs'.
Proof. apply omap_app. Qed.

(** What a node adds to the trace: one request at most, for its document,
    and one write at most, to the path of its artifact. *)
Lemma crawl_node_events E path cat st st' r :
  crawl_node E path cat st = (st', r) →
  (∀ cp, r = Ok cp → cp = path ++ [title_of cat])
  ∧ ∃ new, trace st' = trace st ++ new
      ∧ fetched new `sublist_of` leaf_id cat
      ∧ written new `sublist_of` leaf_path E path cat.
Proof.
  intros Hn.
  destruct (crawl_node_cases _ _ _ _ _ _ Hn)
    as [[-> Hr]|(n & title & fp & Hl & _ & Hcase)].
  - split.
    + intros cp ->. destruct Hr as [?|[?|(t & Ht & [= ->])]]; try done.
      unfold title_of, get. by rewrite Ht.
    + exists []. rewrite app_nil_r. split; [done|]. split; apply sublist_nil_l.
  - rewrite (leaf_path_leaf _ _ _ _ _ _ Hl).
    destruct Hl as (Ht & Hd & Hpos & _). rewrite (leaf_id_leaf _ _ Hd Hpos).
    assert (Htitle : title_of cat = title) by (unfold title_of, get; by rewrite Ht).
    destruct Hcase as [[-> Hr]|[(text & _ & -> & ->)|(text & _ & -> & ->)]].
    + split.
      * intros cp ->. by destruct Hr as [?|[?|[?|[? _]]]].
      * eexists. split; [done|]. split; [done|]. apply sublist_nil_l.
    + split; [by intros ? [= <-]; rewrite Htitle|]. by eexists.
    + split; [by intros ? [= <-]; rewrite Htitle|]. by eexists.
Qed.

Lemma crawl_tree_events E tree :
  ∀ path st st' r, crawl_tree E tree path st = (st', r) →
    ∃ new, trace st' = trace st ++ new
      ∧ fetched new `sublist_of` leaves (λ _, leaf_id) tree path
      ∧ written new `sublist_of` leaves (leaf_path E) tree path.
Proof.
  induction tree as [cat ch IHch| |k n IHn rest IHrest]
    using forest_node_ind
    with (P := λ n, ∀ path st st' r,
            crawl_tree E (children n) path st = (st', r) →
            ∃ new, trace st' = trace st ++ new
              ∧ fetched new `sublist_of` leaves (λ _, leaf_id) (children n) path
              ∧ written new `sublist_of` leaves (leaf_path E) (children n) path).
  - done.
  - intros path st st' r [= <- <-]. exists []. by rewrite app_nil_r.
  - destruct n as [cat ch]. simpl in IHn. intros path st st' r.
    cbn [crawl_tree leaves]. unfold bindM at 1.
    destruct (crawl_node E path cat st) as [st1 r1] eqn:Hn.
    destruct (crawl_node_events _ _ _ _ _ _ Hn) as (Hcp & n1 & H1 & F1 & W1).
    destruct r1 as [cp|e].
    2:{ intros [= <- <-]. exists n1. split; [done|].
        rewrite <- (app_nil_r (fetched n1)), <- (app_nil_r (written n1)).
        split; (apply sublist_app; [done|apply sublist_nil_l]). }
    rewrite (Hcp cp eq_refl). unfold bindM at 1.
    assert (Hch : ∃ st2 r2 n2,
      (if is_empty ch then ret tt else crawl_tree E ch (path ++ [title_of cat])) st1
      = (st2, r2)
      ∧ trace st2 = trace st1 ++ n2
      ∧ fetched n2 `sublist_of` leaves (λ _, leaf_id) ch (path ++ [title_of cat])
      ∧ written n2 `sublist_of` leaves (leaf_path E) ch (path ++ [title_of cat])).
    { destruct ch as [|k' n' rest'].
      - exists st1, (Ok tt), []. by rewrite app_nil_r.
      - cbn [is_empty].
        destruct (crawl_tree E (FCons k' n' rest') (path ++ [title_of cat]) st1)
          as [st2 r2] eqn:Hc.
        destruct (IHn _ _ _ _ Hc) as (n2 & H2 & S2). by exists st2, r2, n2. }
    destruct Hch as (st2 & r2 & n2 & -> & H2 & F2 & W2).
    destruct r2 as [[]|e].
    2:{ intros [= <- <-]. exists (n1 ++ n2).
        split; [by rewrite H2, H1, app_assoc|].
        rewrite fetched_app, written_app, !app_assoc.
        rewrite <- (app_nil_r (_ ++ fetched n2)), <- (app_nil_r (_ ++ written n2)).
        split; (apply sublist_app; [by apply sublist_app|apply sublist_nil_l]). }
    intros Hr. destruct (IHrest _ _ _ _ Hr) as (n3 & H3 & F3 & W3).
    exists (n1 ++ n2 ++ n3). split; [by rewrite H3, H2, H1, !app_assoc|].
    rewrite !fetched_app, !written_app. split; by repeat apply sublist_app.
Qed.

(** X10: the documents a run of the traversal asks for are document ids of
    leaves of the tree, in the order of the traversal (a node, then what is
    below it, then the next node), each leaf asked for once at most. *)
Theorem crawl_tree_fetches_leaves_once E tree path st :
  ∃ new,
    trace (crawl_tree E tree path st).1 = trace st ++ new
    ∧ fetched new `sublist_of` leaves (λ _, leaf_id) tree path.
Proof.
  destruct (crawl_tree_events E tree path st (crawl_tree E tree path st).1
              (crawl_tree E tree path st).2) as (new & Hnew & Hf & _).
  - by destruct (crawl_tree E tree path st).
  - by exists new.
Qed.

(** X11: the writes of a run of the traversal, done or failed, go to the
    paths of the artifacts of leaves of the tree, one write at most for a
    leaf, in the order of the traversal: the path of a leaf is the one
    [generate_file_path] gives for the titles of the nodes above it and its
    own title. *)
Theorem crawl_tree_writes_leaf_paths E tree path st :
  ∃ new,
    trace (crawl_tree E tree path st).1 = trace st ++ new
    ∧ written new `sublist_of` leaves (leaf_path E) tree path.
Proof.
  destruct (crawl_tree_events E tree path st (crawl_tree E tree path st).1
              (crawl_tree E tree path st).2) as (new & Hnew & _ & Hw).
  - by destruct (crawl_tree E tree path st).
  - by exists new.
Qed.

Lemma nodes_tree_forall (P : dict → Prop) tree :
  ∀ position, (∀ x, x ∈ nodes_at position tree → P x.2) → tree_forall P tree.
Proof.
  induction tree as [cat ch IHch| |k n IHn rest IHrest]
    using forest_node_ind
    with (P := λ n, ∀ position,
            (∀ x, x ∈ nodes_at position (children n) → P x.2) →
            tree_forall P (children n)).
  - done.
  - done.
  - destruct n as [cat ch]. simpl in IHn. intros position H.
    cbn [nodes_at tree_forall] in *. split; [|split].
    + apply (H (position, k, cat)). left.
    + apply (IHn (position ++ [k])). intros x Hx. apply H. right.
      apply elem_of_app. by left.
    + apply (IHrest position). intros x Hx. apply H. right.
      apply elem_of_app. by right.
Qed.

(** X12: the traversal of a tree the builder returned raises nothing but
    [KeyError] for the key [title], [TypeError], and the two errors of a
    request (the call failed, no data in the response): the key
    [category_id], read when the artifact is composed, is in every record
    of such a tree. *)
Theorem crawl_built_tree_errors E cats tree path st e :
  build_category_tree cats = Ok tree →
  (crawl_tree E tree path st).2 = Err e →
  e = KeyError "title" ∨ e = TypeError ∨ e = FetchError ∨ e = NoData.
Proof.
  rewrite build_category_tree_unfold. case_bool_decide; [|done]. intros Hloop.
  assert (Hinv : Forall (node_of_list cats) (nodes tree)).
  { by apply (build_loop_nodes cats cats FNil tree). }
  assert (Hkeys : tree_forall (λ c, is_Some (c !! "category_id")) tree).
  { apply (nodes_tree_forall _ tree []). intros x Hx.
    rewrite Forall_forall in Hinv. destruct (Hinv x Hx) as (_ & Hk & _). eauto. }
  set (I := λ (_ _ : state) (e : option exn),
         ∀ e', e = Some e' →
           e' = KeyError "title" ∨ e' = TypeError ∨ e' = FetchError ∨ e' = NoData).
  intros Hrun.
  assert (HI : I st (crawl_tree E tree path st).1
                 (err_of (crawl_tree E tree path st).2)).
  { apply (crawl_tree_inv E (λ c, is_Some (c !! "category_id")) (λ _, True) I)
      with tree path; try done.
    - intros p cat a b r _ [kc Hkc] Hn. split; [|done]. intros e' He'.
      destruct (crawl_node_cases _ _ _ _ _ _ Hn)
        as [[_ Hr]|(n & title & fp & _ & _
                    & [[_ Hr]|[(text & _ & _ & ->)|(text & _ & _ & ->)]])];
        try done.
      + destruct Hr as [->|[->|(t & _ & ->)]]; simplify_eq/=; auto.
      + destruct Hr as [->|[->|[->|[-> Hno]]]]; simplify_eq/=; auto.
    - by destruct (crawl_tree E tree path st). }
  apply HI. by rewrite Hrun.
Qed.

(** The corpus, with a remote source that sends an empty payload. *)
Lemma crawl_built_tree_errors_witness :
  NoData = KeyError "title" ∨ NoData = TypeError ∨ NoData = FetchError
  ∨ NoData = NoData.
Proof.
  apply (crawl_built_tree_errors (sample_env ∅) [api; auth] sample_tree []
           empty_state NoData); reflexivity.
Defined.

Lemma as_strs_snoc path cp s :
  as_strs path = Ok cp → as_strs (path ++ [VStr s]) = Ok (cp ++ [s]).
Proof.
  revert cp. induction path as [|v path IH]; intros cp; simpl.
  - by intros [= <-].
  - destruct (as_str v); simpl; [|done].
    destruct (as_strs path) as [ss|]; simpl; [|done].
    intros [= <-]. by rewrite (IH ss).
Qed.

Lemma crawl_node_served E path cat cp st :
  served E cat → as_strs path = Ok cp →
  ∃ st' s, crawl_node E path cat st = (st', Ok (path ++ [VStr s])).
Proof.
  intros ([s Ht] & [n Hn] & [t Htime] & [kc Hkc] & Hremote) Hcp.
  unfold crawl_node, crawl_leaf, save_artifact, save_document, sleep,
    fetch_document_content, bindM, lift, ret, raise, getitem.
  rewrite Ht, Hn. cbn [py_gt].
  destruct (Z.ltb_spec 0 n) as [Hpos|_]; [|by eexists _, s].
  rewrite Hcp. cbn [as_str].
  unfold get in Hn. destruct (cat !! "doc_id") as [d|] eqn:Hd; [subst d|simplify_eq; lia].
  rewrite Htime.
  assert (Hs : ∃ stale, needs_update (fs st)
             (generate_file_path (output_dir E) cp s) (VInt t) = Ok stale).
  { unfold needs_update. destruct (exists_path _ _); [|by eexists].
    destruct (extract_update_time_from_mdx _ _); by eexists. }
  destruct Hs as [stale ->]. destruct stale; [|by eexists _, s].
  destruct (Hremote n eq_refl Hpos) as (data & -> & Hne & body & Hbody).
  rewrite bool_decide_eq_false_2 by done. rewrite Hkc, Hbody.
  assert (Hm : ∃ text, md_to_mdx
     (strftime (clock E (length (trace (log (EvFetch (py_str (VInt n))) st)))))
     (VStr body) (get data "title" (VStr s)) kc (VInt t) = Ok text).
  { unfold md_to_mdx. destruct (negb (truthy (VStr body))); by eexists. }
  destruct Hm as [text ->].
  destruct (can_write E _ _); [|destruct (cut_short E _ _)]; by eexists _, s.
Qed.

Lemma crawl_tree_served E tree path category_path st :
  tree_forall (served E) tree →
  as_strs path = Ok category_path →
  err_of (crawl_tree E tree path st).2 = None.
Proof.
  intros Htree Hpath.
  apply (crawl_tree_inv E (served E) (λ p, ∃ cp, as_strs p = Ok cp)
           (λ _ _ e, e = None))
    with tree path st (crawl_tree E tree path st).1; try done.
  - intros p cat a b r [cp Hcp] Hcat Hn.
    destruct (crawl_node_served E p cat cp a Hcat Hcp) as (b' & s & Hrun).
    rewrite Hrun in Hn. injection Hn as <- <-. split; [done|].
    intros ? [= <-]. exists (cp ++ [s]). by apply as_strs_snoc.
  - by eexists.
  - by destruct (crawl_tree E tree path st).
Qed.

(** X13: when every record of the tree has a text as title, integers as
    document id and update time where it has them and the key
    [category_id], and the remote source answers the request for every leaf
    with a payload whose body, when it has one, is a text, then the
    traversal ends without an error, whether the writes succeed or fail. *)
Theorem crawl_tree_ends_normally E tree path category_path st :
  tree_forall (served E) tree →
  as_strs path = Ok category_path →
  (crawl_tree E tree path st).2 = Ok tt.
Proof.
  intros Htree Hpath.
  pose proof (crawl_tree_served E tree path category_path st Htree Hpath) as H.
  by destruct (crawl_tree E tree path st).2 as [[]|].
Qed.

Lemma sample_served :
  Forall (served (sample_env (payload "Auth" "body"))) [api; auth].
Proof.
  repeat constructor.
  - by exists "API".
  - by exists 0%Z.
  - by exists 0%Z.
  - by exists (VInt 1).
  - intros n Hn Hpos. vm_compute in Hn. injection Hn as <-. lia.
  - by exists "Auth".
  - by exists 500%Z.
  - by exists 100%Z.
  - by exists (VInt 2).
  - intros n Hn _. vm_compute in Hn. injection Hn as <-.
    exists (payload "Auth" "body"). split; [reflexivity|]. split.
    + intros H. apply (f_equal (lookup "title")) in H. vm_compute in H.
      discriminate.
    + by exists "body".
Qed.

(** The corpus against a remote source that has the document. *)
Lemma crawl_tree_ends_normally_witness :
  (crawl_tree (sample_env (payload "Auth" "body")) sample_tree [] empty_state).2
  = Ok tt.
Proof.
  apply (crawl_tree_ends_normally _ sample_tree [] []); [|reflexivity].
  pose proof sample_served as H.
  apply Forall_cons in H as [Hapi H]. apply Forall_cons in H as [Hauth _].
  split; [exact Hapi|]. split; [|exact I]. split; [exact Hauth|]. split; exact I.
Defined.

(** ** Writing an artifact and reading it back *)

(** X14: an artifact composed by [md_to_mdx] for a body that is not empty,
    an update time [T] that is not negative and a title that does not hold
    the text [update_time:], once saved by [save_document] on a file system
    that takes the write, is read back by [extract_update_time_from_mdx]
    with the update time [T], whatever the body holds. *)
Theorem saved_header_is_read_back E t body title category_id T file_path st :
  (0 ≤ T)%Z → body ≠ "" → plain_title title →
  can_write E (fs st) file_path = true →
  ∃ text,
    md_to_mdx (strftime t) (VStr body) title category_id (VInt T) = Ok text
    ∧ (save_document E file_path text st).2 = Ok tt
    ∧ extract_update_time_from_mdx (fs (save_document E file_path text st).1)
        file_path = Some T.
Proof.
  intros HT Hbody Htitle Hw.
  destruct (header_round_trip (strftime t) body title category_id T)
    as (text & Hmdx & Hparse); try done; [apply strftime_timestamp|].
  exists text. split; [done|]. unfold save_document. rewrite Hw. simpl.
  split; [done|]. unfold extract_update_time_from_mdx.
  by rewrite lookup_insert_eq.
Qed.

(** The artifact of the scenario, with a body that holds a header of its
    own. *)
Lemma saved_header_is_read_back_witness :
  ∃ text,
    md_to_mdx (strftime (clock (sample_env ∅) 0)) (VStr header_title)
      (VStr "Auth") (VInt 2) (VInt 100) = Ok text
    ∧ (save_document (sample_env ∅) auth_path text empty_state).2 = Ok tt
    ∧ extract_update_time_from_mdx
        (fs (save_document (sample_env ∅) auth_path text empty_state).1)
        auth_path = Some 100%Z.
Proof.
  apply (saved_header_is_read_back (sample_env ∅) (clock (sample_env ∅) 0)
           header_title (VStr "Auth") (VInt 2) 100 auth_path empty_state).
  - lia.
  - discriminate.
  - reflexivity.
  - reflexivity.
Defined.

(** ** The listing page *)

Section CaptureLemmas.
Context {R : Type}.
Implicit Types (p : ascii → bool).

Lemma lazy_capture_split p (k : string → @cont R) acc prev s r :
  lazy_capture p k acc prev s = Some r →
  ∃ a b prev', s = a +:+ b ∧ all_chars p a = true ∧ k (acc +:+ a) prev' b = Some r.
Proof.
  revert acc prev. induction s as [|c s IH]; intros acc prev; simpl.
  - destruct (k acc prev "") eqn:Hk; [|done]. intros [= ->].
    exists "", "", prev. repeat split; by rewrite ?sapp_nil_r.
  - destruct (k acc prev (String c s)) eqn:Hk.
    + intros [= ->]. exists "", (String c s), prev.
      repeat split; by rewrite ?sapp_nil_r.
    + destruct (p c) eqn:Hc; [|done]. intros Hrec.
      destruct (IH _ _ Hrec) as (a & b & prev' & -> & Ha & Hk').
      exists (String c a), b, prev'. simpl. rewrite Hc, Ha.
      by rewrite sapp_assoc in Hk'.
Qed.

Lemma lazy_capture_now p (k : string → @cont R) acc prev s r :
  k acc prev s = Some r → lazy_capture p k acc prev s = Some r.
Proof. intros H. destruct s; simpl; by rewrite H. Qed.

Lemma lazy_capture_complete p (k : string → @cont R) acc prev a b :
  all_chars p a = true → is_Some (k (acc +:+ a) (last_char prev a) b) →
  is_Some (lazy_capture p k acc prev (a +:+ b)).
Proof.
  revert acc prev. induction a as [|c a IH]; intros acc prev Ha Hk.
  - simpl in *. rewrite sapp_nil_r in Hk. destruct Hk as [r Hk]. exists r.
    by apply lazy_capture_now.
  - simpl in Ha. apply andb_true_iff in Ha as [Hc Ha].
    change (String c a +:+ b) with (String c (a +:+ b)). cbn [lazy_capture].
    destruct (k acc prev (String c (a +:+ b))); [by eexists|].
    rewrite Hc. apply IH; [done|]. by rewrite sapp_assoc.
Qed.

Lemma search_with_now (here : @cont R) prev s r :
  here prev s = Some r → search_with here prev s = Some r.
Proof. intros H. destruct s; simpl; by rewrite H. Qed.

Lemma search_with_split (here : @cont R) prev s r :
  search_with here prev s = Some r →
  ∃ before after prev', s = before +:+ after ∧ here prev' after = Some r.
Proof.
  revert prev. induction s as [|c s IH]; intros prev; simpl.
  - destruct (here prev "") eqn:Hm; [|done]. intros [= ->]. by exists "", "", prev.
  - destruct (here prev (String c s)) eqn:Hm.
    + intros [= ->]. by exists "", (String c s), prev.
    + intros Hrec. destruct (IH _ Hrec) as (before & after & prev' & -> & Hm').
      by exists (String c before), after, prev'.
Qed.

Lemma search_with_complete (here : @cont R) prev before after :
  is_Some (here (last_char prev before) after) →
  is_Some (search_with here prev (before +:+ after)).
Proof.
  revert prev. induction before as [|c before IH]; intros prev Hm.
  - simpl in *. destruct Hm as [m Hm]. exists m. by apply search_with_now.
  - change (String c before +:+ after) with (String c (before +:+ after)).
    cbn [search_with].
    destruct (here prev (String c (before +:+ after))); [by eexists|].
    by apply IH.
Qed.
End CaptureLemmas.

Lemma settings_here_split prev s g :
  settings_here prev s = Some g →
  ∃ ws1 ws2 inner after,
    s = "window.settings" +:+ ws1 +:+ "=" +:+ ws2 +:+ "{" +:+ inner +:+ "};"
        +:+ after
    ∧ all_chars is_space ws1 = true ∧ all_chars is_space ws2 = true
    ∧ g = "{" +:+ inner +:+ "}".
Proof.
  unfold settings_here. intros Hm.
  destruct (read_lit "window.settings" prev s) as [[q1 s1]|] eqn:H1; [|done].
  apply read_lit_split in H1 as ->.
  apply star_greedy_split in Hm as (ws1 & s2 & q2 & -> & Hws1 & Hm).
  destruct (read_lit "=" q2 s2) as [[q3 s3]|] eqn:H3; [|done].
  apply read_lit_split in H3 as ->.
  apply star_greedy_split in Hm as (ws2 & s4 & q4 & -> & Hws2 & Hm).
  destruct (read_lit "{" q4 s4) as [[q5 s5]|] eqn:H5; [|done].
  apply read_lit_split in H5 as ->.
  apply lazy_capture_split in Hm as (inner & s6 & q6 & -> & _ & Hm).
  destruct (read_lit "};" q6 s6) as [[q7 s7]|] eqn:H7; [|done].
  apply read_lit_split in H7 as ->. injection Hm as <-.
  by exists ws1, ws2, inner, s7.
Qed.

Lemma settings_here_complete prev ws1 ws2 inner after :
  all_chars is_space ws1 = true → all_chars is_space ws2 = true →
  is_Some (settings_here prev
    ("window.settings" +:+ ws1 +:+ "=" +:+ ws2 +:+ "{" +:+ inner +:+ "};"
     +:+ after)).
Proof.
  intros Hws1 Hws2. unfold settings_here.
  rewrite read_lit_last. apply star_greedy_complete; [done|].
  rewrite read_lit_last. apply star_greedy_complete; [done|].
  rewrite read_lit_last. apply lazy_capture_complete; [apply all_chars_any|].
  rewrite read_lit_last. by eexists.
Qed.

Lemma has_settings_found content :
  has_settings content ↔ is_Some (search_with settings_here None content).
Proof.
  split.
  - intros (before & ws1 & ws2 & inner & after & -> & Hws1 & Hws2).
    apply search_with_complete. by apply settings_here_complete.
  - intros [g Hg].
    apply search_with_split in Hg as (before & s & prev' & -> & Hm).
    apply settings_here_split in Hm as (ws1 & ws2 & inner & after & -> & ? & ? & _).
    by exists before, ws1, ws2, inner, after.
Qed.

Lemma starts_with_app_l l a b :
  starts_with l a = true → starts_with l (a +:+ b) = true.
Proof. intros [s ->]%starts_with_split. rewrite sapp_assoc. apply starts_with_refl. Qed.

Lemma occurs_app_l l a b : occurs l a = true → occurs l (a +:+ b) = true.
Proof.
  induction a as [|c a IH].
  - simpl. rewrite orb_false_r. intros H.
    destruct l; [by destruct b|done].
  - cbn [occurs]. intros [H|H]%orb_true_iff.
    + apply (starts_with_app_l _ _ b) in H.
      change (String c a +:+ b) with (String c (a +:+ b)) in *.
      cbn [occurs]. by rewrite H.
    + change (String c a +:+ b) with (String c (a +:+ b)).
      cbn [occurs]. rewrite (IH H). apply orb_true_r.
Qed.

Lemma before_first_None sub s : occurs sub s = false → before_first sub s = None.
Proof.
  induction s as [|c s IH]; cbn [occurs before_first].
  - rewrite orb_false_r. by intros ->.
  - intros [-> H]%orb_false_iff. by rewrite (IH H).
Qed.

Lemma before_first_Some sub s a :
  before_first sub s = Some a → ∃ b, s = a +:+ sub +:+ b.
Proof.
  revert a. induction s as [|c s IH]; intros a; cbn [before_first].
  - destruct (starts_with sub "") eqn:Hs; [|done]. intros [= <-].
    apply starts_with_split in Hs as [b Hb]. by exists b.
  - destruct (starts_with sub (String c s)) eqn:Hs.
    + intros [= <-]. apply starts_with_split in Hs as [b Hb]. by exists b.
    + destruct (before_first sub s) as [a'|]; [|done]. intros [= <-].
      destruct (IH a' eq_refl) as [b ->]. by exists b.
Qed.

(** X15: on a page that does not hold the text [</script>],
    [extract_categories_from_page] returns no categories: it raises
    [ValueError] (from [str.index], which it does not catch) when the page
    holds what the pattern of the settings describes, and returns [None]
    when it does not. *)
Theorem page_without_script_end web loads url content :
  web url = Some content → occurs "</script>" content = false →
  (has_settings content →
   extract_categories_from_page web loads url = Raised ValueError)
  ∧ (¬ has_settings content →
     extract_categories_from_page web loads url = Returned None).
Proof.
  intros Hweb Hno. unfold extract_categories_from_page, fetch_page.
  rewrite Hweb. split.
  - intros Hs. pose proof Hs as [g Hg]%has_settings_found.
    rewrite bool_decide_eq_false_2.
    2:{ intros ->. by destruct Hs as ([] & ? & ? & ? & ? & ? & _). }
    rewrite Hg. rewrite before_first_None; [done|].
    apply search_with_split in Hg as (before & s & prev' & -> & Hm).
    apply settings_here_split in Hm as (ws1 & ws2 & inner & after & -> & _ & _ & ->).
    destruct (occurs "</script>" ("{" +:+ inner +:+ "}")) eqn:Ho; [|done].
    rewrite <- Hno. symmetry.
    apply occurs_app_r.
    apply (occurs_app_r _ "window.settings"), occurs_app_r,
      (occurs_app_r _ "="), occurs_app_r.
    rewrite <- (sapp_assoc "{"), <- (sapp_assoc _ "};").
    change "};" with ("}" +:+ ";").
    rewrite <- (sapp_assoc _ "}"), (sapp_assoc _ ";").
    apply occurs_app_l. by rewrite sapp_assoc.
  - intros Hs. case_bool_decide; [done|].
    destruct (search_with settings_here None content) eqn:Hg; [|done].
    destruct Hs. apply has_settings_found. by rewrite Hg.
Qed.

(** A page that is nothing but well-formed settings. *)
Lemma page_without_script_end_witness :
  extract_categories_from_page (λ _, Some "window.settings = {};")
    (λ _, Some (JObject ∅)) "https://host/document/path/90195"
  = Raised ValueError.
Proof.
  apply (proj1 (page_without_script_end (λ _, Some "window.settings = {};")
                  (λ _, Some (JObject ∅)) "https://host/document/path/90195"
                  "window.settings = {};" eq_refl eq_refl)).
  by exists "", " ", " ", "", "".
Defined.

Lemma before_first_clear sub s a :
  sub ≠ "" → before_first sub s = Some a → occurs sub a = false.
Proof.
  intros Hsub. revert a. induction s as [|c s IH]; intros a; cbn [before_first].
  - destruct (starts_with sub ""); [|done]. intros [= <-]. by destruct sub.
  - destruct (starts_with sub (String c s)) eqn:Hs.
    + intros [= <-]. by destruct sub.
    + destruct (before_first sub s) as [a'|] eqn:Ha; [|done]. intros [= <-].
      cbn [occurs]. rewrite (IH a' eq_refl), orb_false_r.
      destruct (starts_with sub (String c a')) eqn:Hs'; [|done].
      apply before_first_Some in Ha as [b ->].
      apply (starts_with_app_l _ _ (sub +:+ b)) in Hs'. simpl in Hs', Hs. congruence.
Qed.

(** X16: the result of [extract_categories_from_page] depends on the JSON
    decoder only through what it makes of texts that start with a brace
    and do not hold [</script>]: no other text is handed to it. *)
Theorem loads_gets_a_brace web loads loads' url :
  (∀ s, starts_with "{" s = true → occurs "</script>" s = false →
        loads s = loads' s) →
  extract_categories_from_page web loads url
  = extract_categories_from_page web loads' url.
Proof.
  intros Hsame. unfold extract_categories_from_page.
  destruct (fetch_page web url) as [content|]; [|done].
  case_bool_decide; [done|].
  destruct (search_with settings_here None content) as [g|] eqn:Hg; [|done].
  destruct (before_first "</script>" g) as [s|] eqn:Hs; [|done].
  rewrite (Hsame s); [done| |].
  - apply search_with_split in Hg as (before & s0 & prev' & -> & Hm).
    apply settings_here_split in Hm as (ws1 & ws2 & inner & after & _ & _ & _ & ->).
    simpl in Hs.
    destruct (before_first "</script>" (inner +:+ "}")) as [a|]; [|done].
    by injection Hs as <-.
  - by apply (before_first_clear "</script>" g).
Qed.

(** Two decoders that differ on a text that starts with a bracket only. *)
Lemma loads_gets_a_brace_witness :
  extract_categories_from_page (λ _, Some "window.settings={}</script>};")
    (λ s, if bool_decide (s = "[]") then Some (JArray []) else Some (JObject ∅))
    "https://host/document/path/90195"
  = extract_categories_from_page (λ _, Some "window.settings={}</script>};")
      (λ _, Some (JObject ∅)) "https://host/document/path/90195".
Proof.
  apply loads_gets_a_brace. intros s Hs _.
  rewrite bool_decide_eq_false_2; [done|]. by intros ->.
Defined.
(** *** The page the crawler is written for *)

Lemma starts_with_long l u x :
  String.length l ≤ String.length u → starts_with l (u +:+ x) = starts_with l u.
Proof.
  revert u. induction l as [|c l IH]; intros u; [done|].
  destruct u as [|d u]; simpl; [lia|]. intros Hlen.
  destruct (Ascii.eqb c d); simpl; [apply IH; lia|done].
Qed.

Lemma length_sapp (a b : string) :
  String.length (a +:+ b) = String.length a + String.length b.
Proof. induction a as [|c a IH]; simpl; [done|]. by rewrite IH. Qed.

Lemma clear_of_tail l a x y :
  clear_of l a (l +:+ x) = clear_of l a (l +:+ y).
Proof.
  induction a as [|c a IH]; [done|]. cbn [clear_of]. rewrite IH. f_equal. f_equal.
  rewrite <- !(sapp_assoc (String c a) l).
  rewrite !(starts_with_long l (String c a +:+ l)); [done|rewrite length_sapp; lia..].
Qed.

Lemma before_first_at sub a b :
  clear_of sub a (sub +:+ b) = true → before_first sub (a +:+ sub +:+ b) = Some a.
Proof.
  induction a as [|c a IH].
  - intros _. simpl. destruct (sub +:+ b) eqn:E; cbn [before_first];
      rewrite <- E, starts_with_refl; done.
  - cbn [clear_of]. intros [Hc Ha]%andb_true_iff. apply negb_true_iff in Hc.
    change (String c a +:+ sub +:+ b) with (String c (a +:+ sub +:+ b)) in *.
    cbn [before_first]. by rewrite Hc, (IH Ha).
Qed.

Section Skip.
Context {R : Type}.

Lemma search_with_clear l (here : @cont R) a b prev :
  (∀ q s, starts_with l s = false → here q s = None) →
  clear_of l a b = true →
  ∃ prev', search_with here prev (a +:+ b) = search_with here prev' b.
Proof.
  intros Hhere. revert prev. induction a as [|c a IH]; intros prev; [by exists prev|].
  intros [Hc Ha]%andb_true_iff. apply negb_true_iff in Hc.
  change (String c a +:+ b) with (String c (a +:+ b)) in *.
  cbn [search_with]. rewrite (Hhere _ _ Hc). by apply IH.
Qed.

Lemma lazy_capture_clear l (k : string → @cont R) a b acc prev :
  (∀ g q s, starts_with l s = false → k g q s = None) →
  clear_of l a b = true →
  ∃ prev', lazy_capture any_char k acc prev (a +:+ b)
           = lazy_capture any_char k (acc +:+ a) prev' b.
Proof.
  intros Hk. revert acc prev. induction a as [|c a IH]; intros acc prev.
  - exists prev. by rewrite sapp_nil_r.
  - intros [Hc Ha]%andb_true_iff. apply negb_true_iff in Hc.
    change (String c a +:+ b) with (String c (a +:+ b)) in *.
    cbn [lazy_capture]. rewrite (Hk _ _ _ Hc). simpl.
    destruct (IH (acc +:+ String c "") (Some c) Ha) as [prev' ->].
    exists prev'. by rewrite sapp_assoc.
Qed.
End Skip.

Lemma settings_here_at prev ws1 ws2 inner after :
  all_chars is_space ws1 = true → all_chars is_space ws2 = true →
  clear_of "};" inner ("};" +:+ after) = true →
  settings_here prev
    ("window.settings" +:+ ws1 +:+ "=" +:+ ws2 +:+ "{" +:+ inner +:+ "};"
     +:+ after)
  = Some ("{" +:+ inner +:+ "}").
Proof.
  intros Hws1 Hws2 Hclear. unfold settings_here. rewrite read_lit_last.
  apply star_greedy_take; [done..|]. intros q1. rewrite read_lit_last.
  apply star_greedy_take; [done..|]. intros q2. rewrite read_lit_last.
  edestruct (lazy_capture_clear "};"
    (λ g prev s, match read_lit "};" prev s with
                 | Some _ => Some ("{" +:+ g +:+ "}")
                 | None => None
                 end) inner ("};" +:+ after) "") as [q3 ->]; [|done|].
  { intros g q s Hs. by rewrite read_lit_starts. }
  apply lazy_capture_now. by rewrite read_lit_last.
Qed.

(** X17: on a page where the first [window.settings] is followed by an
    equals sign and a brace (whitespace between them), where the first
    [</script>] after that brace comes before the first closing brace with
    a semicolon, [extract_categories_from_page] decodes the text from the
    brace up to that [</script>], whatever follows on the page: it returns
    what the decoded object holds under [categories] (an empty list when it
    has no such key), and [None] when the text is no JSON. *)
Theorem settings_end_at_script_end web loads url before ws1 ws2 body between after :
  web url = Some (before +:+ "window.settings" +:+ ws1 +:+ "=" +:+ ws2 +:+ "{"
                  +:+ body +:+ "</script>" +:+ between +:+ "};" +:+ after) →
  clear_of "window.settings" before
    ("window.settings" +:+ ws1 +:+ "=" +:+ ws2 +:+ "{" +:+ body +:+ "</script>"
     +:+ between +:+ "};" +:+ after) = true →
  all_chars is_space ws1 = true → all_chars is_space ws2 = true →
  clear_of "</script>" ("{" +:+ body)
    ("</script>" +:+ between +:+ "};" +:+ after) = true →
  clear_of "};" (body +:+ "</script>" +:+ between) ("};" +:+ after) = true →
  extract_categories_from_page web loads url
  = match loads ("{" +:+ body) with
    | None => Returned None
    | Some (JObject settings) =>
        Returned (Some (default (JArray []) (settings !! "categories")))
    | Some _ => Raised AttributeError
    end.
Proof.
  intros Hweb Hname Hws1 Hws2 Hscript Hclose.
  unfold extract_categories_from_page, fetch_page. rewrite Hweb.
  rewrite bool_decide_eq_false_2.
  2:{ intros H. apply (f_equal String.length) in H.
      rewrite !length_sapp in H. simpl in H. lia. }
  edestruct (search_with_clear "window.settings" settings_here before) as [q ->];
    [|exact Hname|].
  { intros q s Hs. unfold settings_here. by rewrite read_lit_starts. }
  assert (Hm : settings_here q
    ("window.settings" +:+ ws1 +:+ "=" +:+ ws2 +:+ "{" +:+ body +:+ "</script>"
     +:+ between +:+ "};" +:+ after)
    = Some ("{" +:+ (body +:+ "</script>" +:+ between) +:+ "}")).
  { rewrite <- (settings_here_at q ws1 ws2 (body +:+ "</script>" +:+ between) after)
      by done.
    by rewrite !sapp_assoc. }
  rewrite (search_with_now _ _ _ _ Hm).
  assert (Hb : before_first "</script>"
                 ("{" +:+ (body +:+ "</script>" +:+ between) +:+ "}")
               = Some ("{" +:+ body)).
  { rewrite <- (before_first_at "</script>" ("{" +:+ body) (between +:+ "}")).
    - by rewrite !sapp_assoc.
    - by rewrite (clear_of_tail _ _ _ (between +:+ "};" +:+ after)). }
  by rewrite Hb.
Qed.

(** A page with the settings in one script and a closing brace with a
    semicolon in the next. *)
Lemma settings_end_at_script_end_witness :
  extract_categories_from_page
    (λ _, Some "<script>window.settings = {}</script><script>a={};</script>")
    (λ s, if bool_decide (s = "{}") then Some (JObject ∅) else None)
    "https://host/document/path/90195"
  = Returned (Some (JArray [])).
Proof.
  refine (eq_trans
    (settings_end_at_script_end _ _ _ "<script>" " " " " "}" "<script>a={"
       "</script>" _ _ _ _ _ _) _); reflexivity.
Defined.

(** ** The whole run *)

Lemma build_tree_forall (P : dict → Prop) cats tree :
  Forall P cats → build_category_tree cats = Ok tree → tree_forall P tree.
Proof.
  rewrite build_category_tree_unfold. case_bool_decide; [|done].
  intros HP Hloop.
  assert (Hinv : Forall (node_of_list cats) (nodes tree)).
  { by apply (build_loop_nodes cats cats FNil tree). }
  apply (nodes_tree_forall _ tree []). intros x Hx.
  rewrite Forall_forall in Hinv. rewrite Forall_forall in HP.
  destruct (Hinv x Hx) as (Hin & _). auto.
Qed.

(** X18: [run] ends normally when the output directory can be made, the
    page gives a list of records that all have the key [id], a text as
    title, integers as document id and update time where they have them
    and the key [category_id], and the remote source answers the request
    for every leaf with a payload whose body, when it has one, is a text:
    whatever the order of the records, their parent ids and the outcome of
    the writes. *)
Theorem run_ends_normally E base_url web loads items cats st :
  extract_categories_from_page web loads (base_url +:+ "/document/path/90195")
  = Returned (Some (JArray items)) →
  mapM as_record items = Some cats →
  Forall (λ c, is_Some (c !! "id") ∧ served E c) cats →
  (run_crawler E base_url web loads true st).2 = Done.
Proof.
  intros Hpage Hrecords Hcats. unfold run_crawler. cbn [negb]. rewrite Hpage.
  destruct (json_truthy (JArray items)); cbn [negb]; [|done].
  rewrite Hrecords.
  assert (Hserved : Forall (served E) cats).
  { eapply Forall_impl; [exact Hcats|]. by intros c [_ ?]. }
  destruct (build_category_tree cats) as [tree|e] eqn:Hbuild.
  - pose proof (crawl_tree_served E tree [] [] st
                  (build_tree_forall _ _ _ Hserved Hbuild) eq_refl) as Hrun.
    by destruct (crawl_tree E tree [] st) as [st' [[]|e]].
  - rewrite build_category_tree_unfold in Hbuild.
    rewrite bool_decide_eq_true_2 in Hbuild
      by (eapply Forall_impl; [exact Hcats|]; by intros c [? _]).
    apply build_loop_error in Hbuild as (_ & c & Hin & Hc).
    rewrite Forall_forall in Hserved.
    destruct (Hserved c Hin) as (_ & _ & _ & [k Hk] & _). congruence.
Qed.

(** The page and the listing of the corpus. *)
Lemma run_ends_normally_witness :
  (run_crawler (sample_env (payload "Auth" "body"))
     "https://developer.work.weixin.qq.com" (λ _, Some sample_page)
     (λ _, Some sample_settings) true empty_state).2
  = Done.
Proof.
  apply (run_ends_normally _ _ _ _ sample_listing [api; auth]).
  - vm_compute. reflexivity.
  - vm_compute. reflexivity.
  - pose proof sample_served as H.
    apply Forall_cons in H as [Hapi H]. apply Forall_cons in H as [Hauth _].
    apply Forall_cons. split; [split; [by eexists|exact Hapi]|].
    apply Forall_cons. split; [split; [by eexists|exact Hauth]|]. by apply Forall_nil.
Defined.

(** ** An update time that is no integer *)

(** X19: for a leaf whose record has a text under [time], once its
    artifact is on file with a header that can be read, the node raises
    [TypeError] (the comparison of the two update times) before any request
    and leaves the state as it is. *)
Theorem text_update_time_raises E path cat own d cp L s st :
  cat !! "title" = Some (VStr own) →
  cat !! "doc_id" = Some (VInt d) → (0 < d)%Z →
  as_strs path = Ok cp →
  extract_update_time_from_mdx (fs st)
    (generate_file_path (output_dir E) cp own) = Some L →
  cat !! "time" = Some (VStr s) →
  crawl_node E path cat st = (st, Err TypeError).
Proof.
  intros Ht Hd Hpos Hp Hx Htime.
  rewrite (crawl_node_leaf _ _ _ _ _ _ Ht Hd Hpos).
  unfold crawl_leaf. unfold bindM at 1, lift at 1. rewrite Hp.
  unfold bindM at 1, lift at 1. cbn [as_str].
  unfold bindM at 1, lift at 1, getitem at 1. rewrite Hd.
  unfold bindM at 1. unfold needs_update.
  rewrite (extract_exists _ _ _ Hx), Hx. unfold get. by rewrite Htime.
Qed.

(** The mirrored corpus, and the leaf with the text [100] as update time. *)
Lemma text_update_time_raises_witness :
  crawl_node (sample_env (payload "Auth" "body")) [VStr "API"] auth_text_time
    mirrored_state
  = (mirrored_state, Err TypeError).
Proof.
  apply (text_update_time_raises (sample_env (payload "Auth" "body"))
           [VStr "API"] auth_text_time "Auth" 500 ["API"] 100 "100"
           mirrored_state); try reflexivity.
Defined.

(** ** A write that fails *)

(** X20: a leaf whose write failed is asked for again the next time the
    node is visited, when the failed write left the files as they were (it
    failed before the file was open) or left at the path of the artifact a
    file from which no update time is read. *)
Theorem failed_write_is_retried E path cat st st' cp d p :
  crawl_node E path cat st = (st', Ok cp) →
  trace st' = trace st ++ not_saved d p →
  fs st' = fs st ∨ extract_update_time_from_mdx (fs st') p = None →
  ∃ st'' r rest,
    crawl_node E path cat st' = (st'', r)
    ∧ trace st'' = trace st' ++ EvFetch d :: rest.
Proof.
  intros Hn Htr Hleft.
  destruct (crawl_node_cases _ _ _ _ _ _ Hn)
    as [[-> _]|(n & title & fp & Hl & Hstale
                & [[-> _]|[(text & _ & -> & _)|(text & _ & -> & _)]])];
    simpl in Htr.
  - apply (f_equal length) in Htr. rewrite length_app in Htr. simpl in Htr. lia.
  - by apply app_inv_head in Htr.
  - by apply app_inv_head in Htr.
  - apply app_inv_head in Htr. injection Htr as <- <-.
    destruct Hl as (Ht & Hd & Hpos & cp' & own & Hcp & -> & ->).
    set (fp := generate_file_path (output_dir E) cp' own) in *.
    set (st1 := {| fs := _; trace := trace st ++ not_saved _ _ |}) in *.
    rewrite (crawl_node_leaf _ _ _ _ _ _ Ht Hd Hpos).
    destruct (crawl_leaf_fetches E path cat (VStr own) cp' own (VInt n) st1)
      as (st'' & r & rest & Hrun & Hrest); [done|done|done| |].
    { fold fp. destruct Hleft as [->|Hnone]; [exact Hstale|].
      unfold needs_update. rewrite Hnone. by destruct (exists_path _ _). }
    rewrite Hrun. destruct r as [[]|e]; eauto.
Qed.

(** The leaf of the corpus on a file system that takes no write: after the
    first visit the second one asks for the document again. *)
Lemma failed_write_is_retried_witness :
  let E := read_only_env (payload "Auth" "body") in
  let st' := (crawl_node E [VStr "API"] auth empty_state).1 in
  ∃ st'' r rest,
    crawl_node E [VStr "API"] auth st' = (st'', r)
    ∧ trace st'' = trace st' ++ EvFetch "500" :: rest.
Proof.
  intros E st'.
  apply (failed_write_is_retried E [VStr "API"] auth empty_state st'
           [VStr "API"; VStr "Auth"] "500" auth_path);
    [reflexivity|reflexivity|left; reflexivity].
Defined.





(** ** A document with an empty body *)


